(** * GenetiGo: a shallow embedding of the genetic-algorithm engine, the batch
    planner and the NEAT genome model, with the properties of the
    specification stated and settled against it.

    Conventions of the embedding.
    - Go's fixed-width unsigned integers are [Z] with the wrap-around written
      out ([wrap32], [wrap64]); [int] is the 64-bit [int] of Go's 64-bit
      targets.
    - [float32] and [float64] are IEEE-754 binary32 / binary64 values,
      [spec_float] with precision 24 / 53, all operations rounding to nearest
      even as Go's do.
    - A panic is [None]; a function that cannot panic returns its value.
    - Random draws are explicit arguments (or come from the world state of the
      engine), so that every definition is a function.
    - Go pointers to mutable structs are locations into an explicit heap. *)

From Stdlib Require Import ZArith Lia SpecFloat.
From stdpp Require Import base option list gmap sorting.

Local Open Scope Z_scope.

(** ** Machine arithmetic *)

Definition wrap32 (z : Z) : Z := z mod 2 ^ 32.
Definition wrap64 (z : Z) : Z := z mod 2 ^ 64.

(** Conversion of a 64-bit pattern to the signed [int64] it denotes. *)
Definition int64 (z : Z) : Z :=
  let u := wrap64 z in if u <? 2 ^ 63 then u else u - 2 ^ 64.

Definition float32 := spec_float.
Definition float64 := spec_float.

Definition f32_of_Z (n : Z) : float32 := binary_normalize 24 128 n 0 false.
Definition f32_div : float32 -> float32 -> float32 := SFdiv 24 128.
Definition f32_sub : float32 -> float32 -> float32 := SFsub 24 128.
Definition f32_add : float32 -> float32 -> float32 := SFadd 24 128.
Definition f32_ltb : float32 -> float32 -> bool := SFltb.

Definition f64_of_Z (n : Z) : float64 := binary_normalize 53 1024 n 0 false.
Definition f64_div : float64 -> float64 -> float64 := SFdiv 53 1024.
Definition f64_mul : float64 -> float64 -> float64 := SFmul 53 1024.
Definition f64_sub : float64 -> float64 -> float64 := SFsub 53 1024.
Definition f64_add : float64 -> float64 -> float64 := SFadd 53 1024.
Definition f64_abs : float64 -> float64 := SFabs.
Definition f64_ltb : float64 -> float64 -> bool := SFltb.

(** A decimal constant [n / 10^k] of the source, rounded once to binary64 as
    the Go compiler rounds a floating-point literal. *)
Definition f64_const (n d : Z) : float64 := f64_div (f64_of_Z n) (f64_of_Z d).

(** [math.Sqrt], correctly rounded, and the conversion [uint32(f)] of a
    [float64]: the fraction is discarded; [None] where the value does not
    fit and Go leaves the result to the implementation. *)
Definition f64_sqrt : float64 -> float64 := SFsqrt 53 1024.

Definition uint32_of_f64 (f : float64) : option Z :=
  match f with
  | S754_zero _ => Some 0
  | S754_finite s m e =>
      let v := if 0 <=? e then Z.pos m * 2 ^ e else Z.pos m / 2 ^ (- e) in
      if s then (if v =? 0 then Some 0 else None)
      else if v <? 2 ^ 32 then Some v else None
  | _ => None
  end.

(** ** Package batching *)

Module batching.

Record BatchInfo := { Start : Z; End : Z }.

(** The [for range nBatches] loop of [BuildBatchesList]: [n] iterations are
    left, [batches], [start] and [end_] are the loop's variables. *)
Fixpoint fill (n : nat) (nElements batchSize : Z)
    (batches : list BatchInfo) (start end_ : Z) : list BatchInfo :=
  match n with
  | O => batches
  | S n' =>
      let end1 := if nElements <? end_ then nElements else end_ in
      fill n' nElements batchSize
        (batches ++ [{| Start := start; End := end1 |}])
        end1 (wrap32 (end1 + batchSize))
  end.

(** [nElements / nBatches] panics on a zero divisor, and so does the index
    [nBatches-1] into an empty slice. *)
Definition BuildBatchesList (nElements nBatches : Z) : option (list BatchInfo) :=
  if nElements =? 0 then Some []
  else if nBatches =? 0 then None
  else
    let batchSize := nElements / nBatches in
    let batches := fill (Z.to_nat nBatches) nElements batchSize [] 0 batchSize in
    let last := Z.to_nat (wrap32 (nBatches - 1)) in
    b ← batches !! last;
    if negb (End b =? nElements)
    then Some (<[last := {| Start := Start b; End := nElements |}]> batches)
    else Some batches.

(** What "contiguous, non-overlapping, with union [[lo, hi)]" means for a
    sequence of half-open ranges: each range starts where the previous one
    ended, none is reversed, the first starts at [lo], the last ends at
    [hi]. *)
Fixpoint chained (batches : list BatchInfo) (lo hi : Z) : Prop :=
  match batches with
  | [] => lo = hi
  | b :: rest => Start b = lo /\ Start b <= End b /\ chained rest (End b) hi
  end.

Definition member_of (i : Z) (b : BatchInfo) : Prop := Start b <= i < End b.

(** The ranges of base size [bs]: the [n] ranges from position [j] on. *)
Definition ranges (bs : Z) (j n : nat) : list BatchInfo :=
  map (fun k => {| Start := Z.of_nat k * bs; End := (Z.of_nat k + 1) * bs |}) (seq j n).

End batching.

(** ** Package ga *)

(** How a run of a loop written with fuel ends. *)
Inductive outcome (A : Type) : Type :=
  | Returned (a : A)
  | Panicked
  | OutOfFuel.
Arguments Returned {A} a.
Arguments Panicked {A}.
Arguments OutOfFuel {A}.

(** [for _, a := range l { body }] over a state, stopping at the first panic. *)
Fixpoint forEach {A S : Type} (l : list A) (body : A -> S -> option S) (s : S)
    : option S :=
  match l with
  | [] => Some s
  | a :: l' => s' ← body a s; forEach l' body s'
  end.

Module ga.
Import batching.

Record MemberData := { FitnessScore : Z; SurvivalChance : float32 }.

Record SolverOptions := {
  PopulationSize : Z;
  MaxGenerations : Z;
  MutationChance : float32;
  NBatches : Z;
  Speciation : bool;
  Verbose : bool
}.

(** The fields of [SolverOptions] are [uint32]s. *)
Definition uint32_options (o : SolverOptions) : Prop :=
  0 <= PopulationSize o < 2 ^ 32 /\ 0 <= MaxGenerations o < 2 ^ 32 /\
  0 <= NBatches o < 2 ^ 32.

(** The interface [Member]. A member [M] is a handle (in Go, a pointer) on
    a mutable individual; [W] is everything the methods of the members read
    and write: the individuals themselves, package-level variables, and
    the state of [math/rand/v2], whose [rand.Float32] is [rand_Float32].
    [GetFitnessScore] returns a [uint32]. [nil] is the zero value of [M],
    with which [make([]M, n)] fills a slice. *)
Class Member (M W : Type) := {
  GetFitnessScore : M -> W -> Z;
  GetFitnessScore_uint32 : forall m w, 0 <= GetFitnessScore m w < 2 ^ 32;
  GetSurvivalChance : M -> W -> float32;
  SetSurvivalChance : M -> float32 -> W -> W;
  Distance : M -> M -> W -> float64 * W;
  ComputeAndSetFitnessScore : M -> W -> W;
  Crossover : M -> M -> W -> M * W;
  Mutate : M -> W -> W;
  nil : M;
  rand_Float32 : W -> float32 * W
}.

(** [slices.MaxFunc] of the Go library: the first maximal element of a
    non-empty slice under [cmp]; it panics on an empty slice. [m] is the
    running maximum. *)
Fixpoint MaxFunc_from {E : Type} (cmp : E -> E -> Z) (m : E) (x : list E) : E :=
  match x with
  | [] => m
  | xi :: x' => MaxFunc_from cmp (if 0 <? cmp xi m then xi else m) x'
  end.

Definition MaxFunc {E : Type} (x : list E) (cmp : E -> E -> Z) : option E :=
  match x with
  | [] => None
  | m :: x' => Some (MaxFunc_from cmp m x')
  end.

Section Engine.
Context {M W : Type} `{Member M W}.

Record Solver := {
  population : list M;
  options : SolverOptions;
  generationNo : Z
}.

Definition NewSolver (members : list M) (options : SolverOptions) : option Solver :=
  if PopulationSize options =? 0 then None
  else if negb (wrap32 (Z.of_nat (length members)) =? PopulationSize options) then None
  else
    let options1 :=
      if NBatches options =? 0
      then {| PopulationSize := PopulationSize options;
              MaxGenerations := MaxGenerations options;
              MutationChance := MutationChance options;
              NBatches := 1;
              Speciation := Speciation options;
              Verbose := Verbose options |}
      else options in
    let options2 :=
      if PopulationSize options1 <? NBatches options1
      then {| PopulationSize := PopulationSize options1;
              MaxGenerations := MaxGenerations options1;
              MutationChance := MutationChance options1;
              NBatches := PopulationSize options1;
              Speciation := Speciation options1;
              Verbose := Verbose options1 |}
      else options1 in
    Some {| population := members; options := options2; generationNo := 1 |}.

(** The scan of [pickRandomMember]: [Some member] when the loop returns
    from inside, [None] when it runs through. *)
Fixpoint scan (pop : list M) (randValue : float32) (w : W) : option M :=
  match pop with
  | [] => None
  | member :: rest =>
      let survivalChance := GetSurvivalChance member w in
      if f32_ltb randValue survivalChance then Some member
      else scan rest (f32_sub randValue survivalChance) w
  end.

Definition pickRandomMember (solver : Solver) (w : W) : option (M * W) :=
  let '(randValue, w1) := rand_Float32 w in
  match scan (population solver) randValue w1 with
  | Some member => Some (member, w1)
  | None =>
      member ← population solver
                 !! Z.to_nat (wrap32 (PopulationSize (options solver) - 1));
      Some (member, w1)
  end.

(** The comparison is made on [int]s, 64 bits wide. *)
Definition getBestMember (solver : Solver) (w : W) : option M :=
  MaxFunc (population solver)
    (fun a b => int64 (int64 (GetFitnessScore a w) - int64 (GetFitnessScore b w))).

(** [for i := b.Start; i < b.End; i++] *)
Definition indices (b : BatchInfo) : list Z := seqZ (Start b) (End b - Start b).

(** The phases of one generation. Each phase starts one goroutine per
    batch, and the source waits for the goroutines of the distance and of
    the fitness phase together. The functions of this module are the run
    in which every goroutine comes to its end before the next one starts,
    in the order in which the source starts them: one of the runs of the
    code, the one under the empty schedule of [ga_scheduled] below, which
    has the goroutines under any schedule ([ga_in_order.Solve_in_order]).
    What is proved of these functions is proved of that run. *)

Definition speciationPhase (solver : Solver) (batches : list BatchInfo) (w : W)
    : option W :=
  forEach batches (fun b =>
    forEach (indices b) (fun i w =>
      mi ← population solver !! Z.to_nat i;
      forEach (population solver) (fun mj w => Some (snd (Distance mi mj w))) w)) w.

(** The state is the world and [fitnessSum], a [uint32] that
    [atomic.AddUint32] updates with wrap-around. *)
Definition fitnessPhase (solver : Solver) (batches : list BatchInfo) (w : W)
    : option (W * Z) :=
  forEach batches (fun b =>
    forEach (indices b) (fun i '(w, fitnessSum) =>
      mi ← population solver !! Z.to_nat i;
      let w1 := ComputeAndSetFitnessScore mi w in
      Some (w1, wrap32 (fitnessSum + GetFitnessScore mi w1)))) (w, 0).

Definition survivalChance (solver : Solver) (fitnessSum fitnessScore : Z) : float32 :=
  if negb (fitnessSum =? 0)
  then f32_div (f32_of_Z fitnessScore) (f32_of_Z fitnessSum)
  else f32_div (f32_of_Z 1) (f32_of_Z (PopulationSize (options solver))).

Definition assignSurvivalChances (solver : Solver) (fitnessSum : Z) (w : W) : W :=
  fold_left (fun w mi =>
      let fitnessScore := GetFitnessScore mi w in
      SetSurvivalChance mi (survivalChance solver fitnessSum fitnessScore) w)
    (population solver) w.

(** The state is the world and [nextPopulation]. *)
Definition breedPhase (solver : Solver) (batches : list BatchInfo) (w : W)
    : option (W * list M) :=
  forEach batches (fun b =>
    forEach (indices b) (fun i '(w, nextPopulation) =>
      '(parent1, w1) ← pickRandomMember solver w;
      '(parent2, w2) ← pickRandomMember solver w1;
      let '(child, w3) := Crossover parent1 parent2 w2 in
      let '(r, w4) := rand_Float32 w3 in
      let w5 := if f32_ltb r (MutationChance (options solver))
                then Mutate child w4 else w4 in
      if decide (Z.to_nat i < length nextPopulation)%nat
      then Some (w5, <[Z.to_nat i := child]> nextPopulation)
      else None))
    (w, replicate (Z.to_nat (PopulationSize (options solver))) nil).

(** What [Solve] hands back here: the member it returns, together with
    the solver and the world as they are at that moment, and the number
    of times the body of the [for] loop was entered. *)
Record run := {
  best : M;
  final : Solver;
  world : W;
  iterations : Z
}.

(** One pass through the body of the [for] loop of [Solve]: either the
    function returns, or the loop goes round with a new solver state.
    The verbose output, which only prints, is left out. *)
Definition generation (solver : Solver) (batches : list BatchInfo) (w : W)
    : option (M * W + Solver * W) :=
  w1 ← (if Speciation (options solver)
        then speciationPhase solver batches w else Some w);
  '(w2, fitnessSum) ← fitnessPhase solver batches w1;
  if generationNo solver =? MaxGenerations (options solver)
  then bestMember ← getBestMember solver w2; Some (inl (bestMember, w2))
  else
    let w3 := assignSurvivalChances solver fitnessSum w2 in
    '(w4, nextPopulation) ← breedPhase solver batches w3;
    Some (inr ({| population := nextPopulation;
                  options := options solver;
                  generationNo := wrap32 (generationNo solver + 1) |}, w4)).

Fixpoint loop (fuel : nat) (solver : Solver) (batches : list BatchInfo) (w : W)
    (done : Z) : outcome run :=
  match fuel with
  | O => OutOfFuel
  | S fuel' =>
      match generation solver batches w with
      | None => Panicked
      | Some (inl (bestMember, w')) =>
          Returned {| best := bestMember; final := solver; world := w';
                      iterations := done + 1 |}
      | Some (inr (solver', w')) => loop fuel' solver' batches w' (done + 1)
      end
  end.

(** The generation counter reaches [MaxGenerations] after
    [wrap32 (MaxGenerations - generationNo) + 1] passes, which is the fuel
    given to the loop: [loop_returns] below shows that it is never used up
    and [loop_fuel] that more fuel changes nothing. *)
Definition Solve (solver : Solver) (w : W) : outcome run :=
  match BuildBatchesList (PopulationSize (options solver)) (NBatches (options solver)) with
  | None => Panicked
  | Some batches =>
      loop (Z.to_nat (wrap32 (MaxGenerations (options solver) - generationNo solver) + 1))
           solver batches w 0
  end.

(** "[best] is the member of maximal fitness in [pop], the first one in
    the order of [pop] when several are maximal". *)
Definition first_fittest (pop : list M) (w : W) (best : M) : Prop :=
  exists i : nat,
    pop !! i = Some best /\
    (forall j m, pop !! j = Some m -> GetFitnessScore m w <= GetFitnessScore best w) /\
    (forall j m, (j < i)%nat -> pop !! j = Some m ->
                 GetFitnessScore m w < GetFitnessScore best w).

(** What holds of a solver all along a run. *)
Definition ready (solver : Solver) : Prop :=
  let o := options solver in
  1 <= PopulationSize o < 2 ^ 32 /\ 1 <= NBatches o <= PopulationSize o /\
  0 <= MaxGenerations o < 2 ^ 32 /\ 0 <= generationNo solver < 2 ^ 32 /\
  PopulationSize o <= Z.of_nat (length (population solver)).

End Engine.

Section Totals.
Context {M W : Type} `{Member M W}.

(** The sum of the fitness scores of [pop] as they are in [w]. *)
Definition total_fitness (pop : list M) (w : W) : Z :=
  foldr Z.add 0 (map (fun m => GetFitnessScore m w) pop).

End Totals.

Arguments Solver M : clear implicits.
Arguments run M W : clear implicits.

End ga.

(** ** Goroutines

    A goroutine is the sequence of the steps it has left to take on the
    state it shares with the others. [Step act next] takes the step [act]
    ([None] is a panic, which ends the program) and goes on as [next s],
    [s] being the state that the step found. *)

Module goroutine.

Inductive task (S : Type) : Type :=
  | Done
  | Step (act : S -> option S) (next : S -> task S).
Arguments Done {S}.
Arguments Step {S} act next.

Definition panic {S : Type} : task S := Step (fun _ => None) (fun _ => Done).

(** The goroutine runs alone to its end. *)
Fixpoint finish {S : Type} (t : task S) (s : S) : option S :=
  match t with
  | Done => Some s
  | Step act next => s' ← act s; finish (next s) s'
  end.

(** The goroutines started before a [wg.Wait()], under a schedule: the
    list of the goroutines that take the next step, one entry per step. An
    entry that names no goroutine, or one that has returned, is passed
    over; when the list is used up, the goroutines that have not returned
    run to their end one after the other, in the order in which they were
    started. Every interleaving of the steps of the goroutines is the run
    under some schedule, and [wg.Wait()] returns when all have returned. *)
Fixpoint run {S : Type} (schedule : list nat) (goroutines : list (task S)) (s : S)
    : option S :=
  match schedule with
  | [] => forEach goroutines finish s
  | g :: schedule' =>
      match goroutines !! g with
      | Some (Step act next) =>
          s' ← act s; run schedule' (<[g := next s]> goroutines) s'
      | _ => run schedule' goroutines s
      end
  end.

(** What a sequence of steps is to several goroutines: the steps of each
    one, in its order, mixed with the steps of the others. *)
Inductive interleaving {A : Type} : list (list A) -> list A -> Prop :=
  | interleaving_end threads :
      Forall (fun thread => thread = []) threads -> interleaving threads []
  | interleaving_step threads g a rest l :
      threads !! g = Some (a :: rest) ->
      interleaving (<[g := rest]> threads) l ->
      interleaving threads (a :: l).

End goroutine.

(** ** Package ga, its goroutines under a schedule *)

Module ga_scheduled.
Import batching ga goroutine.

Section Engine.
Context {M W : Type} `{Member M W}.

(** *** The goroutines of [Solve]

    Each call of a method of a [Member] is one step: the methods are taken
    to be atomic, as they are when an implementation guards what its
    members share. The goroutines that compute the distances and those
    that compute the fitness share the world and [fitnessSum]; they are
    started one after the other and waited for together. *)

(** [for j := range solver.population {
       solver.population[i].Distance(solver.population[j]) }] *)
Fixpoint distanceRow (solver : Solver M) (i : Z) (others : list M)
    (rest : task (W * Z)) : task (W * Z) :=
  match others with
  | [] => rest
  | mj :: others' =>
      match population solver !! Z.to_nat i with
      | None => panic
      | Some mi =>
          Step (fun '(w, fitnessSum) => Some (snd (Distance mi mj w), fitnessSum))
               (fun _ => distanceRow solver i others' rest)
      end
  end.

Fixpoint distanceRoutine (solver : Solver M) (idx : list Z) : task (W * Z) :=
  match idx with
  | [] => Done
  | i :: idx' =>
      distanceRow solver i (population solver) (distanceRoutine solver idx')
  end.

(** [solver.population[i].ComputeAndSetFitnessScore()], then the score is
    read and, in a step of its own, added to [fitnessSum] by
    [atomic.AddUint32]. *)
Fixpoint fitnessRoutine (solver : Solver M) (idx : list Z) : task (W * Z) :=
  match idx with
  | [] => Done
  | i :: idx' =>
      match population solver !! Z.to_nat i with
      | None => panic
      | Some mi =>
          Step (fun '(w, fitnessSum) => Some (ComputeAndSetFitnessScore mi w, fitnessSum))
            (fun _ =>
          Step Some
            (fun s => let fitnessScore := GetFitnessScore mi (fst s) in
          Step (fun '(w, fitnessSum) => Some (w, wrap32 (fitnessSum + fitnessScore)))
            (fun _ => fitnessRoutine solver idx')))
      end
  end.

(** [pickRandomMember], going on as [found member] with the member it
    returns: one step for the draw, one for each survival chance read. *)
Fixpoint scan (solver : Solver M) (pop : list M) (randValue : float32)
    (found : M -> task (W * list M)) : task (W * list M) :=
  match pop with
  | [] =>
      match population solver
              !! Z.to_nat (wrap32 (PopulationSize (options solver) - 1)) with
      | Some member => found member
      | None => panic
      end
  | member :: rest =>
      Step Some
        (fun s =>
           let survivalChance := GetSurvivalChance member (fst s) in
           if f32_ltb randValue survivalChance then found member
           else scan solver rest (f32_sub randValue survivalChance) found)
  end.

Definition pickRandomMember (solver : Solver M) (found : M -> task (W * list M))
    : task (W * list M) :=
  Step (fun '(w, nextPopulation) => Some (snd (rand_Float32 w), nextPopulation))
       (fun s => scan solver (population solver) (fst (rand_Float32 (fst s))) found).

(** The goroutine of the breeding loop; the shared state is the world and
    [nextPopulation]. *)
Fixpoint breedRoutine (solver : Solver M) (idx : list Z) : task (W * list M) :=
  match idx with
  | [] => Done
  | i :: idx' =>
      pickRandomMember solver (fun parent1 =>
      pickRandomMember solver (fun parent2 =>
      Step (fun '(w, nextPopulation) =>
              Some (snd (Crossover parent1 parent2 w), nextPopulation))
        (fun s => let child := fst (Crossover parent1 parent2 (fst s)) in
      Step (fun '(w, nextPopulation) => Some (snd (rand_Float32 w), nextPopulation))
        (fun s => let r := fst (rand_Float32 (fst s)) in
           let store :=
             Step (fun '(w, nextPopulation) =>
                     if decide (Z.to_nat i < length nextPopulation)%nat
                     then Some (w, <[Z.to_nat i := child]> nextPopulation)
                     else None)
                  (fun _ => breedRoutine solver idx') in
           if f32_ltb r (MutationChance (options solver))
           then Step (fun '(w, nextPopulation) => Some (Mutate child w, nextPopulation))
                     (fun _ => store)
           else store))))
  end.

(** From the first [go] to [wg.Wait()]: the distance goroutines when
    speciation is on, then the fitness goroutines, one per batch. *)
Definition evaluationPhase (schedule : list nat) (solver : Solver M)
    (batches : list BatchInfo) (w : W) : option (W * Z) :=
  run schedule
    ((if Speciation (options solver)
      then map (fun b => distanceRoutine solver (indices b)) batches else [])
     ++ map (fun b => fitnessRoutine solver (indices b)) batches)
    (w, 0).

Definition breedPhase (schedule : list nat) (solver : Solver M)
    (batches : list BatchInfo) (w : W) : option (W * list M) :=
  run schedule (map (fun b => breedRoutine solver (indices b)) batches)
    (w, replicate (Z.to_nat (PopulationSize (options solver))) nil).

(** One pass through the body of the [for] loop of [Solve], under the
    schedules of its two [wg.Wait()]. The verbose output, which only
    prints, is left out. *)
Definition generation (schedules : list nat * list nat) (solver : Solver M)
    (batches : list BatchInfo) (w : W) : option (M * W + Solver M * W) :=
  '(w2, fitnessSum) ← evaluationPhase (fst schedules) solver batches w;
  if generationNo solver =? MaxGenerations (options solver)
  then bestMember ← getBestMember solver w2; Some (inl (bestMember, w2))
  else
    let w3 := assignSurvivalChances solver fitnessSum w2 in
    '(w4, nextPopulation) ← breedPhase (snd schedules) solver batches w3;
    Some (inr ({| population := nextPopulation;
                  options := options solver;
                  generationNo := wrap32 (generationNo solver + 1) |}, w4)).

(** [schedules done] are the schedules of the pass that follows [done]
    passes. *)
Fixpoint loop (fuel : nat) (schedules : Z -> list nat * list nat) (solver : Solver M)
    (batches : list BatchInfo) (w : W) (done : Z) : outcome (ga.run M W) :=
  match fuel with
  | O => OutOfFuel
  | S fuel' =>
      match generation (schedules done) solver batches w with
      | None => Panicked
      | Some (inl (bestMember, w')) =>
          Returned {| best := bestMember; final := solver; world := w';
                      iterations := done + 1 |}
      | Some (inr (solver', w')) => loop fuel' schedules solver' batches w' (done + 1)
      end
  end.

Definition Solve (schedules : Z -> list nat * list nat) (solver : Solver M) (w : W)
    : outcome (ga.run M W) :=
  match BuildBatchesList (PopulationSize (options solver)) (NBatches (options solver)) with
  | None => Panicked
  | Some batches =>
      loop (Z.to_nat (wrap32 (MaxGenerations (options solver) - generationNo solver) + 1))
           schedules solver batches w 0
  end.

(** *** What the theorems say of a run *)

(** The calls that change the world between the start of a pass and its
    first [wg.Wait()]. *)
Inductive call :=
  | CallDistance (m other : M)
  | CallComputeAndSetFitnessScore (m : M).

Definition perform (c : call) (w : W) : W :=
  match c with
  | CallDistance m other => snd (Distance m other w)
  | CallComputeAndSetFitnessScore m => ComputeAndSetFitnessScore m w
  end.

Definition replay (calls : list call) (w : W) : W :=
  fold_left (fun w c => perform c w) calls w.

(** The calls of the goroutine of batch [b], in its order: the distance of
    each of its members to every member, and the fitness of each of its
    members. *)
Definition distance_calls (pop : list M) (b : BatchInfo) : list call :=
  flat_map (fun i => match pop !! Z.to_nat i with
                     | Some mi => map (CallDistance mi) pop
                     | None => []
                     end) (indices b).

Definition fitness_calls (pop : list M) (b : BatchInfo) : list call :=
  flat_map (fun i => match pop !! Z.to_nat i with
                     | Some mi => [CallComputeAndSetFitnessScore mi]
                     | None => []
                     end) (indices b).

Definition evaluation_calls (solver : Solver M) (batches : list BatchInfo)
    : list (list call) :=
  (if Speciation (options solver)
   then map (distance_calls (population solver)) batches else [])
  ++ map (fitness_calls (population solver)) batches.

(** [child] is what [Crossover] returned for two members of [pop]. *)
Definition child_of (pop : list M) (child : M) : Prop :=
  exists parent1 parent2 w,
    parent1 ∈ pop /\ parent2 ∈ pop /\ child = fst (Crossover parent1 parent2 w).

(** [pop] is generation [g] of a run that started with [members] as
    generation 1: each generation has [size] members, each of them a
    child of two members of the generation before. *)
Inductive generations (members : list M) (size : Z) : Z -> list M -> Prop :=
  | generations_first : generations members size 1 members
  | generations_next g pop pop' :
      generations members size g pop ->
      Z.of_nat (length pop') = size -> Forall (child_of pop) pop' ->
      generations members size (g + 1) pop'.

(** A goroutine that makes the calls [calls], in this order, and takes no
    other step that changes the world or panics. *)
Inductive makes : list call -> task (W * Z) -> Prop :=
  | makes_Done : makes [] Done
  | makes_quiet calls act next :
      (forall s, exists s', act s = Some s' /\ fst s' = fst s) ->
      (forall s, makes calls (next s)) ->
      makes calls (Step act next)
  | makes_call c calls act next :
      (forall s, exists s', act s = Some s' /\ fst s' = perform c (fst s)) ->
      (forall s, makes calls (next s)) ->
      makes (c :: calls) (Step act next).

(** A goroutine that stores a child of [pop] at each index of [idx], in
    this order, and leaves [nextPopulation] alone otherwise. *)
Inductive fills (pop : list M) : list Z -> task (W * list M) -> Prop :=
  | fills_Done : fills pop [] Done
  | fills_quiet idx act next :
      (forall s, exists s', act s = Some s' /\ snd s' = snd s) ->
      (forall s, fills pop idx (next s)) ->
      fills pop idx (Step act next)
  | fills_slot i idx act next :
      (forall s, (Z.to_nat i < length (snd s))%nat ->
         exists s' child, act s = Some s' /\
           snd s' = <[Z.to_nat i := child]> (snd s) /\ child_of pop child) ->
      (forall s, fills pop idx (next s)) ->
      fills pop (i :: idx) (Step act next).

(** Where a goroutine of the first [wg.Wait()] stands. A distance
    goroutine is [Measuring]. A fitness goroutine is [Scoring]: [counted]
    are the members whose score it has added to [fitnessSum], [current] is
    the member whose fitness it has computed, with the score once it has
    read it, [waiting] are the members it has not come to. *)
Inductive standing :=
  | Measuring
  | Scoring (counted : list M) (current : option (M * option Z)) (waiting : list M).

Definition counted_by (g : standing) : list M :=
  match g with
  | Measuring => []
  | Scoring counted _ _ => counted
  end.

Definition members_of (g : standing) : list M :=
  match g with
  | Measuring => []
  | Scoring counted current waiting =>
      counted ++ match current with Some (m, _) => [m] | None => [] end ++ waiting
  end.

Definition computed_by (g : standing) : list M :=
  match g with
  | Measuring => []
  | Scoring counted current _ =>
      counted ++ match current with Some (m, _) => [m] | None => [] end
  end.

Inductive stands : standing -> task (W * Z) -> Prop :=
  | stands_measured : stands Measuring Done
  | stands_measuring act next :
      (forall s, exists mi mj, act s = Some (snd (Distance mi mj (fst s)), snd s)) ->
      (forall s, stands Measuring (next s)) ->
      stands Measuring (Step act next)
  | stands_scored counted : stands (Scoring counted None []) Done
  | stands_compute counted m waiting act next :
      (forall s, act s = Some (ComputeAndSetFitnessScore m (fst s), snd s)) ->
      (forall s, stands (Scoring counted (Some (m, None)) waiting) (next s)) ->
      stands (Scoring counted None (m :: waiting)) (Step act next)
  | stands_read counted m waiting act next :
      (forall s, act s = Some s) ->
      (forall s, stands (Scoring counted (Some (m, Some (GetFitnessScore m (fst s))))
                           waiting) (next s)) ->
      stands (Scoring counted (Some (m, None)) waiting) (Step act next)
  | stands_add counted m v waiting act next :
      (forall s, act s = Some (fst s, wrap32 (snd s + v))) ->
      (forall s, stands (Scoring (counted ++ [m]) None waiting) (next s)) ->
      stands (Scoring counted (Some (m, Some v)) waiting) (Step act next).

(** The members of the batch [b]. *)
Definition batch_members (pop : list M) (b : BatchInfo) : list M :=
  flat_map (fun i => option_list (pop !! Z.to_nat i)) (indices b).

End Engine.

End ga_scheduled.

(** ** Package neat *)

(** [slices.SortFunc] of the Go library, as the insertion sort that it
    runs on a slice of at most 12 elements: each element in turn moves
    left past the elements it is strictly smaller than. [rp] is the sorted
    prefix, last element first. On a longer slice the library runs
    pattern-defeating quicksort, which is not stable: the result is again
    a permutation ordered by [cmp], but elements that [cmp] does not
    separate may come in another order than here. Below, what depends on
    the place of such elements is stated of slices of at most 12 elements
    ([neat.settled]); the other statements hold of every sort that returns
    an ordered permutation. *)
Fixpoint insert_back {E : Type} (cmp : E -> E -> Z) (x : E) (rp : list E) : list E :=
  match rp with
  | [] => [x]
  | y :: rp' => if cmp x y <? 0 then y :: insert_back cmp x rp' else x :: rp
  end.

Definition SortFunc {E : Type} (cmp : E -> E -> Z) (x : list E) : list E :=
  rev (fold_left (fun rp xi => insert_back cmp xi rp) x []).

(** [rand.IntN(n)]: panics unless [0 < n]; otherwise any value of [[0, n)],
    here the one that the raw draw [raw] selects. *)
Definition rand_IntN (raw n : Z) : option Z :=
  if n <=? 0 then None else Some (raw mod n).

(** [copy(dst, src)] on slices: the first [min (len dst) (len src)] elements
    of [dst] are overwritten, the length of [dst] stays. *)
Definition copy {E : Type} (dst src : list E) : list E :=
  take (length dst) src ++ drop (length src) dst.

Module neat.

Inductive ActivationFunction :=
  | IdentityActivation
  | TanhActivation
  | SigmoidActivation.

Record node := { id : Z; layer : Z; activation : ActivationFunction }.

Record connectionNodes := { senderId : Z; receiverId : Z }.

Record connection := {
  endpoints : connectionNodes;
  weight : float64;
  enabled : bool;
  innovationNo : Z
}.

(** The constants of [mutationType]. *)
Module kind.
Definition addNode : Z := 0.
Definition addConn : Z := 1.
End kind.

Record mutation := { typeId : Z; conn : connection }.

Record DataEntry := { input : list float64; output : list float64 }.
Definition DataSet := list DataEntry.

Record Network := {
  MemberData : ga.MemberData;
  nodes : list node;
  connections : list connection;
  nInputs : Z;
  nOutputs : Z;
  nSimilar : Z;
  sorted : bool
}.

Definition maxDepth : Z := 20.

#[global] Instance connectionNodes_eq_dec : EqDecision connectionNodes.
Proof. solve_decision. Defined.

#[global] Instance connectionNodes_countable : Countable connectionNodes.
Proof.
  apply (inj_countable' (fun cn => (senderId cn, receiverId cn))
                        (fun p => {| senderId := fst p; receiverId := snd p |})).
  intros []; reflexivity.
Defined.

(** Field updates of a [Network]. *)
Definition with_MemberData (d : ga.MemberData) (n : Network) : Network :=
  {| MemberData := d; nodes := nodes n; connections := connections n;
     nInputs := nInputs n; nOutputs := nOutputs n; nSimilar := nSimilar n;
     sorted := sorted n |}.
Definition with_nodes (ns : list node) (n : Network) : Network :=
  {| MemberData := MemberData n; nodes := ns; connections := connections n;
     nInputs := nInputs n; nOutputs := nOutputs n; nSimilar := nSimilar n;
     sorted := sorted n |}.
Definition with_connections (cs : list connection) (n : Network) : Network :=
  {| MemberData := MemberData n; nodes := nodes n; connections := cs;
     nInputs := nInputs n; nOutputs := nOutputs n; nSimilar := nSimilar n;
     sorted := sorted n |}.
Definition with_nSimilar (k : Z) (n : Network) : Network :=
  {| MemberData := MemberData n; nodes := nodes n; connections := connections n;
     nInputs := nInputs n; nOutputs := nOutputs n; nSimilar := k;
     sorted := sorted n |}.
Definition with_sorted (b : bool) (n : Network) : Network :=
  {| MemberData := MemberData n; nodes := nodes n; connections := connections n;
     nInputs := nInputs n; nOutputs := nOutputs n; nSimilar := nSimilar n;
     sorted := b |}.
Definition with_weight (w : float64) (c : connection) : connection :=
  {| endpoints := endpoints c; weight := w; enabled := enabled c;
     innovationNo := innovationNo c |}.

(** The package-level variables and the heap of networks. A Go map that
    was declared and never made is the [nil] map, here [None]: reading it
    finds nothing, writing to it panics. [mutationHistory] is declared
    without an initial value. *)
Record state := {
  heap : gmap nat Network;
  innovationNoTracker : Z;
  mutationHistory : option (gmap connectionNodes mutation);
  testSet : DataSet
}.

Definition with_heap (h : gmap nat Network) (st : state) : state :=
  {| heap := h; innovationNoTracker := innovationNoTracker st;
     mutationHistory := mutationHistory st; testSet := testSet st |}.
Definition with_innovationNoTracker (t : Z) (st : state) : state :=
  {| heap := heap st; innovationNoTracker := t;
     mutationHistory := mutationHistory st; testSet := testSet st |}.
Definition with_mutationHistory (h : option (gmap connectionNodes mutation))
    (st : state) : state :=
  {| heap := heap st; innovationNoTracker := innovationNoTracker st;
     mutationHistory := h; testSet := testSet st |}.

(** Dereference of a [*Network]; a pointer to nothing panics. *)
Definition load (net : nat) (st : state) : option Network := heap st !! net.
Definition store (net : nat) (n : Network) (st : state) : state :=
  with_heap (<[net := n]> (heap st)) st.

(** [mutationHistory[key]] with its presence flag, [mutationHistory[key] = m]
    and [len(mutationHistory)]. *)
Definition history_lookup (key : connectionNodes) (st : state) : option mutation :=
  match mutationHistory st with
  | None => None
  | Some h => h !! key
  end.
Definition history_store (key : connectionNodes) (m : mutation) (st : state)
    : option state :=
  match mutationHistory st with
  | None => None
  | Some h => Some (with_mutationHistory (Some (<[key := m]> h)) st)
  end.
Definition history_len (st : state) : Z :=
  match mutationHistory st with
  | None => 0
  | Some h => Z.of_nat (size h)
  end.

Definition getNewInnovationNumber (st : state) : Z * state :=
  let t := wrap64 (innovationNoTracker st + 1) in
  (wrap64 (t - 1), with_innovationNoTracker t st).

(** [r] is the value that [rand.Float64()] returned. *)
Definition randomWeight (r : float64) : float64 :=
  f64_sub (f64_mul r (f64_of_Z 2)) (f64_of_Z 1).

(** Deleting every key leaves an empty map, not the [nil] map. *)
Definition clearMutationHistory (st : state) : state :=
  match mutationHistory st with
  | None => st
  | Some _ => with_mutationHistory (Some ∅) st
  end.

(** The struct that [NewNetwork] builds, before it is given an address. *)
Definition newNetwork (nInputs nOutputs : Z) : Network :=
  {| MemberData := {| ga.FitnessScore := 0; ga.SurvivalChance := f32_of_Z 0 |};
     nodes :=
       map (fun i => {| id := i; layer := 0; activation := IdentityActivation |})
           (seqZ 0 nInputs) ++
       map (fun i => {| id := wrap32 (i + nInputs); layer := maxDepth;
                        activation := SigmoidActivation |})
           (seqZ 0 nOutputs);
     connections := [];
     nInputs := nInputs;
     nOutputs := nOutputs;
     nSimilar := 0;
     sorted := false |}.

Definition NewNetwork (nInputs nOutputs : Z) (st : state) : nat * state :=
  let net := fresh (dom (heap st)) in
  (net, store net (newNetwork nInputs nOutputs) st).

(** [senderRaw], [receiverRaw] select the results of the two [rand.IntN];
    [r] is the draw of [randomWeight]. *)
Definition addConnection (net : nat) (senderRaw receiverRaw : Z) (r : float64)
    (st : state) : option state :=
  n ← load net st;
  senderNodeId ← rand_IntN senderRaw (Z.of_nat (length (nodes n)));
  receiverNodeId ← rand_IntN receiverRaw (Z.of_nat (length (nodes n)));
  let newEndpoints := {| senderId := wrap32 senderNodeId;
                         receiverId := wrap32 receiverNodeId |} in
  if senderNodeId =? receiverNodeId then Some st
  else
    senderNode ← nodes n !! Z.to_nat senderNodeId;
    receiverNode ← nodes n !! Z.to_nat receiverNodeId;
    if layer receiverNode <=? layer senderNode then Some st
    else if existsb (fun c => bool_decide (endpoints c = newEndpoints)) (connections n)
    then Some st
    else
      match history_lookup newEndpoints st with
      | Some mut =>
          if typeId mut =? kind.addConn
          then Some (store net (with_connections (connections n ++ [conn mut]) n) st)
          else
            let '(innovation, st1) := getNewInnovationNumber st in
            let newConnection :=
              {| endpoints := newEndpoints; weight := randomWeight r;
                 enabled := true; innovationNo := innovation |} in
            history_store newEndpoints
              {| typeId := kind.addConn; conn := newConnection |}
              (store net (with_connections (connections n ++ [newConnection]) n) st1)
      | None =>
          let '(innovation, st1) := getNewInnovationNumber st in
          let newConnection :=
            {| endpoints := newEndpoints; weight := randomWeight r;
               enabled := true; innovationNo := innovation |} in
          history_store newEndpoints
            {| typeId := kind.addConn; conn := newConnection |}
            (store net (with_connections (connections n ++ [newConnection]) n) st1)
      end.

(** The two connections that [addNode] creates when the history has no
    pair to copy: two numbers are taken, the connections are appended and
    both are recorded. *)
Definition addNode_fresh (net : nat) (n : Network)
    (newEndpoints1 newEndpoints2 : connectionNodes) (r1 r2 : float64)
    (st : state) : option state :=
  let '(innovation1, st1) := getNewInnovationNumber st in
  let newConnection1 :=
    {| endpoints := newEndpoints1; weight := randomWeight r1;
       enabled := true; innovationNo := innovation1 |} in
  let '(innovation2, st2) := getNewInnovationNumber st1 in
  let newConnection2 :=
    {| endpoints := newEndpoints2; weight := randomWeight r2;
       enabled := true; innovationNo := innovation2 |} in
  st3 ← history_store newEndpoints1
          {| typeId := kind.addNode; conn := newConnection1 |}
          (store net (with_connections
                        (connections n ++ [newConnection1; newConnection2]) n) st2);
  history_store newEndpoints2 {| typeId := kind.addNode; conn := newConnection2 |} st3.

(** [connRaw] selects the result of [rand.IntN]; [r1], [r2] are the draws
    of the two [randomWeight]. *)
Definition addNode (net : nat) (connRaw : Z) (r1 r2 : float64) (st : state)
    : option state :=
  n ← load net st;
  connIndex ← rand_IntN connRaw (Z.of_nat (length (connections n)));
  connRef ← connections n !! Z.to_nat connIndex;
  if negb (enabled connRef) then Some st
  else
    senderNode ← nodes n !! Z.to_nat (senderId (endpoints connRef));
    let newLayer := wrap32 (layer senderNode + 1) in
    if maxDepth <=? newLayer then Some st
    else
      let newNode := {| id := wrap32 (Z.of_nat (length (nodes n)));
                        layer := newLayer; activation := TanhActivation |} in
      let newEndpoints1 := {| senderId := senderId (endpoints connRef);
                              receiverId := id newNode |} in
      let newEndpoints2 := {| senderId := id newNode;
                              receiverId := receiverId (endpoints connRef) |} in
      let n1 := with_nodes (nodes n ++ [newNode]) n in
      match history_lookup newEndpoints1 st, history_lookup newEndpoints2 st with
      | Some mut1, Some mut2 =>
          if (typeId mut1 =? kind.addNode) && (typeId mut2 =? kind.addNode)
          then Some (store net (with_connections
                                  (connections n1 ++ [conn mut1; conn mut2]) n1) st)
          else addNode_fresh net n1 newEndpoints1 newEndpoints2 r1 r2 st
      | _, _ => addNode_fresh net n1 newEndpoints1 newEndpoints2 r1 r2 st
      end.

(** [mutationChance] is the constant 0.10, compared in [float32]. [chance i]
    is the [rand.Float32()] drawn for connection [i], [r i] the draw of its
    [randomWeight]. *)
Definition mutateWeights (net : nat) (chance : nat -> float32) (r : nat -> float64)
    (st : state) : option state :=
  n ← load net st;
  let mutationChance := f32_div (f32_of_Z 1) (f32_of_Z 10) in
  Some (store net
          (with_connections
             (imap (fun i c => if f32_ltb (chance i) mutationChance
                               then with_weight (randomWeight (r i)) c else c)
                   (connections n)) n) st).

Definition GetFitnessScore (net : nat) (st : state) : option Z :=
  n ← load net st; Some (ga.FitnessScore (MemberData n)).

Definition GetSurvivalChance (net : nat) (st : state) : option float32 :=
  n ← load net st; Some (ga.SurvivalChance (MemberData n)).

Definition SetSurvivalChance (net : nat) (chance : float32) (st : state)
    : option state :=
  n ← load net st;
  Some (store net
          (with_MemberData {| ga.FitnessScore := ga.FitnessScore (MemberData n);
                              ga.SurvivalChance := chance |} n) st).

(** The comparison function given to [slices.SortFunc]. *)
Definition byInnovation (a b : connection) : Z :=
  int64 (int64 (innovationNo a) - int64 (innovationNo b)).

(** [if !net.sorted { slices.SortFunc(net.connections, ...); net.sorted = true }] *)
Definition sortOnce (net : nat) (st : state) : option state :=
  n ← load net st;
  if sorted n then Some st
  else Some (store net
               (with_sorted true
                  (with_connections (SortFunc byInnovation (connections n)) n)) st).

(** The counters of the comparison loop of [Distance]. *)
Record tally := { M : Z; E : Z; D : Z; weightsDiff : float64 }.

Definition compareAt (a b : list connection) (t : tally) (i : nat) : tally :=
  match a !! i, b !! i with
  | Some ca, Some cb =>
      if innovationNo ca =? innovationNo cb
      then {| M := wrap32 (M t + 1); E := E t; D := D t;
              weightsDiff := f64_add (weightsDiff t)
                               (f64_abs (f64_sub (weight ca) (weight cb))) |}
      else {| M := M t; E := E t; D := wrap32 (D t + 1);
              weightsDiff := weightsDiff t |}
  | _, _ => {| M := M t; E := wrap32 (E t + 1); D := D t;
               weightsDiff := weightsDiff t |}
  end.

(** The constants are [c1 = 1.0], [c2 = 1.0], [c3 = 0.4] and the threshold
    0.3. The three terms are rounded one by one (no fused multiply-add). *)
Definition Distance (net other : nat) (st : state) : option (float64 * state) :=
  n ← load net st;
  o ← load other st;
  let c1 := f64_of_Z 1 in
  let c2 := f64_of_Z 1 in
  let c3 := f64_const 4 10 in
  let N0 := Z.max (Z.of_nat (length (connections n)))
                  (Z.of_nat (length (connections o))) in
  let N := if N0 <? 20 then 1 else N0 in
  st1 ← sortOnce net st;
  st2 ← sortOnce other st1;
  n2 ← load net st2;
  o2 ← load other st2;
  let t := fold_left (compareAt (connections n2) (connections o2))
             (seq 0 (Z.to_nat N))
             {| M := 0; E := 0; D := 0; weightsDiff := f64_of_Z 0 |} in
  let W := if 0 <? M t then f64_div (weightsDiff t) (f64_of_Z (M t))
           else f64_of_Z 0 in
  let distance :=
    f64_add (f64_add (f64_div (f64_mul c1 (f64_of_Z (E t))) (f64_of_Z N))
                     (f64_div (f64_mul c2 (f64_of_Z (D t))) (f64_of_Z N)))
            (f64_mul c3 W) in
  let threshold := f64_const 3 10 in
  if f64_ltb distance threshold
  then Some (distance, store net (with_nSimilar (wrap32 (nSimilar n2 + 1)) n2) st2)
  else Some (distance, st2).

(** The loop of [Crossover] over the positions [idx]; [coin i] is the
    [rand.Float32()] drawn at position [i], compared with 0.5. Running out
    of the dominant parent's connections [a] leaves the loop. *)
Fixpoint inherit (idx : list nat) (a b : list connection) (coin : nat -> float32)
    (child : list connection) : list connection :=
  match idx with
  | [] => child
  | i :: rest =>
      match a !! i with
      | None => child
      | Some ca =>
          match b !! i with
          | None => inherit rest a b coin (child ++ [ca])
          | Some cb =>
              if f32_ltb (coin i) (f32_div (f32_of_Z 1) (f32_of_Z 2))
              then inherit rest a b coin (child ++ [ca])
              else inherit rest a b coin (child ++ [cb])
          end
      end
  end.

Definition Crossover (net other : nat) (coin : nat -> float32) (st : state)
    : option (nat * state) :=
  o ← load other st;
  n ← load net st;
  let '(child, st0) := NewNetwork (nInputs n) (nOutputs n) st in
  let N := Z.max (Z.of_nat (length (connections n)))
                 (Z.of_nat (length (connections o))) in
  st1 ← sortOnce net st0;
  st2 ← sortOnce other st1;
  n2 ← load net st2;
  o2 ← load other st2;
  c ← load child st2;
  let inherited := inherit (seq 0 (Z.to_nat N)) (connections n2) (connections o2)
                           coin (connections c) in
  Some (child, store child
                 (with_nodes (copy (nodes c) (nodes n2))
                    (with_connections inherited c)) st2).

(** All the draws a call of [Mutate] may need. *)
Record draws := {
  mutationType : float32;
  intn1 : Z;
  intn2 : Z;
  float1 : float64;
  float2 : float64;
  chances : nat -> float32;
  floats : nat -> float64
}.

Definition Mutate (net : nat) (d : draws) (st : state) : option state :=
  let addConnectionChance := f32_div (f32_of_Z 3) (f32_of_Z 10) in
  let addNodeChance := f32_div (f32_of_Z 35) (f32_of_Z 100) in
  if f32_ltb (mutationType d) addConnectionChance
  then addConnection net (intn1 d) (intn2 d) (float1 d) st
  else if f32_ltb (mutationType d) addNodeChance
  then addNode net (intn1 d) (float1 d) (float2 d) st
  else mutateWeights net (chances d) (floats d) st.

(** The functions of Go's [math] package that the evaluation of a network
    calls, and the conversion of a [float64] to [uint32], whose result Go
    leaves to the implementation when the value does not fit. *)
Section Evaluation.
Variable math_Tanh : float64 -> float64.
Variable math_Exp : float64 -> float64.
Variable math_Pow : float64 -> float64 -> float64.
Variable uint32_of_float64 : float64 -> Z.

Definition Compute (a : ActivationFunction) (input : float64) : float64 :=
  match a with
  | IdentityActivation => input
  | TanhActivation => math_Tanh input
  | SigmoidActivation =>
      f64_div (f64_of_Z 1) (f64_add (f64_of_Z 1) (math_Exp (SFopp input)))
  end.

(** [connectionsByLayer]: one slice of connections per layer below
    [maxDepth], filled in the order of [net.connections]. *)
Definition groupByLayer (n : Network) : option (list (list connection)) :=
  forEach (connections n) (fun connRef byLayer =>
      senderNode ← nodes n !! Z.to_nat (senderId (endpoints connRef));
      let connLayer := Z.to_nat (layer senderNode) in
      group ← byLayer !! connLayer;
      Some (<[connLayer := group ++ [connRef]]> byLayer))
    (replicate (Z.to_nat maxDepth) []).

Definition feedConnection (n : Network) (c : connection)
    (accumulators : list float64) : option (list float64) :=
  if negb (enabled c) then Some accumulators
  else
    inNodeRef ← nodes n !! Z.to_nat (senderId (endpoints c));
    inNodeAccumulator ← accumulators !! Z.to_nat (senderId (endpoints c));
    let connInput := Compute (activation inNodeRef) inNodeAccumulator in
    let connOutput := f64_mul connInput (weight c) in
    old ← accumulators !! Z.to_nat (receiverId (endpoints c));
    Some (<[Z.to_nat (receiverId (endpoints c)) := f64_add old connOutput]>
            accumulators).

Definition Feed (n : Network) (input : list float64) : option (list float64) :=
  let zeros := replicate (length (nodes n)) (f64_of_Z 0) in
  if decide (Z.to_nat (nInputs n) <= length zeros)%nat then
    let accumulators :=
      copy (take (Z.to_nat (nInputs n)) zeros) input
        ++ drop (Z.to_nat (nInputs n)) zeros in
    connectionsByLayer ← groupByLayer n;
    accumulators ← forEach connectionsByLayer
                     (fun group acc => forEach group (feedConnection n) acc)
                     accumulators;
    forEach (seqZ (nInputs n) (wrap32 (nInputs n + nOutputs n) - nInputs n))
      (fun i output =>
         nodeRef ← nodes n !! Z.to_nat i;
         a ← accumulators !! Z.to_nat i;
         Some (output ++ [Compute (activation nodeRef) a]))
      []
  else None.

(** The sum that [ComputeAndSetFitnessScore] accumulates over the test
    set, before the adjustment. *)
Definition rawFitness (n : Network) (entries : DataSet) : option float64 :=
  forEach entries (fun entry fitness =>
      if negb (Z.of_nat (length (input entry)) =? nInputs n)
         || negb (Z.of_nat (length (output entry)) =? nOutputs n)
      then None
      else
        result ← Feed n (input entry);
        err ← forEach (seqZ 0 (nOutputs n)) (fun i err =>
                  ri ← result !! Z.to_nat i;
                  oi ← output entry !! Z.to_nat i;
                  Some (f64_add err (f64_abs (f64_sub ri oi))))
                (f64_of_Z 0);
        Some (f64_add fitness
                (math_Pow (f64_sub (f64_of_Z (nOutputs n)) err) (f64_of_Z 2))))
    (f64_of_Z 0).

(** The quotient whose conversion becomes the fitness score: [K * fitness]
    divided by the number of similar networks, [K = 10000]. *)
Definition adjustedFitness (fitness : float64) (nSimilar : Z) : float64 :=
  f64_div (f64_mul (f64_of_Z 10000) fitness) (f64_of_Z nSimilar).

Definition ComputeAndSetFitnessScore (net : nat) (st : state) : option state :=
  n ← load net st;
  let st1 := if 0 <? history_len st then clearMutationHistory st else st in
  fitness ← rawFitness n (testSet st1);
  Some (store net
          (with_MemberData
             {| ga.FitnessScore :=
                  uint32_of_float64 (adjustedFitness fitness (nSimilar n));
                ga.SurvivalChance := ga.SurvivalChance (MemberData n) |} n) st1).

(** The operations of the package on its state, with their draws. *)
Inductive operation :=
  | DoGetNewInnovationNumber
  | DoClearMutationHistory
  | DoNewNetwork (nInputs nOutputs : Z)
  | DoAddConnection (net : nat) (senderRaw receiverRaw : Z) (r : float64)
  | DoAddNode (net : nat) (connRaw : Z) (r1 r2 : float64)
  | DoMutateWeights (net : nat) (chance : nat -> float32) (r : nat -> float64)
  | DoMutate (net : nat) (d : draws)
  | DoSetSurvivalChance (net : nat) (chance : float32)
  | DoDistance (net other : nat)
  | DoComputeAndSetFitnessScore (net : nat)
  | DoCrossover (net other : nat) (coin : nat -> float32).

Definition perform (op : operation) (st : state) : option state :=
  match op with
  | DoGetNewInnovationNumber => Some (snd (getNewInnovationNumber st))
  | DoClearMutationHistory => Some (clearMutationHistory st)
  | DoNewNetwork nInputs nOutputs => Some (snd (NewNetwork nInputs nOutputs st))
  | DoAddConnection net senderRaw receiverRaw r =>
      addConnection net senderRaw receiverRaw r st
  | DoAddNode net connRaw r1 r2 => addNode net connRaw r1 r2 st
  | DoMutateWeights net chance r => mutateWeights net chance r st
  | DoMutate net d => Mutate net d st
  | DoSetSurvivalChance net chance => SetSurvivalChance net chance st
  | DoDistance net other => snd <$> Distance net other st
  | DoComputeAndSetFitnessScore net =>
      ComputeAndSetFitnessScore net st
  | DoCrossover net other coin => snd <$> Crossover net other coin st
  end.

End Evaluation.

Record SolverOptions := {
  PopulationSize : Z;
  MaxGenerations : Z;
  MutationChance : float32;
  NBatches : Z;
  Verbose : bool
}.

Record Solver := {
  options : SolverOptions;
  gaSolver : ga.Solver nat
}.

(** The first generation of [NewSolver]: [PopulationSize] new networks. *)
Fixpoint firstGeneration (k : nat) (nInputs nOutputs : Z) (members : list nat)
    (st : state) : list nat * state :=
  match k with
  | O => (members, st)
  | S k' =>
      let '(net, st1) := NewNetwork nInputs nOutputs st in
      firstGeneration k' nInputs nOutputs (members ++ [net]) st1
  end.

Definition NewSolver (nInputs nOutputs : Z) (options : SolverOptions) (st : state)
    : option (Solver * state) :=
  let '(members, st1) :=
    firstGeneration (Z.to_nat (PopulationSize options)) nInputs nOutputs [] st in
  let params :=
    {| ga.PopulationSize := PopulationSize options;
       ga.MaxGenerations := MaxGenerations options;
       ga.MutationChance := MutationChance options;
       ga.NBatches := NBatches options;
       ga.Speciation := true;
       ga.Verbose := Verbose options |} in
  gaSolver ← ga.NewSolver members params;
  Some ({| options := options; gaSolver := gaSolver |}, st1).

(** *** What the theorems say of networks and of the registry *)

(** What [sortOnce] leaves at the address of a network. *)
Definition normalised (n : Network) : Network :=
  if sorted n then n
  else with_sorted true (with_connections (SortFunc byInnovation (connections n)) n).

(** The child that [Crossover] builds from the two parents as they are
    after sorting. *)
Definition offspring (n o : Network) (coin : nat -> float32) : Network :=
  let c := newNetwork (nInputs n) (nOutputs n) in
  let N := Z.max (Z.of_nat (length (connections n)))
                 (Z.of_nat (length (connections o))) in
  with_nodes (copy (nodes c) (nodes n))
    (with_connections
       (inherit (seq 0 (Z.to_nat N)) (connections (normalised n))
                (connections (normalised o)) coin (connections c)) c).

(** The connection that [addConnection] and [addNode] make with a number
    of their own. *)
Definition made (key : connectionNodes) (r : float64) (innovation : Z) : connection :=
  {| endpoints := key; weight := randomWeight r; enabled := true;
     innovationNo := innovation |}.

(** The history records every connection under its own endpoints. *)
Definition history_sound (st : state) : Prop :=
  forall key mut, history_lookup key st = Some mut -> endpoints (conn mut) = key.

(** [net] has the connections it had in [st], followed by [cs]. *)
Definition appended (net : nat) (st st' : state) (cs : list connection) : Prop :=
  exists n n', load net st = Some n /\ load net st' = Some n' /\
               connections n' = connections n ++ cs.

(** What a mutation leaves in the registry for the next genome: the
    connections it appended are recorded under their endpoints with the
    kind of the mutation, and the history is still sound. *)
Definition recorded (k : Z) (c : connection) (st : state) : Prop :=
  exists mut, history_lookup (endpoints c) st = Some mut /\
              typeId mut = k /\ conn mut = c.

(** The connection [c] of [n] goes from a node to a node of a strictly
    higher layer, the layers being read as the code reads them, in [nodes]
    at the position of the node identifier. *)
Definition forward (n : Network) (c : connection) : Prop :=
  exists senderNode receiverNode,
    nodes n !! Z.to_nat (senderId (endpoints c)) = Some senderNode /\
    nodes n !! Z.to_nat (receiverId (endpoints c)) = Some receiverNode /\
    layer senderNode < layer receiverNode.

(** *** Layers *)

Definition feedForward (n : Network) : Prop := Forall (forward n) (connections n).

(** A quotient by zero is not a number or is infinite. *)
Definition nonfinite (f : float64) : Prop :=
  f = S754_nan \/ exists sign, f = S754_infinity sign.

(** A network without connections that no distance has counted as similar
    to another. *)
Definition blank (n : Network) : Prop := connections n = [] /\ nSimilar n = 0.

Definition all_blank (pop : list nat) (st : state) : Prop :=
  forall net, net ∈ pop -> exists n, load net st = Some n /\ blank n.


(** *** What the further theorems say *)

(** Node [i] of the node list has the identifier [i], a [uint32]. *)
Definition indexed (n : Network) : Prop :=
  forall i node, nodes n !! i = Some node -> id node = wrap32 (Z.of_nat i).

(** Every layer is one of [0 .. maxDepth]. *)
Definition layered (n : Network) : Prop :=
  Forall (fun node => 0 <= layer node <= maxDepth) (nodes n).

(** The shape of a network: identifiers by position, layers in range, and
    at least the input and output nodes. *)
Definition shaped (n : Network) : Prop :=
  indexed n /\ layered n /\
  0 <= nInputs n < 2 ^ 32 /\ 0 <= nOutputs n < 2 ^ 32 /\
  (Z.to_nat (nInputs n) + Z.to_nat (nOutputs n) <= length (nodes n))%nat.

(** The arguments of [NewNetwork] are [uint32]s. *)
Definition uint32_operation (op : operation) : Prop :=
  match op with
  | DoNewNetwork nInputs nOutputs => 0 <= nInputs < 2 ^ 32 /\ 0 <= nOutputs < 2 ^ 32
  | _ => True
  end.

Definition all_shaped (st : state) : Prop :=
  forall net n, load net st = Some n -> shaped n.

(** No connection is disabled, in any network or in the history. *)
Definition all_enabled (st : state) : Prop :=
  (forall net n, load net st = Some n ->
     Forall (fun c => enabled c = true) (connections n)) /\
  (forall key mut, history_lookup key st = Some mut -> enabled (conn mut) = true).

(** A change of weights only. *)
Definition reweighs (f : nat -> connection -> connection) : Prop :=
  forall i c, endpoints (f i c) = endpoints c /\ enabled (f i c) = enabled c /\
              innovationNo (f i c) = innovationNo c.

(** A property [P] of networks and a property [Q] of recorded
    connections hold all over a state. *)
Definition kept_by (P : Network -> Prop) (Q : connection -> Prop) (st : state) : Prop :=
  (forall net n, load net st = Some n -> P n) /\
  (forall key mut, history_lookup key st = Some mut -> Q (conn mut)).

(** The pieces of [Distance]: the number [N] of positions it compares,
    the counters after the comparison loop, and the linear combination. *)
Definition positions (n o : Network) : Z :=
  let N0 := Z.max (Z.of_nat (length (connections n)))
                  (Z.of_nat (length (connections o))) in
  if N0 <? 20 then 1 else N0.

Definition tallyOf (a b : list connection) (N : Z) : tally :=
  fold_left (compareAt a b) (seq 0 (Z.to_nat N))
    {| M := 0; E := 0; D := 0; weightsDiff := f64_of_Z 0 |}.

Definition distanceOf (t : tally) (N : Z) : float64 :=
  let W := if 0 <? M t then f64_div (weightsDiff t) (f64_of_Z (M t))
           else f64_of_Z 0 in
  f64_add (f64_add (f64_div (f64_mul (f64_of_Z 1) (f64_of_Z (E t))) (f64_of_Z N))
                   (f64_div (f64_mul (f64_of_Z 1) (f64_of_Z (D t))) (f64_of_Z N)))
          (f64_mul (f64_const 4 10) W).

(** A weight that is a number: not a NaN and not infinite. *)
Definition is_number (w : float64) : Prop :=
  match w with
  | S754_zero _ | S754_finite _ _ _ => True
  | _ => False
  end.

(** Innovation numbers that [int64] keeps as they are. *)
Definition small_numbers (cs : list connection) : Prop :=
  Forall (fun c => 0 <= innovationNo c < 2 ^ 63) cs.

Definition ascending (cs : list connection) : Prop :=
  StronglySorted Z.le (map innovationNo cs).

(** The connection that [Crossover] puts at position [i] of the child,
    where the dominant parent has [ca]: the other parent's connection at
    [i] when it has one and the draw is not below 0.5. *)
Definition inherited (b : list connection) (coin : nat -> float32) (i : nat)
    (ca : connection) : connection :=
  match b !! i with
  | Some cb => if f32_ltb (coin i) (f32_div (f32_of_Z 1) (f32_of_Z 2)) then ca else cb
  | None => ca
  end.

(** What [Crossover] keeps of a parent [n], found as [n'] afterwards. The
    connections are a permutation of what they were; they are as they were
    when the parent was marked as sorted, and otherwise come in ascending
    order of innovation number (numbers below [2^63]), in the order of the
    insertion sort when there are at most 12 of them. *)
Definition kept (n n' : Network) : Prop :=
  MemberData n' = MemberData n /\ nodes n' = nodes n /\
  nInputs n' = nInputs n /\ nOutputs n' = nOutputs n /\
  nSimilar n' = nSimilar n /\
  connections n' ≡ₚ connections n /\
  sorted n' = true /\
  (sorted n = true -> n' = n) /\
  (sorted n = false -> small_numbers (connections n) -> ascending (connections n')) /\
  (sorted n = false -> (length (connections n) <= 12)%nat ->
   connections n' = SortFunc byInnovation (connections n)).

(** The networks that [sortOnce] leaves as the code does whatever their
    innovation numbers are: those marked as sorted, which it does not
    touch, and those of at most 12 connections, which [slices.SortFunc]
    sorts by insertion. *)
Definition settled (n : Network) : Prop :=
  sorted n = true \/ (length (connections n) <= 12)%nat.




End neat.

(** ** A client of package ga

    The smallest type that implements [ga.Member] the way the README asks
    for, a struct that embeds [ga.MemberData]:
    [type individual struct { ga.MemberData; score uint32 }], used through
    [*individual]. Its fitness is its [score], a child takes the score of
    its first parent, a mutation adds one to it. It is not part of the
    repository; the engine is run on it below. *)

Module client.

Record individual := { MemberData : ga.MemberData; score : Z }.

Definition zero : individual :=
  {| MemberData := {| ga.FitnessScore := 0; ga.SurvivalChance := f32_of_Z 0 |};
     score := 0 |}.

(** The individuals by address, and the values [rand.Float32] will return.
    An address is a number, 0 standing for [nil]; an address that was never
    written reads as the zero individual (Go would panic on [nil]; the
    engine calls no method on it). *)
Record world := { heap : gmap nat individual; source : list float32 }.

Definition deref (m : nat) (w : world) : individual := default zero (heap w !! m).

Definition update (m : nat) (f : individual -> individual) (w : world) : world :=
  {| heap := <[m := f (deref m w)]> (heap w); source := source w |}.

Definition GetFitnessScore (m : nat) (w : world) : Z :=
  wrap32 (ga.FitnessScore (MemberData (deref m w))).

Definition GetSurvivalChance (m : nat) (w : world) : float32 :=
  ga.SurvivalChance (MemberData (deref m w)).

Definition SetSurvivalChance (m : nat) (chance : float32) (w : world) : world :=
  update m (fun x =>
    {| MemberData := {| ga.FitnessScore := ga.FitnessScore (MemberData x);
                        ga.SurvivalChance := chance |};
       score := score x |}) w.

Definition Distance (m other : nat) (w : world) : float64 * world :=
  (f64_of_Z 0, w).

Definition ComputeAndSetFitnessScore (m : nat) (w : world) : world :=
  update m (fun x =>
    {| MemberData := {| ga.FitnessScore := wrap32 (score x);
                        ga.SurvivalChance := ga.SurvivalChance (MemberData x) |};
       score := score x |}) w.

Definition Crossover (m other : nat) (w : world) : nat * world :=
  let child := fresh ({[0%nat]} ∪ dom (heap w)) in
  (child,
   {| heap := <[child := {| MemberData := MemberData zero;
                            score := score (deref m w) |}]> (heap w);
      source := source w |}).

Definition Mutate (m : nat) (w : world) : world :=
  update m (fun x => {| MemberData := MemberData x; score := wrap32 (score x + 1) |}) w.

Definition rand_Float32 (w : world) : float32 * world :=
  match source w with
  | r :: rest => (r, {| heap := heap w; source := rest |})
  | [] => (f32_of_Z 0, w)
  end.

Lemma GetFitnessScore_uint32 m w : 0 <= GetFitnessScore m w < 2 ^ 32.
Proof. unfold GetFitnessScore, wrap32. apply Z.mod_pos_bound. lia. Qed.

#[global] Instance individual_Member : ga.Member nat world := {|
  ga.GetFitnessScore := GetFitnessScore;
  ga.GetFitnessScore_uint32 := GetFitnessScore_uint32;
  ga.GetSurvivalChance := GetSurvivalChance;
  ga.SetSurvivalChance := SetSurvivalChance;
  ga.Distance := Distance;
  ga.ComputeAndSetFitnessScore := ComputeAndSetFitnessScore;
  ga.Crossover := Crossover;
  ga.Mutate := Mutate;
  ga.nil := 0%nat;
  ga.rand_Float32 := rand_Float32
|}.

(** A world of individuals with the given scores, at addresses 1, 2, ...,
    and the population that holds them in that order. *)
Definition individuals (scores : list Z) : gmap nat individual :=
  list_to_map
    (imap (fun l s => (S l, {| MemberData := MemberData zero; score := s |})) scores).

Definition members (scores : list Z) : list nat := seq 1 (length scores).

Definition plain (populationSize maxGenerations nBatches : Z) : ga.SolverOptions :=
  {| ga.PopulationSize := populationSize;
     ga.MaxGenerations := maxGenerations;
     ga.MutationChance := f32_of_Z 0;
     ga.NBatches := nBatches;
     ga.Speciation := false;
     ga.Verbose := false |}.

End client.

(** ** The scheduling example: a client of package ga *)

Module scheduling.

Definition NTASKS : Z := 15.
Definition MAXTARDINESS : Z := 1000.

Record job := { id : Z; executionTime : Z; dueTime : Z }.

Record schedule := { MemberData : ga.MemberData; sequence : list Z }.

Definition JOBS : list job :=
  [ {| id := 0; executionTime := 4; dueTime := 10 |};
    {| id := 1; executionTime := 3; dueTime := 8 |};
    {| id := 2; executionTime := 2; dueTime := 7 |};
    {| id := 3; executionTime := 5; dueTime := 12 |};
    {| id := 4; executionTime := 7; dueTime := 15 |};
    {| id := 5; executionTime := 3; dueTime := 14 |};
    {| id := 6; executionTime := 6; dueTime := 13 |};
    {| id := 7; executionTime := 2; dueTime := 9 |};
    {| id := 8; executionTime := 4; dueTime := 11 |};
    {| id := 9; executionTime := 5; dueTime := 18 |};
    {| id := 10; executionTime := 6; dueTime := 20 |};
    {| id := 11; executionTime := 2; dueTime := 10 |};
    {| id := 12; executionTime := 3; dueTime := 17 |};
    {| id := 13; executionTime := 5; dueTime := 16 |};
    {| id := 14; executionTime := 4; dueTime := 19 |} ].

(** The body of the loop of [computeTardiness] on the pair
    [(tardiness, startTime)]; [JOBS[jobId]] panics outside the array. *)
Definition visit (jobId : Z) (st : Z * Z) : option (Z * Z) :=
  let '(tardiness, startTime) := st in
  j ← JOBS !! Z.to_nat jobId;
  let endTime := wrap32 (wrap32 (startTime + executionTime j) - 1) in
  let dueTime := dueTime j in
  let tardiness1 :=
    if dueTime <? endTime
    then let t := wrap32 (tardiness + wrap32 (endTime - dueTime)) in
         if MAXTARDINESS <? t then MAXTARDINESS else t
    else tardiness in
  Some (tardiness1, wrap32 (endTime + 1)).

Definition computeTardiness (sequence : list Z) : option Z :=
  fst <$> forEach sequence visit (0, 0).

(** [permutation] is the slice that [rand.Perm(int(NTASKS))] returned. *)
Definition randomSequence (permutation : list Z) (s : schedule) : option schedule :=
  sequence1 ← mapM (fun i => wrap32 <$> permutation !! i) (seq 0 (Z.to_nat NTASKS));
  Some {| MemberData := MemberData s; sequence := sequence1 |}.

Definition GetFitnessScore (s : schedule) : Z := ga.FitnessScore (MemberData s).

Definition fitnessOf (tardiness : Z) : Z :=
  wrap32 (wrap32 (MAXTARDINESS + tardiness) * wrap32 (MAXTARDINESS - tardiness)).

Definition ComputeAndSetFitnessScore (s : schedule) : option schedule :=
  tardiness ← computeTardiness (sequence s);
  Some {| MemberData := {| ga.FitnessScore := fitnessOf tardiness;
                           ga.SurvivalChance := ga.SurvivalChance (MemberData s) |};
          sequence := sequence s |}.

Definition Crossover (s other : schedule) : schedule :=
  {| MemberData := {| ga.FitnessScore := 0; ga.SurvivalChance := f32_of_Z 0 |};
     sequence := if ga.FitnessScore (MemberData other) <=? ga.FitnessScore (MemberData s)
                 then sequence s else sequence other |}.

Definition Mutate (permutation : list Z) (s : schedule) : option schedule :=
  randomSequence permutation s.

(** The tardiness that [main] prints for the schedule that [Solve]
    returned. *)
Definition bestTardiness (result : schedule) : option Z :=
  uint32_of_f64
    (f64_sqrt (f64_of_Z (wrap32 (MAXTARDINESS * MAXTARDINESS - GetFitnessScore result)))).

(** The sequences of the example: every job once. *)
Definition complete (s : schedule) : Prop := sequence s ≡ₚ seqZ 0 NTASKS.

(** A sequence as the array type [[NTASKS]uint32] holds it. *)
Definition job_ids (sequence : list Z) : Prop :=
  length sequence = Z.to_nat NTASKS /\ Forall (fun jobId => 0 <= jobId < 2 ^ 32) sequence.

(** The jobs in the order of their identifiers, and in the opposite
    order. *)
Definition in_order : schedule :=
  {| MemberData := {| ga.FitnessScore := 0; ga.SurvivalChance := f32_of_Z 0 |};
     sequence := seqZ 0 15 |}.

Definition reversed : schedule :=
  {| MemberData := {| ga.FitnessScore := 0; ga.SurvivalChance := f32_of_Z 0 |};
     sequence := reverse (seqZ 0 15) |}.

End scheduling.

(** ** States and networks on which the code is run below *)

Module scenario.
Import neat.

(** The registry with an empty, made, history and no network yet. *)
Definition empty_state : state :=
  {| heap := ∅; innovationNoTracker := 0; mutationHistory := Some ∅; testSet := [] |}.

(** Two new networks of one input and one output, at addresses 0 and 1. *)
Definition two_networks : state :=
  snd (NewNetwork 1 1 (snd (NewNetwork 1 1 empty_state))).

(** Two networks of two inputs and one output. The first adds the
    connection 0 -> 2; the second adds 1 -> 2 and then 0 -> 2, which it
    copies from the history with the older innovation number. *)
Definition two_parents : option (nat * nat * state) :=
  let '(a, st1) := NewNetwork 2 1 empty_state in
  let '(b, st2) := NewNetwork 2 1 st1 in
  st3 ← addConnection a 0 2 (f64_of_Z 0) st2;
  st4 ← addConnection b 1 2 (f64_of_Z 0) st3;
  st5 ← addConnection b 0 2 (f64_of_Z 0) st4;
  Some (a, b, st5).

(** Two networks of one input and one output; the first adds the
    connection 0 -> 1 and splits it with a node. *)
Definition parent_with_hidden_node : option (nat * nat * state) :=
  let '(a, st1) := NewNetwork 1 1 empty_state in
  let '(b, st2) := NewNetwork 1 1 st1 in
  st3 ← addConnection a 0 1 (f64_of_Z 0) st2;
  st4 ← addNode a 0 (f64_of_Z 0) (f64_of_Z 0) st3;
  Some (a, b, st4).

Definition heads : nat -> float32 := fun _ => f32_of_Z 0.

(** Two networks are made; the first adds a connection and splits it,
    its distance to the second is taken, and the two are crossed over. *)
Definition a_run : list operation :=
  [ DoNewNetwork 1 1; DoNewNetwork 1 1;
    DoAddConnection 0 0 1 (f64_of_Z 0);
    DoAddNode 0 0 (f64_of_Z 0) (f64_of_Z 0);
    DoDistance 0 1;
    DoCrossover 0 1 heads ].

(** The package-level variables when the program starts, no network
    made: the zero values. *)
Definition at_start : state :=
  {| heap := ∅; innovationNoTracker := 0; mutationHistory := None; testSet := [] |}.

(** Two new networks of two inputs and one output, at addresses 0 and 1,
    in the package as it starts. *)
Definition new_pair : state :=
  snd (NewNetwork 2 1 (snd (NewNetwork 2 1 at_start))).



End scenario.

(** ** Theorems: package batching *)

Module batching_facts.
Import batching.

Lemma chained_app l1 l2 lo mid hi :
  chained l1 lo mid -> chained l2 mid hi -> chained (l1 ++ l2) lo hi.
Proof.
  revert lo; induction l1 as [|b l1 IH]; simpl; intros lo.
  - intros ->. auto.
  - intros (H1 & H2 & H3) H4. repeat split; auto.
Qed.

Lemma chained_le l lo hi : chained l lo hi -> lo <= hi.
Proof.
  revert lo; induction l as [|b l IH]; simpl; intros lo.
  - lia.
  - intros (H1 & H2 & H3). apply IH in H3. lia.
Qed.

(** Every index of [[lo, hi)] lies in some range of a chained sequence, and
    every range lies inside [[lo, hi)]. *)
Lemma chained_cover l lo hi i :
  chained l lo hi ->
  (lo <= i < hi <-> exists k b, l !! k = Some b /\ member_of i b).
Proof.
  revert lo; induction l as [|b l IH]; simpl; intros lo.
  - intros ->. split; [lia|]. intros (k & b & Hk & _). destruct k; discriminate.
  - intros (H1 & H2 & H3). pose proof (chained_le _ _ _ H3) as Hle.
    specialize (IH _ H3). split.
    + intros Hi. destruct (Z_lt_le_dec i (End b)) as [Hlt|Hge].
      * exists 0%nat, b. split; [reflexivity|]. unfold member_of. lia.
      * destruct IH as [IH _]. destruct IH as (k & b' & Hk & Hm); [lia|].
        exists (S k), b'. auto.
    + intros (k & b' & Hk & Hm). destruct k as [|k]; simpl in Hk.
      * injection Hk as <-. unfold member_of in Hm. lia.
      * destruct IH as [_ IH]. assert (End b <= i < hi) by eauto. lia.
Qed.

(** Two different positions of a chained sequence hold disjoint ranges. *)
Lemma chained_disjoint l lo hi k1 k2 b1 b2 i :
  chained l lo hi -> l !! k1 = Some b1 -> l !! k2 = Some b2 ->
  member_of i b1 -> member_of i b2 -> k1 = k2.
Proof.
  revert lo k1 k2; induction l as [|b l IH]; simpl; intros lo k1 k2.
  - intros _ Hk. destruct k1; discriminate.
  - intros (H1 & H2 & H3) Hk1 Hk2 Hm1 Hm2.
    assert (Hin : forall k b', l !! k = Some b' -> member_of i b' -> End b <= i).
    { intros k b' Hk Hm.
      destruct (chained_cover l (End b) hi i H3) as [_ Hc].
      assert (End b <= i < hi) by eauto. lia. }
    destruct k1 as [|k1], k2 as [|k2]; simpl in Hk1, Hk2.
    + reflexivity.
    + injection Hk1 as <-. specialize (Hin _ _ Hk2 Hm2). unfold member_of in Hm1. lia.
    + injection Hk2 as <-. specialize (Hin _ _ Hk1 Hm1). unfold member_of in Hm2. lia.
    + f_equal. eapply IH; eauto.
Qed.

Lemma ranges_S bs j n :
  ranges bs j (S n) = ranges bs j n ++
    [{| Start := Z.of_nat (j + n) * bs; End := (Z.of_nat (j + n) + 1) * bs |}].
Proof. unfold ranges. rewrite seq_S, map_app. reflexivity. Qed.

Lemma length_ranges bs j n : length (ranges bs j n) = n.
Proof. unfold ranges. rewrite length_map. apply length_seq. Qed.

Lemma ranges_lookup bs j n k b :
  ranges bs j n !! k = Some b ->
  Start b = Z.of_nat (j + k) * bs /\ End b = (Z.of_nat (j + k) + 1) * bs.
Proof.
  unfold ranges. rewrite list_lookup_fmap.
  destruct (seq j n !! k) as [x|] eqn:E; [|discriminate].
  apply lookup_seq in E as [-> _]. simpl. intros [= <-]. auto.
Qed.

Lemma ranges_chained bs j n :
  0 <= bs -> chained (ranges bs j n) (Z.of_nat j * bs) (Z.of_nat (j + n) * bs).
Proof.
  intros Hbs. revert j; induction n as [|n IH]; intros j; simpl.
  - f_equal. lia.
  - repeat split; [lia|].
    replace (j + S n)%nat with (S j + n)%nat by lia.
    replace ((Z.of_nat j + 1) * bs) with (Z.of_nat (S j) * bs) by lia.
    apply (IH (S j)).
Qed.

(** The loop of [BuildBatchesList]: as long as the ranges written so far
    stay inside [[0, nElements)], the clamp never fires and the running end
    never wraps, so the loop appends the ranges of base size one after the
    other. *)
Lemma fill_ranges nElements bs n : forall (j : nat) batches end_,
  0 <= bs -> nElements < 2 ^ 32 ->
  Z.of_nat (j + n) * bs <= nElements ->
  (n <> 0%nat -> end_ = (Z.of_nat j + 1) * bs) ->
  fill n nElements bs batches (Z.of_nat j * bs) end_ = batches ++ ranges bs j n.
Proof.
  induction n as [|n IH]; intros j batches end_ Hbs Hn Hle Hend; simpl.
  - unfold ranges. simpl. rewrite app_nil_r. reflexivity.
  - rewrite (Hend ltac:(lia)).
    assert (Hfit : (Z.of_nat j + 1) * bs <= nElements) by nia.
    destruct (nElements <? (Z.of_nat j + 1) * bs) eqn:E; [apply Z.ltb_lt in E; lia|].
    replace ((Z.of_nat j + 1) * bs) with (Z.of_nat (S j) * bs) by lia.
    rewrite (IH (S j)); try assumption.
    + rewrite <- app_assoc. f_equal. unfold ranges. simpl.
      do 2 f_equal. f_equal; lia.
    + replace (S j + n)%nat with (j + S n)%nat by lia. assumption.
    + intros Hn0. unfold wrap32. rewrite Z.mod_small; [lia|].
      assert (Z.of_nat (S j + 1) * bs <= nElements) by nia. nia.
Qed.

(** The value [BuildBatchesList] returns, in closed form. *)
Lemma BuildBatchesList_closed_form nElements nBatches :
  0 < nElements < 2 ^ 32 -> 1 <= nBatches <= nElements ->
  BuildBatchesList nElements nBatches =
    Some (ranges (nElements / nBatches) 0 (Z.to_nat nBatches - 1) ++
          [{| Start := (nBatches - 1) * (nElements / nBatches); End := nElements |}]).
Proof.
  intros Hn Hb. unfold BuildBatchesList.
  destruct (nElements =? 0) eqn:E0; [apply Z.eqb_eq in E0; lia|].
  destruct (nBatches =? 0) eqn:E1; [apply Z.eqb_eq in E1; lia|].
  set (bs := nElements / nBatches).
  assert (Hbs : 0 <= bs) by (apply Z.div_pos; lia).
  assert (Hmul : nBatches * bs <= nElements) by (apply Z.mul_div_le; lia).
  destruct (Z.to_nat nBatches) as [|m] eqn:Em; [lia|].
  assert (HmZ : Z.of_nat m = nBatches - 1) by lia.
  assert (Hfill : fill (S m) nElements bs [] 0 bs = ranges bs 0 (S m)).
  { change (fill (S m) nElements bs [] 0 bs)
      with (fill (S m) nElements bs [] (Z.of_nat 0 * bs) bs).
    rewrite fill_ranges; [reflexivity|assumption|lia|nia|intros _; simpl; lia]. }
  rewrite Hfill. rewrite ranges_S. simpl (0 + m)%nat.
  replace (S m - 1)%nat with m by lia.
  unfold wrap32. rewrite Z.mod_small by lia.
  replace (Z.to_nat (nBatches - 1)) with m by lia.
  rewrite lookup_app_r; rewrite length_ranges; [|lia].
  rewrite Nat.sub_diag. simpl.
  rewrite HmZ.
  destruct ((nBatches - 1 + 1) * bs =? nElements) eqn:E2; simpl.
  - apply Z.eqb_eq in E2. rewrite E2. reflexivity.
  - f_equal. rewrite insert_app_r_alt; rewrite length_ranges; [|lia].
    rewrite Nat.sub_diag. reflexivity.
Qed.

(** C3. For [0 <= nElements] and [1 <= nBatches <= max nElements 1],
    [BuildBatchesList] returns the empty sequence when [nElements = 0],
    and otherwise exactly [nBatches] half-open ranges that are contiguous
    and non-overlapping, whose union is [[0, nElements)]: every index of
    [[0, nElements)] lies in one range and in one only; every range but
    the last has size [nElements / nBatches] and the last one also takes the
    remainder. [BuildBatchesList 10 3] is [[0,3); [3,6); [6,10)]. *)
Theorem BuildBatchesList_partition nElements nBatches :
  0 <= nElements < 2 ^ 32 -> 1 <= nBatches <= Z.max nElements 1 ->
  (nElements = 0 -> BuildBatchesList nElements nBatches = Some []) /\
  (nElements <> 0 ->
    exists batches,
      BuildBatchesList nElements nBatches = Some batches /\
      length batches = Z.to_nat nBatches /\
      chained batches 0 nElements /\
      (forall i, 0 <= i < nElements <->
                 exists k b, batches !! k = Some b /\ member_of i b) /\
      (forall i k1 k2 b1 b2,
          batches !! k1 = Some b1 -> batches !! k2 = Some b2 ->
          member_of i b1 -> member_of i b2 -> k1 = k2) /\
      (forall k b, batches !! k = Some b -> (S k < length batches)%nat ->
                   End b - Start b = nElements / nBatches) /\
      (forall b, batches !! (length batches - 1)%nat = Some b ->
                 End b - Start b = nElements / nBatches + nElements mod nBatches)) /\
  BuildBatchesList 10 3 =
    Some [ {| Start := 0; End := 3 |}; {| Start := 3; End := 6 |};
           {| Start := 6; End := 10 |} ].
Proof.
  intros Hn Hb. split; [|split]; [| |reflexivity].
  - intros ->. reflexivity.
  - intros Hne.
    assert (Hn' : 0 < nElements < 2 ^ 32) by lia.
    assert (Hb' : 1 <= nBatches <= nElements) by lia.
    set (bs := nElements / nBatches).
    assert (Hbs : 0 <= bs) by (apply Z.div_pos; lia).
    assert (Hmul : nBatches * bs <= nElements) by (apply Z.mul_div_le; lia).
    assert (Hmod : nElements = nBatches * bs + nElements mod nBatches)
      by (apply Z.div_mod; lia).
    eexists. split; [apply BuildBatchesList_closed_form; assumption|].
    fold bs.
    assert (Hlen : length (ranges bs 0 (Z.to_nat nBatches - 1) ++
              [{| Start := (nBatches - 1) * bs; End := nElements |}])
            = Z.to_nat nBatches).
    { rewrite length_app, length_ranges. simpl. lia. }
    assert (Hch : chained (ranges bs 0 (Z.to_nat nBatches - 1) ++
              [{| Start := (nBatches - 1) * bs; End := nElements |}]) 0 nElements).
    { eapply chained_app.
      - replace 0 with (Z.of_nat 0 * bs) at 1 by lia. apply ranges_chained. exact Hbs.
      - simpl. repeat split; nia. }
    split; [exact Hlen|]. split; [exact Hch|].
    split; [intros i; apply chained_cover; exact Hch|].
    split; [intros i k1 k2 b1 b2; eapply chained_disjoint; exact Hch|].
    rewrite Hlen. split.
    + intros k b Hk Hlt. rewrite lookup_app_l in Hk by (rewrite length_ranges; lia).
      apply ranges_lookup in Hk as [-> ->]. lia.
    + intros b Hk. rewrite lookup_app_r in Hk by (rewrite length_ranges; lia).
      rewrite length_ranges, Nat.sub_diag in Hk. injection Hk as <-. simpl. lia.
Qed.

(** The theorem at [nElements = 7], [nBatches = 2]. *)
Lemma BuildBatchesList_partition_witness :
  0 <= 7 < 2 ^ 32 /\ 1 <= 2 <= Z.max 7 1 /\
  exists batches,
    BuildBatchesList 7 2 = Some batches /\
    length batches = 2%nat /\ chained batches 0 7.
Proof.
  assert (H1 : 0 <= 7 < 2 ^ 32) by lia.
  assert (H2 : 1 <= 2 <= Z.max 7 1) by lia.
  split; [exact H1|]. split; [exact H2|].
  destruct (BuildBatchesList_partition 7 2 H1 H2) as (_ & H & _).
  destruct (H ltac:(discriminate)) as (batches & Heq & Hlen & Hch & _).
  exists batches. auto.
Defined.

Lemma chained_bounds l lo hi k b :
  chained l lo hi -> l !! k = Some b -> lo <= Start b /\ Start b <= End b /\ End b <= hi.
Proof.
  revert lo k; induction l as [|b0 l IH]; simpl; intros lo k.
  - intros _ Hk. destruct k; discriminate.
  - intros (H1 & H2 & H3) Hk. pose proof (chained_le _ _ _ H3).
    destruct k as [|k]; simpl in Hk.
    + injection Hk as <-. lia.
    + specialize (IH _ _ H3 Hk). lia.
Qed.

Lemma BuildBatchesList_chained nElements nBatches :
  0 < nElements < 2 ^ 32 -> 1 <= nBatches <= nElements ->
  exists batches, BuildBatchesList nElements nBatches = Some batches /\
                  chained batches 0 nElements.
Proof.
  intros Hn Hb. eexists. split; [apply BuildBatchesList_closed_form; assumption|].
  set (bs := nElements / nBatches).
  assert (Hbs : 0 <= bs) by (apply Z.div_pos; lia).
  assert (Hmul : nBatches * bs <= nElements) by (apply Z.mul_div_le; lia).
  eapply chained_app.
  - replace 0 with (Z.of_nat 0 * bs) at 1 by lia. apply ranges_chained. exact Hbs.
  - simpl. repeat split; nia.
Qed.
End batching_facts.

(** ** Theorems: package ga *)

Module ga_facts.
Import batching batching_facts ga.

Lemma int64_small z : - 2 ^ 63 <= z < 2 ^ 63 -> int64 z = z.
Proof.
  intros Hz. unfold int64, wrap64.
  destruct (Z_lt_le_dec z 0) as [Hneg|Hpos].
  - replace (z mod 2 ^ 64) with (z + 2 ^ 64)
      by (apply (Zmod_unique z (2 ^ 64) (-1)); lia).
    destruct (z + 2 ^ 64 <? 2 ^ 63) eqn:E; [apply Z.ltb_lt in E; lia|lia].
  - rewrite Z.mod_small by lia.
    destruct (z <? 2 ^ 63) eqn:E; [reflexivity|]. apply Z.ltb_ge in E. lia.
Qed.

Lemma forEach_invariant {A S : Type} (P : S -> Prop) (Q : A -> Prop)
    (body : A -> S -> option S) l s :
  (forall a s, Q a -> P s -> exists s', body a s = Some s' /\ P s') ->
  Forall Q l -> P s -> exists s', forEach l body s = Some s' /\ P s'.
Proof.
  intros Hbody Hl. revert s. induction Hl as [|a l Ha Hl IH]; intros s Hs; simpl.
  - eauto.
  - destruct (Hbody a s Ha Hs) as (s1 & -> & Hs1). simpl. apply IH. exact Hs1.
Qed.

Lemma indices_in_range b i : i ∈ indices b -> Start b <= i < End b.
Proof. unfold indices. rewrite elem_of_seqZ. lia. Qed.

(** A body that succeeds on every index of [[lo, hi)] runs through every
    batch of a chained sequence. *)
Lemma forBatches_invariant {S : Type} (P : S -> Prop) (body : Z -> S -> option S)
    batches lo hi s :
  chained batches lo hi ->
  (forall i s, lo <= i < hi -> P s -> exists s', body i s = Some s' /\ P s') ->
  P s ->
  exists s', forEach batches (fun b => forEach (indices b) body) s = Some s' /\ P s'.
Proof.
  intros Hch Hbody Hs.
  apply (forEach_invariant P (fun b => lo <= Start b /\ End b <= hi)); [| |exact Hs].
  - intros b s0 [Hlo Hhi] Hs0.
    apply (forEach_invariant P (fun i => lo <= i < hi)); [exact Hbody| |exact Hs0].
    apply Forall_forall. intros i Hi. apply indices_in_range in Hi. lia.
  - apply Forall_lookup. intros k b Hk.
    destruct (chained_bounds _ _ _ _ _ Hch Hk). lia.
Qed.

Section Engine.
Context {M W : Type} `{Member M W}.

Lemma MaxFunc_from_first_fittest w x : forall p m,
  first_fittest p w m ->
  first_fittest (p ++ x) w
    (MaxFunc_from
       (fun a b => int64 (int64 (GetFitnessScore a w) - int64 (GetFitnessScore b w)))
       m x).
Proof.
  induction x as [|xi x IH]; intros p m Hm; simpl.
  - rewrite app_nil_r. exact Hm.
  - replace (p ++ xi :: x) with ((p ++ [xi]) ++ x) by (rewrite <- app_assoc; reflexivity).
    apply IH.
    pose proof (GetFitnessScore_uint32 xi w) as Hxi.
    pose proof (GetFitnessScore_uint32 m w) as Hmr.
    rewrite (int64_small (GetFitnessScore xi w)), (int64_small (GetFitnessScore m w)),
      int64_small by lia.
    destruct Hm as (i & Hi & Hall & Hbefore).
    assert (Hilt : (i < length p)%nat) by (eapply lookup_lt_Some; eauto).
    destruct (0 <? GetFitnessScore xi w - GetFitnessScore m w) eqn:E.
    + apply Z.ltb_lt in E. exists (length p). split; [|split].
      * rewrite lookup_app_r by lia. rewrite Nat.sub_diag. reflexivity.
      * intros j y Hj. destruct (decide (j < length p)%nat) as [Hlt|Hge].
        -- rewrite lookup_app_l in Hj by lia. specialize (Hall _ _ Hj). lia.
        -- rewrite lookup_app_r in Hj by lia.
           destruct (j - length p)%nat; simpl in Hj; [|discriminate].
           injection Hj as <-. lia.
      * intros j y Hlt Hj. rewrite lookup_app_l in Hj by lia.
        specialize (Hall _ _ Hj). lia.
    + apply Z.ltb_ge in E. exists i. split; [|split].
      * rewrite lookup_app_l by lia. exact Hi.
      * intros j y Hj. destruct (decide (j < length p)%nat) as [Hlt|Hge].
        -- rewrite lookup_app_l in Hj by lia. eauto.
        -- rewrite lookup_app_r in Hj by lia.
           destruct (j - length p)%nat; simpl in Hj; [|discriminate].
           injection Hj as <-. lia.
      * intros j y Hlt Hj. rewrite lookup_app_l in Hj by lia. eauto.
Qed.

Lemma getBestMember_first_fittest (solver : Solver M) w :
  population solver <> [] ->
  exists bestMember, getBestMember solver w = Some bestMember /\
                     first_fittest (population solver) w bestMember.
Proof.
  unfold getBestMember, MaxFunc. destruct (population solver) as [|m x]; [congruence|].
  intros _. eexists. split; [reflexivity|].
  apply (MaxFunc_from_first_fittest w x [m] m).
  exists 0%nat. split; [reflexivity|]. split.
  - intros j y Hj. destruct j; simpl in Hj; [|discriminate]. injection Hj as <-. lia.
  - intros j y Hj. lia.
Qed.

Lemma NewSolver_Some (members : list M) o (solver : Solver M) :
  0 <= NBatches o ->
  NewSolver members o = Some solver ->
  PopulationSize o <> 0 /\
  wrap32 (Z.of_nat (length members)) = PopulationSize o /\
  population solver = members /\ generationNo solver = 1 /\
  PopulationSize (options solver) = PopulationSize o /\
  MaxGenerations (options solver) = MaxGenerations o /\
  MutationChance (options solver) = MutationChance o /\
  Speciation (options solver) = Speciation o /\
  Verbose (options solver) = Verbose o /\
  NBatches (options solver) =
    Z.min (Z.max (NBatches o) 1) (PopulationSize o).
Proof.
  intros HNB. unfold NewSolver.
  destruct (PopulationSize o =? 0) eqn:E0; [discriminate|].
  destruct (wrap32 (Z.of_nat (length members)) =? PopulationSize o) eqn:E1;
    simpl; [|discriminate].
  apply Z.eqb_neq in E0. apply Z.eqb_eq in E1.
  intros [= <-]. simpl.
  destruct (NBatches o =? 0) eqn:E2; simpl.
  - apply Z.eqb_eq in E2.
    destruct (PopulationSize o <? 1) eqn:E3; simpl;
      [apply Z.ltb_lt in E3|apply Z.ltb_ge in E3];
      repeat split; try assumption; try reflexivity; lia.
  - apply Z.eqb_neq in E2.
    destruct (PopulationSize o <? NBatches o) eqn:E3; simpl;
      [apply Z.ltb_lt in E3|apply Z.ltb_ge in E3];
      repeat split; try assumption; try reflexivity; lia.
Qed.

Lemma NewSolver_ready (members : list M) o (solver : Solver M) :
  uint32_options o -> NewSolver members o = Some solver -> ready solver.
Proof.
  intros (HPS & HMG & HNB) Hnew.
  destruct (NewSolver_Some _ _ _ (proj1 HNB) Hnew)
    as (H0 & Hlen & Hpop & Hgen & HPS' & HMG' & _ & _ & _ & HNB').
  unfold ready. rewrite HPS', HMG', HNB', Hgen, Hpop.
  assert (wrap32 (Z.of_nat (length members)) <= Z.of_nat (length members)).
  { unfold wrap32. apply Z.mod_le; lia. }
  lia.
Qed.

Lemma forEach_total {A S : Type} (body : A -> S -> option S) l s :
  (forall a s, is_Some (body a s)) -> is_Some (forEach l body s).
Proof.
  intros Hbody. revert s; induction l as [|a l IH]; intros s; simpl.
  - eauto.
  - destruct (Hbody a s) as [s1 ->]. simpl. apply IH.
Qed.

Lemma lookup_ready (solver : Solver M) i :
  ready solver -> 0 <= i < PopulationSize (options solver) ->
  is_Some (population solver !! Z.to_nat i).
Proof.
  intros (_ & _ & _ & _ & Hlen) Hi. apply lookup_lt_is_Some. lia.
Qed.

Lemma speciationPhase_runs (solver : Solver M) batches w :
  ready solver -> chained batches 0 (PopulationSize (options solver)) ->
  is_Some (speciationPhase solver batches w).
Proof.
  intros Hr Hch. unfold speciationPhase.
  destruct (forBatches_invariant (fun _ => True)
              (fun i w => mi ← population solver !! Z.to_nat i;
                 forEach (population solver)
                   (fun mj w => Some (snd (Distance mi mj w))) w)
              batches 0 _ w Hch) as (w' & Hw' & _); [|exact I|eauto].
  intros i s Hi _. destruct (lookup_ready solver i Hr Hi) as [mi ->]. simpl.
  destruct (forEach_total (fun mj w => Some (snd (Distance mi mj w)))
              (population solver) s) as [s' Hs']; [eauto|].
  eauto.
Qed.

Lemma fitnessPhase_runs (solver : Solver M) batches w :
  ready solver -> chained batches 0 (PopulationSize (options solver)) ->
  is_Some (fitnessPhase solver batches w).
Proof.
  intros Hr Hch. unfold fitnessPhase.
  destruct (forBatches_invariant (fun _ => True)
              (fun i '(w, fitnessSum) =>
                 mi ← population solver !! Z.to_nat i;
                 let w1 := ComputeAndSetFitnessScore mi w in
                 Some (w1, wrap32 (fitnessSum + GetFitnessScore mi w1)))
              batches 0 _ (w, 0) Hch) as (w' & Hw' & _); [|exact I|eauto].
  intros i [s fs] Hi _. destruct (lookup_ready solver i Hr Hi) as [mi ->]. simpl.
  eauto.
Qed.

Lemma pickRandomMember_runs (solver : Solver M) w :
  ready solver -> is_Some (pickRandomMember solver w).
Proof.
  intros Hr. unfold pickRandomMember.
  destruct (rand_Float32 w) as [randValue w1].
  destruct (scan (population solver) randValue w1); [eauto|].
  destruct Hr as (HPS & _ & _ & _ & Hlen).
  unfold wrap32. rewrite Z.mod_small by lia.
  destruct (lookup_lt_is_Some_2 (population solver)
              (Z.to_nat (PopulationSize (options solver) - 1)) ltac:(lia))
    as [m ->]. simpl. eauto.
Qed.

Lemma breedPhase_runs (solver : Solver M) batches w :
  ready solver -> chained batches 0 (PopulationSize (options solver)) ->
  exists w' nextPopulation,
    breedPhase solver batches w = Some (w', nextPopulation) /\
    length nextPopulation = Z.to_nat (PopulationSize (options solver)).
Proof.
  intros Hr Hch. unfold breedPhase.
  match goal with |- context [forEach batches _ ?init] =>
    destruct (forBatches_invariant
                (fun st : W * list M =>
                   length (snd st) = Z.to_nat (PopulationSize (options solver)))
                (fun i '(w, nextPopulation) =>
                   '(parent1, w1) ← pickRandomMember solver w;
                   '(parent2, w2) ← pickRandomMember solver w1;
                   let '(child, w3) := Crossover parent1 parent2 w2 in
                   let '(r, w4) := rand_Float32 w3 in
                   let w5 := if f32_ltb r (MutationChance (options solver))
                             then Mutate child w4 else w4 in
                   if decide (Z.to_nat i < length nextPopulation)%nat
                   then Some (w5, <[Z.to_nat i := child]> nextPopulation)
                   else None)
                batches 0 _ init Hch) as ([w' np] & Hrun & Hlen)
  end.
  - intros i [s np] Hi Hlen. simpl in Hlen.
    destruct (pickRandomMember_runs solver s Hr) as [[p1 w1] ->]. simpl.
    destruct (pickRandomMember_runs solver w1 Hr) as [[p2 w2] ->]. simpl.
    destruct (Crossover p1 p2 w2) as [child w3].
    destruct (rand_Float32 w3) as [r w4].
    destruct (decide (Z.to_nat i < length np)%nat) as [Hlt|Hge]; [|lia].
    eexists. split; [reflexivity|]. simpl. rewrite length_insert. exact Hlen.
  - simpl. apply length_replicate.
  - exists w', np. split; [exact Hrun|exact Hlen].
Qed.

(** One pass through the loop: at generation [MaxGenerations] the
    function returns the first fittest member, at any other generation
    the loop goes round with the counter advanced by one. *)
Lemma generation_runs (solver : Solver M) batches w :
  ready solver -> chained batches 0 (PopulationSize (options solver)) ->
  (generationNo solver = MaxGenerations (options solver) /\
   exists bestMember w',
     generation solver batches w = Some (inl (bestMember, w')) /\
     first_fittest (population solver) w' bestMember) \/
  (generationNo solver <> MaxGenerations (options solver) /\
   exists solver' w',
     generation solver batches w = Some (inr (solver', w')) /\
     ready solver' /\ options solver' = options solver /\
     generationNo solver' = wrap32 (generationNo solver + 1) /\
     Z.of_nat (length (population solver')) = PopulationSize (options solver)).
Proof.
  intros Hr Hch. unfold generation.
  assert (Hspec : exists w1, (if Speciation (options solver)
             then speciationPhase solver batches w else Some w) = Some w1).
  { destruct (Speciation (options solver)); [|eauto].
    destruct (speciationPhase_runs solver batches w Hr Hch); eauto. }
  destruct Hspec as (w1 & ->). simpl.
  destruct (fitnessPhase_runs solver batches w1 Hr Hch) as [[w2 fitnessSum] ->].
  simpl.
  destruct (generationNo solver =? MaxGenerations (options solver)) eqn:E.
  - apply Z.eqb_eq in E. left. split; [exact E|].
    destruct (getBestMember_first_fittest solver w2) as (b & -> & Hb).
    { destruct Hr as (HPS & _ & _ & _ & Hlen).
      destruct (population solver); simpl in Hlen; [lia|discriminate]. }
    simpl. eauto.
  - apply Z.eqb_neq in E. right. split; [exact E|].
    destruct (breedPhase_runs solver batches
                (assignSurvivalChances solver fitnessSum w2) Hr Hch)
      as (w4 & np & -> & Hlen).
    simpl. eexists _, _. split; [reflexivity|]. simpl.
    destruct Hr as (HPS & HNB & HMG & HG & _).
    split; [|split; [reflexivity|split; [reflexivity|rewrite Hlen; lia]]].
    unfold ready; simpl. rewrite Hlen.
    assert (0 <= wrap32 (generationNo solver + 1) < 2 ^ 32)
      by (unfold wrap32; apply Z.mod_pos_bound; lia).
    lia.
Qed.

Lemma wrap32_countdown g m k :
  0 <= g < 2 ^ 32 -> 0 <= m < 2 ^ 32 -> g <> m ->
  wrap32 (m - g) = Z.of_nat (S k) ->
  wrap32 (m - wrap32 (g + 1)) = Z.of_nat k.
Proof.
  unfold wrap32. intros Hg Hm Hne Hk.
  change (2 ^ 32) with 4294967296 in *.
  Z.div_mod_to_equations. lia.
Qed.

Lemma wrap32_zero_iff g m :
  0 <= g < 2 ^ 32 -> 0 <= m < 2 ^ 32 -> (wrap32 (m - g) = 0 <-> g = m).
Proof.
  unfold wrap32. intros Hg Hm.
  change (2 ^ 32) with 4294967296 in *.
  split; intros; Z.div_mod_to_equations; lia.
Qed.

(** The loop returns after [wrap32 (MaxGenerations - generationNo) + 1]
    passes, whatever the fuel left over. *)
Lemma loop_returns batches : forall (k : nat) (solver : Solver M) w done extra,
  ready solver -> chained batches 0 (PopulationSize (options solver)) ->
  wrap32 (MaxGenerations (options solver) - generationNo solver) = Z.of_nat k ->
  exists r,
    loop (S k + extra) solver batches w done = Returned r /\
    iterations r = done + Z.of_nat k + 1 /\
    generationNo (final r) = MaxGenerations (options solver) /\
    options (final r) = options solver /\
    ready (final r) /\
    first_fittest (population (final r)) (world r) (best r) /\
    (Z.of_nat (length (population solver)) = PopulationSize (options solver) ->
     Z.of_nat (length (population (final r))) = PopulationSize (options solver)).
Proof.
  induction k as [|k IH]; intros solver w done extra Hr Hch Hk.
  - simpl.
    destruct (generation_runs solver batches w Hr Hch)
      as [(Heq & b & w' & -> & Hb)|(Hne & _)].
    + eexists. split; [reflexivity|]. simpl. split; [lia|]. split; [exact Heq|].
      split; [reflexivity|]. split; [exact Hr|]. split; [exact Hb|auto].
    + exfalso. apply Hne. apply wrap32_zero_iff; [apply Hr|apply Hr|exact Hk].
  - change (S (S k) + extra)%nat with (S (S k + extra)). cbn [loop].
    destruct (generation_runs solver batches w Hr Hch)
      as [(Heq & _)|(Hne & solver' & w' & -> & Hr' & Hopt & Hgen & Hlen')].
    + exfalso. apply (wrap32_zero_iff (generationNo solver)
                       (MaxGenerations (options solver))) in Heq;
        [lia|apply Hr|apply Hr].
    + destruct (IH solver' w' (done + 1) extra Hr')
        as (r & Hrun & Hit & Hg & Ho & Hrr & Hb & Hlen).
      * rewrite Hopt. exact Hch.
      * rewrite Hopt, Hgen. apply wrap32_countdown; [apply Hr|apply Hr|exact Hne|exact Hk].
      * exists r. split; [exact Hrun|]. rewrite Hopt in *.
        split; [lia|]. split; [exact Hg|]. split; [exact Ho|].
        split; [exact Hrr|]. split; [exact Hb|]. intros _. apply Hlen. exact Hlen'.
Qed.

Lemma loop_fuel batches : forall fuel (solver : Solver M) w done r,
  loop fuel solver batches w done = Returned r ->
  forall fuel', (fuel <= fuel')%nat -> loop fuel' solver batches w done = Returned r.
Proof.
  induction fuel as [|fuel IH]; intros solver w done r Hrun fuel' Hle; [discriminate|].
  destruct fuel' as [|fuel']; [lia|]. simpl in *.
  destruct (generation solver batches w) as [[[b w']|[solver' w']]|];
    [exact Hrun| |discriminate].
  apply (IH _ _ _ _ Hrun). lia.
Qed.

(** [Solve] on a solver that [NewSolver] built. It returns, after
    [wrap32 (MaxGenerations - 1) + 1] passes through its loop, with the
    generation counter at [MaxGenerations] and the first fittest member
    of the population of that generation. *)
Lemma Solve_runs (members : list M) o (solver : Solver M) w :
  uint32_options o -> NewSolver members o = Some solver ->
  exists r,
    Solve solver w = Returned r /\
    iterations r = wrap32 (MaxGenerations o - 1) + 1 /\
    generationNo (final r) = MaxGenerations o /\
    first_fittest (population (final r)) (world r) (best r) /\
    (Z.of_nat (length members) < 2 ^ 32 ->
     length (population (final r)) = length members).
Proof.
  intros Ho Hnew. pose proof (NewSolver_ready _ _ _ Ho Hnew) as Hr.
  destruct (NewSolver_Some _ _ _ (proj1 (proj2 (proj2 Ho))) Hnew)
    as (_ & Hwrap & Hpop & Hgen & HPSo & HMG & _).
  unfold Solve. pose proof Hr as (HPS & HNB & _).
  destruct (BuildBatchesList_chained (PopulationSize (options solver))
              (NBatches (options solver))) as (batches & -> & Hch); [lia|exact HNB|].
  set (d := wrap32 (MaxGenerations (options solver) - generationNo solver)).
  assert (Hd : 0 <= d) by (unfold d, wrap32; apply Z.mod_pos_bound; lia).
  destruct (loop_returns batches (Z.to_nat d) solver w 0 0 Hr Hch)
    as (r & Hrun & Hit & Hg & _ & _ & Hb & Hlen); [fold d; lia|].
  exists r. replace (Z.to_nat (d + 1)) with (S (Z.to_nat d) + 0)%nat by lia.
  split; [exact Hrun|]. split; [|split; [congruence|split; [exact Hb|]]].
  - rewrite Hit, Z2Nat.id by exact Hd. unfold d. rewrite Hgen, HMG. lia.
  - intros Hsmall. unfold wrap32 in Hwrap. rewrite Z.mod_small in Hwrap by lia.
    rewrite Hpop, HPSo in Hlen. specialize (Hlen Hwrap). lia.
Qed.

(** The number of passes through the loop of [Solve]: [MaxGenerations]
    when it is at least 1, and [2^32] when it is 0, since the counter
    starts at 1 and is compared after the generation was computed. *)
Lemma Solve_iterations (members : list M) o (solver : Solver M) w :
  uint32_options o -> NewSolver members o = Some solver ->
  exists r,
    Solve solver w = Returned r /\
    iterations r = if MaxGenerations o =? 0 then 2 ^ 32 else MaxGenerations o.
Proof.
  intros Ho Hnew.
  destruct (Solve_runs members o solver w Ho Hnew) as (r & Hrun & Hit & _).
  exists r. split; [exact Hrun|]. rewrite Hit. destruct Ho as (_ & HM & _).
  destruct (MaxGenerations o =? 0) eqn:E.
  - apply Z.eqb_eq in E. rewrite E. reflexivity.
  - apply Z.eqb_neq in E. unfold wrap32. rewrite Z.mod_small by lia. lia.
Qed.

(** Every generation has the size of the first: the population that
    [Solve] leaves in the solver has as many members as the one given
    to [NewSolver] (each pass breeds [PopulationSize] children). *)
Lemma Solve_population_length (members : list M) o (solver : Solver M) w :
  uint32_options o -> Z.of_nat (length members) < 2 ^ 32 ->
  NewSolver members o = Some solver ->
  exists r,
    Solve solver w = Returned r /\
    length (population (final r)) = length members.
Proof.
  intros Ho Hlen Hnew.
  destruct (Solve_runs members o solver w Ho Hnew) as (r & Hrun & _ & _ & _ & Hl).
  exists r. split; [exact Hrun|exact (Hl Hlen)].
Qed.

(** [NewSolver] on a population of fewer than [2^32] members panics
    exactly when the population size is zero or is not the length of
    the population, and otherwise clamps the number of batches. *)
Lemma NewSolver_panics_iff (members : list M) o :
  uint32_options o -> Z.of_nat (length members) < 2 ^ 32 ->
  (NewSolver members o = None <->
   PopulationSize o = 0 \/ Z.of_nat (length members) <> PopulationSize o) /\
  (forall solver, NewSolver members o = Some solver ->
     NBatches (options solver) = Z.min (Z.max (NBatches o) 1) (PopulationSize o) /\
     1 <= NBatches (options solver) <= PopulationSize o).
Proof.
  intros (HPS & HMG & HNB) Hlen. split.
  - unfold NewSolver, wrap32. rewrite Z.mod_small by lia.
    destruct (PopulationSize o =? 0) eqn:E0.
    + apply Z.eqb_eq in E0. split; auto.
    + apply Z.eqb_neq in E0.
      destruct (Z.of_nat (length members) =? PopulationSize o) eqn:E1; simpl.
      * apply Z.eqb_eq in E1. split; [discriminate|]. intros [?|?]; contradiction.
      * apply Z.eqb_neq in E1. split; auto.
  - intros solver Hnew.
    destruct (NewSolver_Some _ _ _ (proj1 HNB) Hnew)
      as (H0 & _ & _ & _ & _ & _ & _ & _ & _ & HNB').
    split; [exact HNB'|]. lia.
Qed.

(** The survival chances that the serial phase of a generation assigns,
    for a member type whose [SetSurvivalChance] stores the chance and
    touches nothing else, as one that embeds [MemberData] does. *)
Section SurvivalChances.
Context `{EqDecision M}.
Hypothesis get_set_chance : forall m c w,
  GetSurvivalChance m (SetSurvivalChance m c w) = c.
Hypothesis get_set_chance_other : forall m m' c w,
  m <> m' -> GetSurvivalChance m' (SetSurvivalChance m c w) = GetSurvivalChance m' w.
Hypothesis fitness_set_chance : forall m m' c w,
  GetFitnessScore m' (SetSurvivalChance m c w) = GetFitnessScore m' w.

Lemma assignSurvivalChances_fitness (solver : Solver M) fitnessSum w m :
  GetFitnessScore m (assignSurvivalChances solver fitnessSum w) = GetFitnessScore m w.
Proof.
  unfold assignSurvivalChances. generalize (population solver) as l.
  intros l. revert w. induction l as [|x l IH]; intros w; simpl; [reflexivity|].
  rewrite IH. apply fitness_set_chance.
Qed.

Lemma assignSurvivalChances_chance (solver : Solver M) fitnessSum w m :
  m ∈ population solver ->
  GetSurvivalChance m (assignSurvivalChances solver fitnessSum w) =
    survivalChance solver fitnessSum (GetFitnessScore m w).
Proof.
  unfold assignSurvivalChances. generalize (population solver) as l.
  intros l. induction l as [|x l IH] using rev_ind; intros Hin.
  - inversion Hin.
  - rewrite fold_left_app. simpl.
    pose proof (assignSurvivalChances_fitness
                  {| population := l; options := options solver;
                     generationNo := generationNo solver |} fitnessSum w) as Hfit.
    unfold assignSurvivalChances in Hfit. simpl in Hfit.
    destruct (decide (x = m)) as [->|Hne].
    + rewrite get_set_chance, Hfit. reflexivity.
    + rewrite get_set_chance_other by exact Hne. apply IH.
      apply elem_of_app in Hin as [Hin|Hin]; [exact Hin|].
      apply list_elem_of_singleton in Hin. congruence.
Qed.

(** The two cases of the survival chance, spelled out. *)
Lemma assignSurvivalChances_cases (solver : Solver M) fitnessSum w m :
  m ∈ population solver ->
  (fitnessSum <> 0 ->
   GetSurvivalChance m (assignSurvivalChances solver fitnessSum w) =
     f32_div (f32_of_Z (GetFitnessScore m w)) (f32_of_Z fitnessSum)) /\
  (fitnessSum = 0 ->
   GetSurvivalChance m (assignSurvivalChances solver fitnessSum w) =
     f32_div (f32_of_Z 1) (f32_of_Z (PopulationSize (options solver)))).
Proof.
  intros Hin. rewrite assignSurvivalChances_chance by exact Hin.
  unfold survivalChance. split.
  - intros Hne. apply Z.eqb_neq in Hne. rewrite Hne. reflexivity.
  - intros ->. reflexivity.
Qed.
End SurvivalChances.

End Engine.

(** The client stores a survival chance and touches nothing else. *)
Lemma client_get_set_chance m c w :
  client.GetSurvivalChance m (client.SetSurvivalChance m c w) = c.
Proof.
  unfold client.GetSurvivalChance, client.SetSurvivalChance, client.update, client.deref.
  simpl. rewrite lookup_insert_eq. reflexivity.
Qed.

Lemma client_get_set_chance_other m m' c w :
  m <> m' ->
  client.GetSurvivalChance m' (client.SetSurvivalChance m c w) =
    client.GetSurvivalChance m' w.
Proof.
  intros Hne.
  unfold client.GetSurvivalChance, client.SetSurvivalChance, client.update, client.deref.
  simpl. rewrite lookup_insert_ne by exact Hne. reflexivity.
Qed.

Lemma client_fitness_set_chance m m' c w :
  client.GetFitnessScore m' (client.SetSurvivalChance m c w) =
    client.GetFitnessScore m' w.
Proof.
  unfold client.GetFitnessScore, client.SetSurvivalChance, client.update, client.deref.
  simpl. destruct (decide (m = m')) as [->|Hne].
  - rewrite lookup_insert_eq. reflexivity.
  - rewrite lookup_insert_ne by exact Hne. reflexivity.
Qed.

(** [NewSolver_panics_iff] on three members and seven requested batches. *)
Lemma NewSolver_panics_iff_witness :
  let members := client.members [3; 9; 9] in
  let o := client.plain 3 2 7 in
  uint32_options o /\ Z.of_nat (length members) < 2 ^ 32 /\
  (NewSolver members o = None <->
   PopulationSize o = 0 \/ Z.of_nat (length members) <> PopulationSize o) /\
  (forall solver, NewSolver members o = Some solver ->
     NBatches (options solver) = Z.min (Z.max (NBatches o) 1) (PopulationSize o) /\
     1 <= NBatches (options solver) <= PopulationSize o).
Proof.
  intros members o.
  assert (Ho : uint32_options o) by (unfold uint32_options; simpl; lia).
  assert (Hlen : Z.of_nat (length members) < 2 ^ 32) by (simpl; lia).
  split; [exact Ho|]. split; [exact Hlen|].
  exact (NewSolver_panics_iff members o Ho Hlen).
Defined.

(** [Solve_iterations] on three members and two generations. *)
Lemma Solve_iterations_witness :
  let members := client.members [3; 9; 9] in
  let o := client.plain 3 2 2 in
  let solver := {| population := members; options := o; generationNo := 1 |} in
  let w := {| client.heap := client.individuals [3; 9; 9]; client.source := [] |} in
  uint32_options o /\ NewSolver members o = Some solver /\
  exists r,
    Solve solver w = Returned r /\
    iterations r = if MaxGenerations o =? 0 then 2 ^ 32 else MaxGenerations o.
Proof.
  intros members o solver w.
  assert (Ho : uint32_options o) by (unfold uint32_options; simpl; lia).
  assert (Hnew : NewSolver members o = Some solver) by reflexivity.
  split; [exact Ho|]. split; [exact Hnew|].
  exact (Solve_iterations members o solver w Ho Hnew).
Defined.

(** [Solve_population_length] on three members and two generations. *)
Lemma Solve_population_length_witness :
  let members := client.members [3; 9; 9] in
  let o := client.plain 3 2 2 in
  let solver := {| population := members; options := o; generationNo := 1 |} in
  let w := {| client.heap := client.individuals [3; 9; 9]; client.source := [] |} in
  uint32_options o /\ Z.of_nat (length members) < 2 ^ 32 /\
  NewSolver members o = Some solver /\
  exists r,
    Solve solver w = Returned r /\
    length (population (final r)) = length members.
Proof.
  intros members o solver w.
  assert (Ho : uint32_options o) by (unfold uint32_options; simpl; lia).
  assert (Hlen : Z.of_nat (length members) < 2 ^ 32) by (simpl; lia).
  assert (Hnew : NewSolver members o = Some solver) by reflexivity.
  split; [exact Ho|]. split; [exact Hlen|]. split; [exact Hnew|].
  exact (Solve_population_length members o solver w Ho Hlen Hnew).
Defined.

(** [assignSurvivalChances_cases] on the client, for the second of three
    members of fitness 3, 9 and 9. *)
Lemma assignSurvivalChances_cases_witness :
  let solver := {| population := client.members [3; 9; 9];
                   options := client.plain 3 2 1; generationNo := 1 |} in
  let w := fold_left (fun w m => client.ComputeAndSetFitnessScore m w)
             (client.members [3; 9; 9])
             {| client.heap := client.individuals [3; 9; 9]; client.source := [] |} in
  2%nat ∈ population solver /\
  (21 <> 0 ->
   GetSurvivalChance 2%nat (assignSurvivalChances solver 21 w) =
     f32_div (f32_of_Z (GetFitnessScore 2%nat w)) (f32_of_Z 21)) /\
  (21 = 0 ->
   GetSurvivalChance 2%nat (assignSurvivalChances solver 21 w) =
     f32_div (f32_of_Z 1) (f32_of_Z (PopulationSize (options solver)))).
Proof.
  intros solver w.
  assert (Hin : 2%nat ∈ population solver) by (simpl; set_solver).
  split; [exact Hin|].
  exact (assignSurvivalChances_cases client_get_set_chance client_get_set_chance_other
           client_fitness_set_chance solver 21 w 2%nat Hin).
Defined.

(** C4, at a population whose fitness scores add up to more than a
    [uint32] holds. Three individuals of fitness [2^31], [2^31] and 1: the
    accumulated sum is [2^32 + 1] wrapped, that is 1; each survival chance is
    the fitness divided by that sum, [2^31], [2^31] and 1, and the chances
    add up to [2^32], not to 1, although the total fitness is not zero. *)
Theorem survival_chances_after_overflow :
  let scores := [2 ^ 31; 2 ^ 31; 1] in
  let w := {| client.heap := client.individuals scores; client.source := [] |} in
  exists solver batches w2 fitnessSum,
    NewSolver (client.members scores) (client.plain 3 2 1) = Some solver /\
    BuildBatchesList 3 1 = Some batches /\
    fitnessPhase solver batches w = Some (w2, fitnessSum) /\
    map (fun m => GetFitnessScore m w2) (population solver) = scores /\
    fitnessSum = 1 /\
    generationNo solver <> MaxGenerations (options solver) /\
    let chances :=
      map (fun m => GetSurvivalChance m (assignSurvivalChances solver fitnessSum w2))
          (population solver) in
    chances = [f32_of_Z (2 ^ 31); f32_of_Z (2 ^ 31); f32_of_Z 1] /\
    fold_left f32_add chances (f32_of_Z 0) = f32_of_Z (2 ^ 32).
Proof.
  intros scores w. eexists _, _, _, _.
  split; [reflexivity|]. split; [reflexivity|]. split; [vm_compute; reflexivity|].
  split; [vm_compute; reflexivity|]. split; [reflexivity|].
  split; [vm_compute; discriminate|]. split; vm_compute; reflexivity.
Qed.

(** C5, at [MaxGenerations = 0]. The first pass computes a generation,
    finds the counter (1) different from [MaxGenerations] (0), breeds and
    goes round; [Solve] returns when the counter has wrapped to 0, after
    [2^32] passes, not after none. *)
Theorem Solve_MaxGenerations_zero :
  let w := {| client.heap := client.individuals [7]; client.source := [] |} in
  exists solver batches,
    NewSolver (client.members [7]) (client.plain 1 0 1) = Some solver /\
    BuildBatchesList 1 1 = Some batches /\
    (exists solver' w', generation solver batches w = Some (inr (solver', w')) /\
                        generationNo solver' = 2) /\
    exists r, Solve solver w = Returned r /\ iterations r = 2 ^ 32.
Proof.
  intros w.
  assert (Ho : uint32_options (client.plain 1 0 1))
    by (unfold uint32_options; simpl; lia).
  destruct (NewSolver (client.members [7]) (client.plain 1 0 1)) as [solver|] eqn:Hnew;
    [|discriminate].
  exists solver. eexists. split; [reflexivity|]. split; [reflexivity|].
  split.
  - injection Hnew as <-. eexists _, _. split; vm_compute; reflexivity.
  - destruct (Solve_runs _ _ solver w Ho Hnew) as (r & Hrun & Hit & _).
    exists r. split; [exact Hrun|]. rewrite Hit. reflexivity.
Qed.

(** C9, at a population of [2^32 + 1] members and [PopulationSize = 1]. The
    length is compared after its conversion to [uint32], which leaves 1:
    [NewSolver] does not panic although the population's length differs
    from the population size. *)
Theorem NewSolver_accepts_longer_population :
  let members := replicate (Z.to_nat (2 ^ 32 + 1)) 1%nat in
  let o := client.plain 1 1 1 in
  PopulationSize o <> 0 /\
  Z.of_nat (length members) <> PopulationSize o /\
  NewSolver members o =
    Some {| population := members; options := o; generationNo := 1 |}.
Proof.
  intros members o. subst members.
  assert (Hlen : Z.of_nat (length (replicate (Z.to_nat (2 ^ 32 + 1)) 1%nat))
                 = 2 ^ 32 + 1).
  { rewrite length_replicate. apply Z2Nat.id. lia. }
  split; [simpl; lia|]. split; [rewrite Hlen; simpl; lia|].
  unfold NewSolver. rewrite Hlen. reflexivity.
Qed.

End ga_facts.

(** ** Theorems: package neat *)

Module neat_facts.
Import neat scenario.

(** *** The heap *)

Lemma load_store net n st : load net (store net n st) = Some n.
Proof. unfold load, store. simpl. apply lookup_insert_eq. Qed.

Lemma load_store_ne net p n st : net <> p -> load p (store net n st) = load p st.
Proof. intros Hne. unfold load, store. simpl. apply lookup_insert_ne. exact Hne. Qed.

Lemma store_same net n st : load net st = Some n -> store net n st = st.
Proof.
  unfold load, store, with_heap. intros Hl. rewrite insert_id by exact Hl.
  destruct st; reflexivity.
Qed.

Lemma NewNetwork_fresh nInputs nOutputs st net st' :
  NewNetwork nInputs nOutputs st = (net, st') ->
  load net st = None /\ st' = store net (newNetwork nInputs nOutputs) st.
Proof.
  unfold NewNetwork. intros [= <- <-]. split; [|reflexivity].
  unfold load. apply not_elem_of_dom. apply is_fresh.
Qed.

(** *** Sorting *)

Lemma insert_back_Permutation {A : Type} (cmp : A -> A -> Z) x rp :
  insert_back cmp x rp ≡ₚ x :: rp.
Proof.
  induction rp as [|y rp IH]; simpl; [reflexivity|].
  destruct (cmp x y <? 0); [|reflexivity].
  rewrite IH. apply Permutation_swap.
Qed.

Lemma SortFunc_Permutation {A : Type} (cmp : A -> A -> Z) x : SortFunc cmp x ≡ₚ x.
Proof.
  unfold SortFunc. rewrite <- Permutation_rev.
  assert (Hgen : forall rp, fold_left (fun rp xi => insert_back cmp xi rp) x rp ≡ₚ x ++ rp).
  { induction x as [|xi x IH]; intros rp; simpl; [reflexivity|].
    rewrite IH, insert_back_Permutation. symmetry. apply Permutation_middle. }
  rewrite Hgen, app_nil_r. reflexivity.
Qed.

Lemma SortFunc_nil {A : Type} (cmp : A -> A -> Z) : SortFunc cmp [] = [].
Proof. reflexivity. Qed.

Lemma sortOnce_store net n st :
  load net st = Some n -> sortOnce net st = Some (store net (normalised n) st).
Proof.
  intros Hl. unfold sortOnce, normalised. rewrite Hl. simpl.
  destruct (sorted n); [|reflexivity]. rewrite store_same by exact Hl. reflexivity.
Qed.

Lemma normalised_sorted n : sorted (normalised n) = true.
Proof. unfold normalised. destruct (sorted n) eqn:E; [exact E|reflexivity]. Qed.

Lemma normalised_idem n : normalised (normalised n) = normalised n.
Proof.
  unfold normalised at 1. rewrite normalised_sorted. reflexivity.
Qed.

Lemma normalised_fields n :
  MemberData (normalised n) = MemberData n /\ nodes (normalised n) = nodes n /\
  nInputs (normalised n) = nInputs n /\ nOutputs (normalised n) = nOutputs n /\
  nSimilar (normalised n) = nSimilar n /\
  connections (normalised n) ≡ₚ connections n /\
  (sorted n = true -> normalised n = n) /\
  (sorted n = false ->
   connections (normalised n) = SortFunc byInnovation (connections n)).
Proof.
  unfold normalised. destruct (sorted n); simpl; repeat split; auto; try discriminate.
  apply SortFunc_Permutation.
Qed.

(** The two [sortOnce] of [Distance] and [Crossover], one after the
    other: each parent is left normalised, also when both are the same
    network. *)
Lemma sortOnce_both net other n o st :
  load net st = Some n -> load other st = Some o ->
  exists st1 st2,
    sortOnce net st = Some st1 /\ sortOnce other st1 = Some st2 /\
    load net st2 = Some (normalised n) /\
    load other st2 = Some (normalised o) /\
    (forall p, p <> net -> p <> other -> load p st2 = load p st) /\
    innovationNoTracker st2 = innovationNoTracker st /\
    mutationHistory st2 = mutationHistory st /\
    testSet st2 = testSet st.
Proof.
  intros Hn Ho.
  destruct (decide (net = other)) as [<-|Hne].
  - assert (o = n) by congruence. subst o.
    eexists _, _. split; [apply sortOnce_store; exact Hn|].
    split; [apply sortOnce_store; apply load_store|].
    rewrite normalised_idem.
    rewrite !load_store. repeat split; try reflexivity.
    intros p Hp _. rewrite !load_store_ne by exact (not_eq_sym Hp). reflexivity.
  - eexists _, _. split; [apply sortOnce_store; exact Hn|].
    split; [apply sortOnce_store; rewrite load_store_ne by exact Hne; exact Ho|].
    rewrite load_store. rewrite load_store_ne by exact (not_eq_sym Hne).
    rewrite load_store. repeat split; try reflexivity.
    intros p Hp1 Hp2. rewrite !load_store_ne by (apply not_eq_sym; assumption).
    reflexivity.
Qed.

(** *** Crossover *)

(** [Crossover] returns whenever both parents are networks of the heap;
    the heap it leaves holds the child at a new address, both parents
    normalised, and every other network as it was. *)
Lemma Crossover_runs net other coin st n o :
  load net st = Some n -> load other st = Some o ->
  exists child st',
    Crossover net other coin st = Some (child, st') /\
    load child st = None /\
    load child st' = Some (offspring n o coin) /\
    load net st' = Some (normalised n) /\
    load other st' = Some (normalised o) /\
    (forall p, p <> net -> p <> other -> p <> child -> load p st' = load p st) /\
    innovationNoTracker st' = innovationNoTracker st /\
    mutationHistory st' = mutationHistory st /\
    testSet st' = testSet st.
Proof.
  intros Hn Ho. unfold Crossover. rewrite Ho, Hn. simpl.
  destruct (NewNetwork_fresh (nInputs n) (nOutputs n) st _ _ eq_refl) as [Hfresh _].
  set (child := fresh (dom (heap st))) in *.
  assert (Hcn : child <> net) by congruence.
  assert (Hco : child <> other) by congruence.
  destruct (sortOnce_both net other n o
              (store child (newNetwork (nInputs n) (nOutputs n)) st))
    as (st1 & st2 & -> & Hs2 & Hn2 & Ho2 & Hrest & Ht & Hh & Hts).
  { rewrite load_store_ne by exact Hcn. exact Hn. }
  { rewrite load_store_ne by exact Hco. exact Ho. }
  simpl. rewrite Hs2. simpl. rewrite Hn2, Ho2. simpl.
  rewrite (Hrest child Hcn Hco), load_store. simpl.
  eexists _, _. split; [reflexivity|]. split; [exact Hfresh|].
  split.
  { rewrite load_store. f_equal. unfold offspring.
    rewrite (proj1 (proj2 (normalised_fields n))). reflexivity. }
  rewrite !load_store_ne by assumption.
  split; [exact Hn2|]. split; [exact Ho2|]. split; [|auto].
  intros p Hp1 Hp2 Hp3. rewrite load_store_ne by (apply not_eq_sym; exact Hp3).
  rewrite (Hrest p Hp1 Hp2). apply load_store_ne. apply not_eq_sym. exact Hp3.
Qed.

(** *** The nodes of the child *)

Lemma length_newNetwork_nodes nInputs nOutputs :
  length (nodes (newNetwork nInputs nOutputs)) =
    (Z.to_nat nInputs + Z.to_nat nOutputs)%nat.
Proof. simpl. rewrite length_app, !length_map, !length_seqZ. reflexivity. Qed.

Lemma copy_shorter {A : Type} (dst src : list A) :
  (length dst <= length src)%nat -> copy dst src = take (length dst) src.
Proof.
  intros Hle. unfold copy. rewrite drop_ge by exact Hle. apply app_nil_r.
Qed.

(** The child's nodes are the first [nInputs + nOutputs] nodes of the
    dominant parent: all of them only when the parent has no other node. *)
Lemma Crossover_nodes net other coin st n o :
  load net st = Some n -> load other st = Some o ->
  (Z.to_nat (nInputs n) + Z.to_nat (nOutputs n) <= length (nodes n))%nat ->
  exists child st' c,
    Crossover net other coin st = Some (child, st') /\
    load child st' = Some c /\
    nodes c = take (Z.to_nat (nInputs n) + Z.to_nat (nOutputs n)) (nodes n) /\
    (length (nodes n) = (Z.to_nat (nInputs n) + Z.to_nat (nOutputs n))%nat ->
     nodes c = nodes n).
Proof.
  intros Hn Ho Hlen.
  destruct (Crossover_runs net other coin st n o Hn Ho)
    as (child & st' & Hrun & _ & Hc & _).
  exists child, st', (offspring n o coin).
  split; [exact Hrun|]. split; [exact Hc|].
  assert (Hnodes : nodes (offspring n o coin) =
            take (Z.to_nat (nInputs n) + Z.to_nat (nOutputs n)) (nodes n)).
  { unfold offspring. cbn [nodes with_nodes].
    rewrite copy_shorter; rewrite length_newNetwork_nodes; [reflexivity|exact Hlen]. }
  split; [exact Hnodes|]. intros Heq. rewrite Hnodes, <- Heq. apply firstn_all.
Qed.

(** [Crossover_nodes] on two new networks: the child has all the nodes of
    its dominant parent. *)
Lemma Crossover_nodes_witness :
  let n := newNetwork 1 1 in
  load 0%nat two_networks = Some n /\ load 1%nat two_networks = Some n /\
  (Z.to_nat (nInputs n) + Z.to_nat (nOutputs n) <= length (nodes n))%nat /\
  exists child st' c,
    Crossover 0 1 heads two_networks = Some (child, st') /\
    load child st' = Some c /\
    nodes c = take (Z.to_nat (nInputs n) + Z.to_nat (nOutputs n)) (nodes n) /\
    (length (nodes n) = (Z.to_nat (nInputs n) + Z.to_nat (nOutputs n))%nat ->
     nodes c = nodes n).
Proof.
  intros n.
  assert (H1 : load 0%nat two_networks = Some n) by (vm_compute; reflexivity).
  assert (H2 : load 1%nat two_networks = Some n) by (vm_compute; reflexivity).
  assert (H3 : (Z.to_nat (nInputs n) + Z.to_nat (nOutputs n) <= length (nodes n))%nat)
    by (vm_compute; lia).
  do 3 (split; [assumption|]).
  exact (Crossover_nodes 0 1 heads two_networks n n H1 H2 H3).
Defined.

(** With a history that was made, which the package as it is never
    does, a network can get a hidden node. [Crossover] then gives the
    child the first two of the three nodes of such a parent: [copy] fills
    the node slice that [NewNetwork] made, which has room for the input
    and output nodes only. The child inherits the connection 0 -> 2 all
    the same. *)
Lemma made_history_hidden_node_dropped :
  exists a b st child st' n c,
    parent_with_hidden_node = Some (a, b, st) /\ load a st = Some n /\
    Crossover a b heads st = Some (child, st') /\ load child st' = Some c /\
    length (nodes n) = 3%nat /\ length (nodes c) = 2%nat /\
    nodes c = take 2 (nodes n) /\ nodes c <> nodes n /\
    map endpoints (connections c) =
      [ {| senderId := 0; receiverId := 1 |}; {| senderId := 0; receiverId := 2 |};
        {| senderId := 2; receiverId := 1 |} ] /\
    nodes c !! 2%nat = None.
Proof.
  eexists _, _, _, _, _, _, _.
  split; [vm_compute; reflexivity|]. split; [vm_compute; reflexivity|].
  split; [vm_compute; reflexivity|]. split; [vm_compute; reflexivity|].
  split; [reflexivity|]. split; [reflexivity|]. split; [reflexivity|].
  split; [vm_compute; discriminate|]. split; reflexivity.
Qed.

(** *** The registry *)


(** The three ways in which [addConnection] ends without a panic: nothing
    changes; the connection recorded in the history is appended; a new
    connection is numbered, appended and recorded. *)
Lemma addConnection_cases net senderRaw receiverRaw r st st' n :
  load net st = Some n ->
  addConnection net senderRaw receiverRaw r st = Some st' ->
  st' = st \/
  exists s t senderNode receiverNode,
    0 <= s < Z.of_nat (length (nodes n)) /\ 0 <= t < Z.of_nat (length (nodes n)) /\
    nodes n !! Z.to_nat s = Some senderNode /\
    nodes n !! Z.to_nat t = Some receiverNode /\
    layer senderNode < layer receiverNode /\
    let key := {| senderId := wrap32 s; receiverId := wrap32 t |} in
    ((exists mut,
        history_lookup key st = Some mut /\ typeId mut = kind.addConn /\
        st' = store net (with_connections (connections n ++ [conn mut]) n) st) \/
     (exists h,
        mutationHistory st = Some h /\
        (forall mut, h !! key = Some mut -> typeId mut <> kind.addConn) /\
        let c := made key r (fst (getNewInnovationNumber st)) in
        st' = with_mutationHistory
                (Some (<[key := {| typeId := kind.addConn; conn := c |}]> h))
                (store net (with_connections (connections n ++ [c]) n)
                   (snd (getNewInnovationNumber st))))).
Proof.
  intros Hn. unfold addConnection. rewrite Hn. simpl.
  unfold rand_IntN.
  destruct (Z.of_nat (length (nodes n)) <=? 0) eqn:Elen; [discriminate|].
  apply Z.leb_gt in Elen. simpl.
  set (s := senderRaw mod Z.of_nat (length (nodes n))).
  set (t := receiverRaw mod Z.of_nat (length (nodes n))).
  assert (Hs : 0 <= s < Z.of_nat (length (nodes n))) by (apply Z.mod_pos_bound; lia).
  assert (Ht : 0 <= t < Z.of_nat (length (nodes n))) by (apply Z.mod_pos_bound; lia).
  destruct (s =? t); [intros [= <-]; left; reflexivity|].
  destruct (nodes n !! Z.to_nat s) as [senderNode|] eqn:Esn; [|discriminate].
  destruct (nodes n !! Z.to_nat t) as [receiverNode|] eqn:Ern; [|discriminate].
  simpl.
  destruct (layer receiverNode <=? layer senderNode) eqn:El;
    [intros [= <-]; left; reflexivity|].
  apply Z.leb_gt in El.
  destruct (existsb _ (connections n)); [intros [= <-]; left; reflexivity|].
  intros Hrun. right. exists s, t, senderNode, receiverNode.
  do 5 (split; [assumption|]). cbv zeta.
  set (key := {| senderId := wrap32 s; receiverId := wrap32 t |}) in *.
  assert (Hfresh : forall h0,
            mutationHistory st = Some h0 ->
            (forall mut, h0 !! key = Some mut -> typeId mut <> kind.addConn) ->
            (let '(innovation, st1) := getNewInnovationNumber st in
             history_store key
               {| typeId := kind.addConn; conn := made key r innovation |}
               (store net (with_connections
                             (connections n ++ [made key r innovation]) n) st1))
            = Some st' ->
            exists h, mutationHistory st = Some h /\
              (forall mut, h !! key = Some mut -> typeId mut <> kind.addConn) /\
              st' = with_mutationHistory
                (Some (<[key := {| typeId := kind.addConn;
                                   conn := made key r (fst (getNewInnovationNumber st)) |}]> h))
                (store net (with_connections
                   (connections n ++ [made key r (fst (getNewInnovationNumber st))]) n)
                   (snd (getNewInnovationNumber st)))).
  { intros h0 Hh0 Hkind. destruct (getNewInnovationNumber st) as [innovation st1] eqn:Eg.
    assert (Hh1 : mutationHistory st1 = Some h0).
    { unfold getNewInnovationNumber in Eg. injection Eg as _ <-. exact Hh0. }
    unfold history_store. simpl. rewrite Hh1. intros [= <-].
    exists h0. auto. }
  unfold history_lookup in *.
  destruct (mutationHistory st) as [h|] eqn:Eh.
  - destruct (h !! key) as [mut|] eqn:Ek.
    + destruct (typeId mut =? kind.addConn) eqn:Et.
      * apply Z.eqb_eq in Et. left. exists mut. injection Hrun as <-. auto.
      * apply Z.eqb_neq in Et. right. apply (Hfresh h eq_refl); [|exact Hrun].
        intros mut' Hm. assert (mut' = mut) by congruence. subst. exact Et.
    + right. apply (Hfresh h eq_refl); [|exact Hrun]. intros mut' Hm. congruence.
  - exfalso. unfold history_store, getNewInnovationNumber in Hrun.
    simpl in Hrun. rewrite Eh in Hrun. discriminate.
Qed.

Lemma addNode_fresh_spec net n1 key1 key2 r1 r2 st st' :
  addNode_fresh net n1 key1 key2 r1 r2 st = Some st' ->
  exists h,
    mutationHistory st = Some h /\
    let c1 := made key1 r1 (fst (getNewInnovationNumber st)) in
    let c2 := made key2 r2
                (fst (getNewInnovationNumber (snd (getNewInnovationNumber st)))) in
    st' = with_mutationHistory
            (Some (<[key2 := {| typeId := kind.addNode; conn := c2 |}]>
                     (<[key1 := {| typeId := kind.addNode; conn := c1 |}]> h)))
            (store net (with_connections (connections n1 ++ [c1; c2]) n1)
               (snd (getNewInnovationNumber (snd (getNewInnovationNumber st))))).
Proof.
  unfold addNode_fresh, history_store, getNewInnovationNumber. simpl.
  destruct (mutationHistory st) as [h|]; [|discriminate]. simpl.
  intros [= <-]. exists h. split; reflexivity.
Qed.

(** The three ways in which [addNode] ends without a panic: nothing
    changes; the node is added with the pair of connections recorded in
    the history; the node is added with two newly numbered connections,
    which are recorded. *)
Lemma addNode_cases net connRaw r1 r2 st st' n :
  load net st = Some n ->
  addNode net connRaw r1 r2 st = Some st' ->
  st' = st \/
  exists connRef senderNode,
    connections n !! Z.to_nat (connRaw mod Z.of_nat (length (connections n)))
      = Some connRef /\
    enabled connRef = true /\
    nodes n !! Z.to_nat (senderId (endpoints connRef)) = Some senderNode /\
    wrap32 (layer senderNode + 1) < maxDepth /\
    let newNode := {| id := wrap32 (Z.of_nat (length (nodes n)));
                      layer := wrap32 (layer senderNode + 1);
                      activation := TanhActivation |} in
    let key1 := {| senderId := senderId (endpoints connRef); receiverId := id newNode |} in
    let key2 := {| senderId := id newNode; receiverId := receiverId (endpoints connRef) |} in
    let n1 := with_nodes (nodes n ++ [newNode]) n in
    ((exists mut1 mut2,
        history_lookup key1 st = Some mut1 /\ history_lookup key2 st = Some mut2 /\
        typeId mut1 = kind.addNode /\ typeId mut2 = kind.addNode /\
        st' = store net (with_connections
                           (connections n1 ++ [conn mut1; conn mut2]) n1) st) \/
     ((forall mut1 mut2,
         history_lookup key1 st = Some mut1 -> history_lookup key2 st = Some mut2 ->
         ~ (typeId mut1 = kind.addNode /\ typeId mut2 = kind.addNode)) /\
      addNode_fresh net n1 key1 key2 r1 r2 st = Some st')).
Proof.
  intros Hn. unfold addNode. rewrite Hn. simpl. unfold rand_IntN.
  destruct (Z.of_nat (length (connections n)) <=? 0); [discriminate|]. simpl.
  destruct (connections n !! _) as [connRef|] eqn:Ec; [|discriminate]. simpl.
  destruct (enabled connRef) eqn:Een; simpl; [|intros [= <-]; left; reflexivity].
  destruct (nodes n !! _) as [senderNode|] eqn:Esn; [|discriminate]. simpl.
  destruct (maxDepth <=? wrap32 (layer senderNode + 1)) eqn:Ed;
    [intros [= <-]; left; reflexivity|].
  apply Z.leb_gt in Ed. intros Hrun. right. exists connRef, senderNode.
  split; [reflexivity|].
  do 3 (split; [assumption|]). cbv zeta.
  destruct (history_lookup _ st) as [mut1|] eqn:E1.
  - destruct (history_lookup {| senderId := wrap32 _ |} st) as [mut2|] eqn:E2.
    + destruct (typeId mut1 =? kind.addNode) eqn:T1;
        [destruct (typeId mut2 =? kind.addNode) eqn:T2|]; simpl in Hrun.
      * apply Z.eqb_eq in T1, T2. left. exists mut1, mut2.
        injection Hrun as <-. auto.
      * apply Z.eqb_neq in T2. right. split; [|exact Hrun].
        intros m1 m2 [= <-] [= <-] [_ ?]. contradiction.
      * apply Z.eqb_neq in T1. right. split; [|exact Hrun].
        intros m1 m2 [= <-] [= <-] [? _]. contradiction.
    + right. split; [|exact Hrun]. intros m1 m2 _ Hm. discriminate.
  - right. split; [|exact Hrun]. intros m1 m2 Hm. discriminate.
Qed.

Lemma Distance_globals net other st d st' :
  Distance net other st = Some (d, st') ->
  innovationNoTracker st' = innovationNoTracker st /\
  mutationHistory st' = mutationHistory st /\ testSet st' = testSet st.
Proof.
  unfold Distance.
  destruct (load net st) as [n|] eqn:Hn; [|discriminate].
  destruct (load other st) as [o|] eqn:Ho; [|discriminate]. simpl.
  destruct (sortOnce_both net other n o st Hn Ho)
    as (st1 & st2 & -> & Hs2 & Hn2 & Ho2 & _ & Ht & Hh & Hts).
  simpl. rewrite Hs2. simpl. rewrite Hn2, Ho2. simpl.
  match goal with |- context [if ?b then _ else _] => destruct b end;
    intros [= _ <-]; auto.
Qed.


Section Registry.
Variables math_Tanh math_Exp : float64 -> float64.
Variable math_Pow : float64 -> float64 -> float64.
Variable uint32_of_float64 : float64 -> Z.




End Registry.

Lemma not_appended_same net st c cs : ~ appended net st st (c :: cs).
Proof.
  intros (n & n' & Hn & Hn' & Heq). assert (n' = n) by congruence. subst.
  apply (f_equal length) in Heq. rewrite length_app in Heq. simpl in Heq. lia.
Qed.

Lemma appended_inj net st st' cs cs' n n' :
  appended net st st' cs' ->
  load net st = Some n -> load net st' = Some n' ->
  connections n' = connections n ++ cs -> cs' = cs.
Proof.
  intros (n0 & n0' & Hn0 & Hn0' & Heq) Hn Hn' Hcs.
  assert (n0 = n) by congruence. assert (n0' = n') by congruence. subst.
  rewrite Hcs in Heq. apply app_inv_head in Heq. congruence.
Qed.

Lemma history_lookup_store key net n st :
  history_lookup key (store net n st) = history_lookup key st.
Proof. reflexivity. Qed.

Lemma addConnection_records net senderRaw receiverRaw r st st' c :
  history_sound st ->
  addConnection net senderRaw receiverRaw r st = Some st' ->
  appended net st st' [c] ->
  recorded kind.addConn c st' /\ history_sound st'.
Proof.
  intros Hsound Hrun Happ. pose proof Happ as (n & n' & Hn & Hn' & Heq).
  destruct (addConnection_cases _ _ _ _ _ _ _ Hn Hrun)
    as [->|(s & t & sn & rn & _ & _ & _ & _ & _ & [(mut & Hl & Hk & ->)|(h & Hh & Hnot & ->)])].
  - exfalso. eapply not_appended_same. exact Happ.
  - assert (Hc : [c] = [conn mut]).
    { eapply (appended_inj _ _ _ _ _ _ _ Happ Hn); [apply load_store|reflexivity]. }
    injection Hc as ->. split; [|exact Hsound].
    exists mut. rewrite history_lookup_store.
    rewrite (Hsound _ _ Hl). auto.
  - cbv zeta in Happ.
    set (key := {| senderId := wrap32 s; receiverId := wrap32 t |}) in *.
    set (c0 := made key r (fst (getNewInnovationNumber st))) in *.
    assert (Hc : [c] = [c0]).
    { eapply (appended_inj _ _ _ _ _ _ _ Happ Hn); [apply load_store|reflexivity]. }
    injection Hc as ->. split.
    + exists {| typeId := kind.addConn; conn := c0 |}.
      unfold history_lookup. simpl. rewrite lookup_insert_eq. auto.
    + intros k mut. unfold history_lookup. simpl.
      destruct (decide (key = k)) as [<-|Hne].
      * rewrite lookup_insert_eq. intros [= <-]. reflexivity.
      * rewrite lookup_insert_ne by exact Hne. intros Hl.
        apply Hsound. unfold history_lookup. rewrite Hh. exact Hl.
Qed.

Lemma addNode_records net connRaw r1 r2 st st' c1 c2 n :
  history_sound st -> load net st = Some n ->
  Z.of_nat (length (nodes n)) < 2 ^ 32 ->
  addNode net connRaw r1 r2 st = Some st' ->
  appended net st st' [c1; c2] ->
  recorded kind.addNode c1 st' /\ recorded kind.addNode c2 st' /\ history_sound st'.
Proof.
  intros Hsound Hn Hlen Hrun Happ.
  destruct (addNode_cases _ _ _ _ _ _ _ Hn Hrun)
    as [->|(connRef & sn & _ & _ & Hsn & _ &
            [(m1 & m2 & Hl1 & Hl2 & Hk1 & Hk2 & ->)|(_ & Hfresh)])].
  - exfalso. eapply not_appended_same. exact Happ.
  - assert (Hc : [c1; c2] = [conn m1; conn m2]).
    { eapply (appended_inj _ _ _ _ _ _ _ Happ Hn); [apply load_store|reflexivity]. }
    injection Hc as -> ->. split; [|split; [|exact Hsound]].
    + exists m1. rewrite history_lookup_store, (Hsound _ _ Hl1). auto.
    + exists m2. rewrite history_lookup_store, (Hsound _ _ Hl2). auto.
  - apply addNode_fresh_spec in Hfresh as (h & Hh & ->). cbv zeta in Happ.
    match type of Happ with
    | context [<[?k2 := {| typeId := _; conn := ?b |}]>
                 (<[?k1 := {| typeId := _; conn := ?a |}]> h)] =>
        set (key1 := k1) in *; set (key2 := k2) in *;
        set (a1 := a) in *; set (a2 := b) in *
    end.
    assert (Hc : [c1; c2] = [a1; a2]).
    { eapply (appended_inj _ _ _ _ _ _ _ Happ Hn); [apply load_store|reflexivity]. }
    injection Hc as -> ->.
    assert (Hne : key1 <> key2).
    { unfold key1, key2. intros [= Hs Hr].
      apply lookup_lt_Some in Hsn.
      unfold wrap32 in Hs. rewrite Z.mod_small in Hs by lia. lia. }
    split; [|split].
    + exists {| typeId := kind.addNode; conn := a1 |}.
      unfold history_lookup. simpl.
      rewrite lookup_insert_ne by (apply not_eq_sym; exact Hne).
      rewrite lookup_insert_eq. auto.
    + exists {| typeId := kind.addNode; conn := a2 |}.
      unfold history_lookup. simpl. rewrite lookup_insert_eq. auto.
    + intros k mut. unfold history_lookup. simpl.
      destruct (decide (key2 = k)) as [<-|Hne2].
      * rewrite lookup_insert_eq. intros [= <-]. reflexivity.
      * rewrite lookup_insert_ne by exact Hne2.
        destruct (decide (key1 = k)) as [<-|Hne1].
        -- rewrite lookup_insert_eq. intros [= <-]. reflexivity.
        -- rewrite lookup_insert_ne by exact Hne1. intros Hl.
           apply Hsound. unfold history_lookup. rewrite Hh. exact Hl.
Qed.

Lemma addConnection_reuses net senderRaw receiverRaw r st st' c c' :
  history_sound st -> recorded kind.addConn c st ->
  addConnection net senderRaw receiverRaw r st = Some st' ->
  appended net st st' [c'] -> endpoints c' = endpoints c ->
  c' = c /\ innovationNoTracker st' = innovationNoTracker st.
Proof.
  intros Hsound (m & Hm & Hmk & Hmc) Hrun Happ Hends.
  pose proof Happ as (n & n' & Hn & Hn' & Heq).
  destruct (addConnection_cases _ _ _ _ _ _ _ Hn Hrun)
    as [->|(s & t & sn & rn & _ & _ & _ & _ & _ & [(mut & Hl & Hk & ->)|(h & Hh & Hnot & ->)])].
  - exfalso. eapply not_appended_same. exact Happ.
  - assert (Hc : [c'] = [conn mut]).
    { eapply (appended_inj _ _ _ _ _ _ _ Happ Hn); [apply load_store|reflexivity]. }
    injection Hc as ->. split; [|reflexivity].
    rewrite (Hsound _ _ Hl) in Hends. rewrite Hends in Hl. congruence.
  - exfalso. cbv zeta in Happ.
    set (key := {| senderId := wrap32 s; receiverId := wrap32 t |}) in *.
    assert (Hc : [c'] = [made key r (fst (getNewInnovationNumber st))]).
    { eapply (appended_inj _ _ _ _ _ _ _ Happ Hn); [apply load_store|reflexivity]. }
    injection Hc as ->. simpl in Hends. rewrite <- Hends in Hm.
    unfold history_lookup in Hm. rewrite Hh in Hm.
    exact (Hnot _ Hm Hmk).
Qed.

Lemma addNode_reuses net connRaw r1 r2 st st' c1 c2 c1' c2' :
  history_sound st ->
  recorded kind.addNode c1 st -> recorded kind.addNode c2 st ->
  addNode net connRaw r1 r2 st = Some st' ->
  appended net st st' [c1'; c2'] ->
  endpoints c1' = endpoints c1 -> endpoints c2' = endpoints c2 ->
  c1' = c1 /\ c2' = c2 /\ innovationNoTracker st' = innovationNoTracker st.
Proof.
  intros Hsound (m1 & Hm1 & Hk1 & Hc1) (m2 & Hm2 & Hk2 & Hc2) Hrun Happ He1 He2.
  pose proof Happ as (n & n' & Hn & Hn' & Heq).
  destruct (addNode_cases _ _ _ _ _ _ _ Hn Hrun)
    as [->|(connRef & sn & _ & _ & Hsn & _ &
            [(x1 & x2 & Hl1 & Hl2 & Hx1 & Hx2 & ->)|(Hnot & Hfresh)])].
  - exfalso. eapply not_appended_same. exact Happ.
  - assert (Hc : [c1'; c2'] = [conn x1; conn x2]).
    { eapply (appended_inj _ _ _ _ _ _ _ Happ Hn); [apply load_store|reflexivity]. }
    injection Hc as -> ->. split; [|split; [|reflexivity]].
    + rewrite (Hsound _ _ Hl1) in He1. rewrite He1 in Hl1. congruence.
    + rewrite (Hsound _ _ Hl2) in He2. rewrite He2 in Hl2. congruence.
  - exfalso. pose proof Hfresh as Hf.
    apply addNode_fresh_spec in Hf as (h & Hh & ->). cbv zeta in Happ.
    match type of Happ with
    | context [<[?k2 := {| typeId := _; conn := ?b |}]>
                 (<[?k1 := {| typeId := _; conn := ?a |}]> h)] =>
        set (key1 := k1) in *; set (key2 := k2) in *;
        set (a1 := a) in *; set (a2 := b) in *
    end.
    assert (Hc : [c1'; c2'] = [a1; a2]).
    { eapply (appended_inj _ _ _ _ _ _ _ Happ Hn); [apply load_store|reflexivity]. }
    injection Hc as -> ->. simpl in He1, He2.
    rewrite <- He1 in Hm1. rewrite <- He2 in Hm2.
    exact (Hnot _ _ Hm1 Hm2 (conj Hk1 Hk2)).
Qed.

Lemma history_sound_empty st : mutationHistory st = Some ∅ -> history_sound st.
Proof.
  intros Hh key mut. unfold history_lookup. rewrite Hh, lookup_empty. discriminate.
Qed.

Lemma forward_nodes n n' c : nodes n' = nodes n -> forward n c -> forward n' c.
Proof. unfold forward. intros ->. auto. Qed.

Lemma forward_endpoints n c c' : endpoints c' = endpoints c -> forward n c -> forward n c'.
Proof. unfold forward. intros ->. auto. Qed.

Lemma feedForward_append n c :
  feedForward n -> forward n c ->
  feedForward (with_connections (connections n ++ [c]) n).
Proof.
  intros Hn Hc. unfold feedForward. simpl. apply Forall_app. split.
  - eapply Forall_impl; [exact Hn|]. intros c0. apply forward_nodes. reflexivity.
  - constructor; [|constructor]. eapply forward_nodes; [|exact Hc]. reflexivity.
Qed.

(** [addConnection] keeps the connections of a network forward. *)
Lemma addConnection_feedForward net senderRaw receiverRaw r st st' n :
  history_sound st -> load net st = Some n ->
  Z.of_nat (length (nodes n)) <= 2 ^ 32 -> feedForward n ->
  addConnection net senderRaw receiverRaw r st = Some st' ->
  exists n', load net st' = Some n' /\ feedForward n'.
Proof.
  intros Hsound Hn Hlen Hff Hrun.
  destruct (addConnection_cases _ _ _ _ _ _ _ Hn Hrun)
    as [->|(s & t & sn & rn & Hs & Ht & Hsn & Hrn & Hlt &
            [(mut & Hl & Hk & ->)|(h & Hh & Hnot & ->)])].
  - eauto.
  - eexists. split; [apply load_store|]. apply feedForward_append; [exact Hff|].
    exists sn, rn. rewrite (Hsound _ _ Hl). simpl.
    unfold wrap32. rewrite !Z.mod_small by lia. auto.
  - eexists. split; [apply load_store|]. apply feedForward_append; [exact Hff|].
    exists sn, rn. simpl. unfold wrap32. rewrite !Z.mod_small by lia. auto.
Qed.

Lemma Forall_imap_endpoints n (f : nat -> connection -> connection) l :
  (forall i c, endpoints (f i c) = endpoints c) ->
  Forall (forward n) l -> Forall (forward n) (imap f l).
Proof.
  intros Hf Hl. revert f Hf. induction Hl as [|c l Hc Hl IH]; intros f Hf; simpl.
  - constructor.
  - constructor.
    + eapply forward_endpoints; [apply Hf|exact Hc].
    + apply IH. intros i c0. apply Hf.
Qed.

(** [mutateWeights] keeps the connections of a network forward. *)
Lemma mutateWeights_feedForward net chance r st st' n :
  load net st = Some n -> feedForward n ->
  mutateWeights net chance r st = Some st' ->
  exists n', load net st' = Some n' /\ feedForward n'.
Proof.
  intros Hn Hff. unfold mutateWeights. rewrite Hn. simpl. intros [= <-].
  eexists. split; [apply load_store|]. unfold feedForward. simpl.
  apply Forall_imap_endpoints.
  - intros i c. destruct (f32_ltb _ _); reflexivity.
  - eapply Forall_impl; [exact Hff|]. intros c. apply forward_nodes. reflexivity.
Qed.

Lemma forward_more_nodes n c extra :
  forward n c -> forward (with_nodes (nodes n ++ extra) n) c.
Proof.
  intros (s & r & Hs & Hr & Hlt). exists s, r. simpl.
  rewrite !lookup_app_l by (eapply lookup_lt_Some; eassumption). auto.
Qed.

(** [addNode] keeps the connections of a network forward when the
    connection it splits goes up by more than one layer. *)
Lemma addNode_feedForward net connRaw r1 r2 st st' n :
  history_sound st -> load net st = Some n ->
  Z.of_nat (length (nodes n)) < 2 ^ 32 ->
  Forall (fun node => 0 <= layer node <= maxDepth) (nodes n) ->
  feedForward n ->
  (forall c s r,
      connections n !! Z.to_nat (connRaw mod Z.of_nat (length (connections n))) = Some c ->
      nodes n !! Z.to_nat (senderId (endpoints c)) = Some s ->
      nodes n !! Z.to_nat (receiverId (endpoints c)) = Some r ->
      layer s + 1 < layer r) ->
  addNode net connRaw r1 r2 st = Some st' ->
  exists n', load net st' = Some n' /\ feedForward n'.
Proof.
  intros Hsound Hn Hlen Hlayers Hff Hgap Hrun.
  destruct (addNode_cases _ _ _ _ _ _ _ Hn Hrun)
    as [->|(connRef & sn & Hpick & _ & Hsn & Hdepth & Hcases)]; [eauto|].
  destruct (Forall_lookup_1 _ _ _ _ Hff Hpick) as (s & r & Hs & Hr & Hlt).
  assert (s = sn) by congruence. subst s.
  pose proof (Hgap _ _ _ Hpick Hsn Hr) as Hg.
  pose proof (Forall_lookup_1 _ _ _ _ Hlayers Hsn) as Hsl. simpl in Hsl.
  unfold maxDepth in *.
  assert (Hw : wrap32 (layer sn + 1) = layer sn + 1)
    by (unfold wrap32; apply Z.mod_small; lia).
  assert (Hid : wrap32 (Z.of_nat (length (nodes n))) = Z.of_nat (length (nodes n)))
    by (unfold wrap32; apply Z.mod_small; lia).
  cbv zeta in Hcases. rewrite Hw, Hid in Hcases.
  set (newNode := {| id := Z.of_nat (length (nodes n)); layer := layer sn + 1;
                     activation := TanhActivation |}) in *.
  set (n1 := with_nodes (nodes n ++ [newNode]) n) in *.
  assert (Hnew : nodes n1 !! Z.to_nat (Z.of_nat (length (nodes n))) = Some newNode).
  { simpl. rewrite Nat2Z.id, lookup_app_r by lia. rewrite Nat.sub_diag. reflexivity. }
  assert (Hsn1 : nodes n1 !! Z.to_nat (senderId (endpoints connRef)) = Some sn).
  { simpl. rewrite lookup_app_l by (eapply lookup_lt_Some; eassumption). exact Hsn. }
  assert (Hr1 : nodes n1 !! Z.to_nat (receiverId (endpoints connRef)) = Some r).
  { simpl. rewrite lookup_app_l by (eapply lookup_lt_Some; eassumption). exact Hr. }
  assert (Hold : Forall (forward n1) (connections n)).
  { eapply Forall_impl; [exact Hff|]. intros c. apply forward_more_nodes. }
  assert (Hgoal : forall c1 c2,
             endpoints c1 = {| senderId := senderId (endpoints connRef);
                               receiverId := Z.of_nat (length (nodes n)) |} ->
             endpoints c2 = {| senderId := Z.of_nat (length (nodes n));
                               receiverId := receiverId (endpoints connRef) |} ->
             feedForward (with_connections (connections n1 ++ [c1; c2]) n1)).
  { intros c1 c2 He1 He2. unfold feedForward. cbn [connections with_connections].
    apply Forall_app. split.
    - eapply Forall_impl; [exact Hold|]. intros c. apply forward_nodes. reflexivity.
    - constructor; [|constructor; [|constructor]].
      + exists sn, newNode. rewrite He1. cbn [senderId receiverId nodes with_connections].
        split; [exact Hsn1|]. split; [exact Hnew|]. simpl. lia.
      + exists newNode, r. rewrite He2. cbn [senderId receiverId nodes with_connections].
        split; [exact Hnew|]. split; [exact Hr1|]. simpl. lia. }
  destruct Hcases as [(m1 & m2 & Hl1 & Hl2 & _ & _ & ->)|(_ & Hfresh)].
  - eexists. split; [apply load_store|]. apply Hgoal.
    + exact (Hsound _ _ Hl1).
    + exact (Hsound _ _ Hl2).
  - apply addNode_fresh_spec in Hfresh as (h & _ & ->).
    eexists. split; [apply load_store|]. apply Hgoal; reflexivity.
Qed.

(** [addConnection_feedForward] on a new network that adds 0 -> 1. *)
Lemma addConnection_feedForward_witness :
  let n := newNetwork 1 1 in
  let st' := default two_networks (addConnection 0 0 1 (f64_of_Z 0) two_networks) in
  history_sound two_networks /\ load 0%nat two_networks = Some n /\
  Z.of_nat (length (nodes n)) <= 2 ^ 32 /\ feedForward n /\
  addConnection 0 0 1 (f64_of_Z 0) two_networks = Some st' /\
  exists n', load 0%nat st' = Some n' /\ feedForward n'.
Proof.
  intros n st'.
  assert (H1 : history_sound two_networks) by (apply history_sound_empty; reflexivity).
  assert (H2 : load 0%nat two_networks = Some n) by (vm_compute; reflexivity).
  assert (H3 : Z.of_nat (length (nodes n)) <= 2 ^ 32) by (vm_compute; discriminate).
  assert (H4 : feedForward n) by constructor.
  assert (H5 : addConnection 0 0 1 (f64_of_Z 0) two_networks = Some st')
    by (vm_compute; reflexivity).
  do 5 (split; [assumption|]).
  exact (addConnection_feedForward 0 0 1 (f64_of_Z 0) two_networks st' n H1 H2 H3 H4 H5).
Defined.

(** [mutateWeights_feedForward] on a network with the connection 0 -> 1. *)
Lemma mutateWeights_feedForward_witness :
  let st := default two_networks (addConnection 0 0 1 (f64_of_Z 0) two_networks) in
  let n := default (newNetwork 1 1) (load 0%nat st) in
  let st' := default st (mutateWeights 0 heads (fun _ => f64_of_Z 0) st) in
  load 0%nat st = Some n /\ feedForward n /\
  mutateWeights 0 heads (fun _ => f64_of_Z 0) st = Some st' /\
  exists n', load 0%nat st' = Some n' /\ feedForward n'.
Proof.
  intros st n st'.
  assert (H1 : load 0%nat st = Some n) by (vm_compute; reflexivity).
  assert (H2 : feedForward n).
  { assert (Hc : connections n = [made {| senderId := 0; receiverId := 1 |} (f64_of_Z 0) 0])
      by (vm_compute; reflexivity).
    unfold feedForward. rewrite Hc. repeat constructor.
    eexists _, _. split; [vm_compute; reflexivity|].
    split; [vm_compute; reflexivity|]. vm_compute. reflexivity. }
  assert (H3 : mutateWeights 0 heads (fun _ => f64_of_Z 0) st = Some st')
    by (vm_compute; reflexivity).
  do 3 (split; [assumption|]).
  exact (mutateWeights_feedForward 0 heads (fun _ => f64_of_Z 0) st st' n H1 H2 H3).
Defined.

(** [addNode_feedForward] on a network that splits 0 -> 1, from layer 0 to
    layer 20. *)
Lemma addNode_feedForward_witness :
  let z := f64_of_Z 0 in
  let st := clearMutationHistory
              (default two_networks (addConnection 0 0 1 z two_networks)) in
  let n := default (newNetwork 1 1) (load 0%nat st) in
  let st' := default st (addNode 0 0 z z st) in
  history_sound st /\ load 0%nat st = Some n /\
  Z.of_nat (length (nodes n)) < 2 ^ 32 /\
  Forall (fun node => 0 <= layer node <= maxDepth) (nodes n) /\
  feedForward n /\
  addNode 0 0 z z st = Some st' /\
  exists n', load 0%nat st' = Some n' /\ feedForward n'.
Proof.
  intros z st n st'.
  assert (H1 : history_sound st) by (apply history_sound_empty; vm_compute; reflexivity).
  assert (H2 : load 0%nat st = Some n) by (vm_compute; reflexivity).
  assert (H3 : Z.of_nat (length (nodes n)) < 2 ^ 32) by (vm_compute; reflexivity).
  assert (Hnodes : nodes n = nodes (newNetwork 1 1)) by (vm_compute; reflexivity).
  assert (Hconns : connections n = [made {| senderId := 0; receiverId := 1 |} z 0])
    by (vm_compute; reflexivity).
  assert (H4 : Forall (fun node => 0 <= layer node <= maxDepth) (nodes n)).
  { rewrite Hnodes. repeat constructor; vm_compute; discriminate. }
  assert (H5 : feedForward n).
  { unfold feedForward. rewrite Hconns. repeat constructor.
    eexists _, _. split; [vm_compute; reflexivity|].
    split; [vm_compute; reflexivity|]. vm_compute. reflexivity. }
  assert (H6 : forall c s r,
             connections n !! Z.to_nat (0 mod Z.of_nat (length (connections n))) = Some c ->
             nodes n !! Z.to_nat (senderId (endpoints c)) = Some s ->
             nodes n !! Z.to_nat (receiverId (endpoints c)) = Some r ->
             layer s + 1 < layer r).
  { intros c s r Hc. rewrite Hconns in Hc. vm_compute in Hc. injection Hc as <-.
    rewrite Hnodes. intros Hs Hr. vm_compute in Hs, Hr.
    injection Hs as <-. injection Hr as <-. vm_compute. reflexivity. }
  assert (H7 : addNode 0 0 z z st = Some st') by (vm_compute; reflexivity).
  do 6 (split; [assumption|]).
  exact (addNode_feedForward 0 0 z z st st' n H1 H2 H3 H4 H5 H6 H7).
Defined.

(** With a history that was made, which the package as it is never
    does, [addNode] can split a connection whose two ends are one layer
    apart. A network of one input and one output adds the connection
    0 -> 1 and splits it with node 2, placed at layer 1; until then every
    connection goes to a higher layer. It then splits the connection
    0 -> 2 with node 3, placed at layer 1 too: the new connection 3 -> 2
    joins two nodes of layer 1. *)
Lemma made_history_same_layer_connection :
  let z := f64_of_Z 0 in
  let st1 := snd (NewNetwork 1 1 empty_state) in
  let st2 := default st1 (addConnection 0 0 1 z st1) in
  let st3 := default st2 (addNode 0 0 z z st2) in
  let st4 := default st3 (addNode 0 1 z z st3) in
  let n3 := default (newNetwork 1 1) (load 0%nat st3) in
  let n4 := default (newNetwork 1 1) (load 0%nat st4) in
  addConnection 0 0 1 z st1 = Some st2 /\
  addNode 0 0 z z st2 = Some st3 /\
  addNode 0 1 z z st3 = Some st4 /\
  load 0%nat st3 = Some n3 /\ load 0%nat st4 = Some n4 /\
  feedForward n3 /\
  map endpoints (connections n4) =
    [ {| senderId := 0; receiverId := 1 |}; {| senderId := 0; receiverId := 2 |};
      {| senderId := 2; receiverId := 1 |}; {| senderId := 0; receiverId := 3 |};
      {| senderId := 3; receiverId := 2 |} ] /\
  map layer (nodes n4) = [0; 20; 1; 1] /\
  ~ feedForward n4.
Proof.
  intros z st1 st2 st3 st4 n3 n4.
  split; [vm_compute; reflexivity|]. split; [vm_compute; reflexivity|].
  split; [vm_compute; reflexivity|]. split; [vm_compute; reflexivity|].
  split; [vm_compute; reflexivity|]. split; [|split; [vm_compute; reflexivity|split]].
  - unfold feedForward.
    assert (Hc : connections n3 =
              [ made {| senderId := 0; receiverId := 1 |} z 0;
                made {| senderId := 0; receiverId := 2 |} z 1;
                made {| senderId := 2; receiverId := 1 |} z 2 ])
      by (vm_compute; reflexivity).
    rewrite Hc.
    repeat constructor; eexists _, _;
      (split; [vm_compute; reflexivity|split; [vm_compute; reflexivity|]]);
      vm_compute; reflexivity.
  - vm_compute. reflexivity.
  - intros Hff.
    assert (Hc : connections n4 !! 4%nat =
              Some (made {| senderId := 3; receiverId := 2 |} z 4))
      by (vm_compute; reflexivity).
    destruct (Forall_lookup_1 _ _ _ _ Hff Hc) as (s & t & Hs & Ht & Hlt).
    vm_compute in Hs, Ht. injection Hs as <-. injection Ht as <-.
    vm_compute in Hlt. discriminate.
Qed.

(** *** Distance between networks without connections *)

Lemma normalised_empty n : connections n = [] -> connections (normalised n) = [].
Proof.
  intros Hc. unfold normalised. destruct (sorted n); [exact Hc|].
  simpl. rewrite Hc. reflexivity.
Qed.

(** The distance that the formula of [Distance] gives for one excess, no
    disjoint and no matching connection, [N] being 1. *)
Lemma distance_of_one_excess :
  f64_add (f64_add (f64_div (f64_mul (f64_of_Z 1) (f64_of_Z 1)) (f64_of_Z 1))
                   (f64_div (f64_mul (f64_of_Z 1) (f64_of_Z 0)) (f64_of_Z 1)))
          (f64_mul (f64_const 4 10) (f64_of_Z 0)) = f64_of_Z 1 /\
  f64_ltb (f64_of_Z 1) (f64_const 3 10) = false.
Proof. split; vm_compute; reflexivity. Qed.

Lemma Distance_empty net other st n o :
  load net st = Some n -> load other st = Some o ->
  connections n = [] -> connections o = [] ->
  exists st',
    Distance net other st = Some (f64_of_Z 1, st') /\
    load net st' = Some (normalised n) /\
    load other st' = Some (normalised o) /\
    (forall p, p <> net -> p <> other -> load p st' = load p st) /\
    innovationNoTracker st' = innovationNoTracker st /\
    mutationHistory st' = mutationHistory st /\
    testSet st' = testSet st.
Proof.
  intros Hn Ho Hcn Hco. unfold Distance. rewrite Hn, Ho. cbn [mbind option_bind].
  destruct (sortOnce_both net other n o st Hn Ho)
    as (st1 & st2 & -> & Hs2 & Hn2 & Ho2 & Hrest).
  cbn [mbind option_bind]. rewrite Hs2. cbn [mbind option_bind].
  rewrite Hn2, Ho2. cbn [mbind option_bind].
  rewrite Hcn, Hco, (normalised_empty n Hcn), (normalised_empty o Hco).
  change (fold_left (compareAt [] []) (seq 0 (Z.to_nat (if Z.of_nat (length (@nil connection)) `max` Z.of_nat (length (@nil connection)) <? 20 then 1 else Z.of_nat (length (@nil connection)) `max` Z.of_nat (length (@nil connection)))))
            {| M := 0; E := 0; D := 0; weightsDiff := f64_of_Z 0 |})
    with {| M := 0; E := 1; D := 0; weightsDiff := f64_of_Z 0 |}.
  cbn [M E D weightsDiff].
  change (0 <? 0) with false. cbv iota.
  change (if Z.of_nat (length (@nil connection)) `max` Z.of_nat (length (@nil connection)) <? 20
          then 1 else Z.of_nat (length (@nil connection)) `max` Z.of_nat (length (@nil connection)))
    with 1.
  destruct distance_of_one_excess as [-> ->].
  exists st2. split; [reflexivity|]. split; [exact Hn2|]. split; [exact Ho2|exact Hrest].
Qed.

Lemma f64_div_zero x : nonfinite (f64_div x (f64_of_Z 0)).
Proof.
  change (f64_of_Z 0) with (S754_zero false). unfold nonfinite, f64_div.
  destruct x; simpl; eauto.
Qed.

Section Fitness.
Variables math_Tanh math_Exp : float64 -> float64.
Variable math_Pow : float64 -> float64 -> float64.
Variable uint32_of_float64 : float64 -> Z.

(** What [ComputeAndSetFitnessScore] stores: the conversion of the
    adjusted fitness. Only the fitness score changes in the network. *)
Lemma ComputeAndSetFitnessScore_stores net st st' n :
  load net st = Some n ->
  ComputeAndSetFitnessScore math_Tanh math_Exp math_Pow uint32_of_float64 net st = Some st' ->
  exists fitness n',
    load net st' = Some n' /\
    ga.FitnessScore (MemberData n') =
      uint32_of_float64 (adjustedFitness fitness (nSimilar n)) /\
    connections n' = connections n /\ nSimilar n' = nSimilar n /\
    (forall p, p <> net -> load p st' = load p st).
Proof.
  intros Hn. unfold ComputeAndSetFitnessScore. rewrite Hn. simpl.
  destruct (rawFitness _ _ _ _ _) as [fitness|]; [|discriminate]. simpl.
  intros [= <-]. exists fitness. eexists. split; [apply load_store|].
  split; [reflexivity|]. split; [reflexivity|]. split; [reflexivity|].
  intros p Hp. rewrite load_store_ne by (apply not_eq_sym; exact Hp).
  destruct (0 <? history_len st); [|reflexivity].
  unfold clearMutationHistory. destruct (mutationHistory st); reflexivity.
Qed.

(** With no test set, as the package leaves it, the sum is 0 and the
    call returns. *)
Lemma ComputeAndSetFitnessScore_runs net st n :
  load net st = Some n -> testSet st = [] ->
  exists st' n',
    ComputeAndSetFitnessScore math_Tanh math_Exp math_Pow uint32_of_float64 net st = Some st' /\
    load net st' = Some n' /\
    ga.FitnessScore (MemberData n') =
      uint32_of_float64 (adjustedFitness (f64_of_Z 0) (nSimilar n)).
Proof.
  intros Hn Hts. unfold ComputeAndSetFitnessScore. rewrite Hn. simpl.
  assert (Hts' : testSet (if 0 <? history_len st
                          then clearMutationHistory st else st) = []).
  { destruct (0 <? history_len st); [|exact Hts].
    unfold clearMutationHistory. destruct (mutationHistory st); exact Hts. }
  rewrite Hts'. simpl. eexists _, _. split; [reflexivity|].
  split; [apply load_store|reflexivity].
Qed.
End Fitness.

Lemma normalised_blank n : blank n -> blank (normalised n).
Proof.
  intros [Hc Hs]. split; [apply normalised_empty; exact Hc|].
  destruct (normalised_fields n) as (_ & _ & _ & _ & -> & _). exact Hs.
Qed.

Lemma Distance_blank pop net other st :
  all_blank pop st -> net ∈ pop -> other ∈ pop ->
  exists st', Distance net other st = Some (f64_of_Z 1, st') /\ all_blank pop st'.
Proof.
  intros Hpop Hnet Hother.
  destruct (Hpop net Hnet) as (n & Hn & Hbn).
  destruct (Hpop other Hother) as (o & Ho & Hbo).
  destruct (Distance_empty net other st n o Hn Ho (proj1 Hbn) (proj1 Hbo))
    as (st' & Hrun & Hn' & Ho' & Hrest & _).
  exists st'. split; [exact Hrun|]. intros p Hp.
  destruct (decide (p = net)) as [->|Hpn];
    [exists (normalised n); split; [exact Hn'|apply normalised_blank; exact Hbn]|].
  destruct (decide (p = other)) as [->|Hpo];
    [exists (normalised o); split; [exact Ho'|apply normalised_blank; exact Hbo]|].
  rewrite (Hrest p Hpn Hpo). apply Hpop. exact Hp.
Qed.

(** Any sequence of [Distance] calls between members of a blank
    population, such as the speciation phase of a generation: each call
    returns, and the population stays blank. *)
Lemma Distances_blank pop (calls : list (nat * nat)) : forall st,
  all_blank pop st ->
  Forall (fun call => fst call ∈ pop /\ snd call ∈ pop) calls ->
  exists st',
    forEach calls (fun call st => snd <$> Distance (fst call) (snd call) st) st
      = Some st' /\
    all_blank pop st'.
Proof.
  induction calls as [|[a b] calls IH]; intros st Hpop Hcalls; simpl.
  - eauto.
  - apply Forall_cons in Hcalls as [[Ha Hb] Hcalls]. simpl in Ha, Hb.
    destruct (Distance_blank pop a b st Hpop Ha Hb) as (st1 & -> & Hpop1). simpl.
    apply IH; assumption.
Qed.

Lemma firstGeneration_blank nInputs nOutputs k : forall members st members' st',
  all_blank members st ->
  firstGeneration k nInputs nOutputs members st = (members', st') ->
  all_blank members' st' /\ length members' = (length members + k)%nat.
Proof.
  induction k as [|k IH]; intros members st members' st' Hpop; simpl.
  - intros [= <- <-]. split; [exact Hpop|lia].
  - intros Hrun. apply IH in Hrun.
    + rewrite length_app in Hrun. simpl in Hrun. destruct Hrun. split; [assumption|lia].
    + intros p Hp. apply elem_of_app in Hp as [Hp|Hp].
      * destruct (Hpop p Hp) as (n & Hn & Hb). exists n. split; [|exact Hb].
        rewrite load_store_ne; [exact Hn|]. intros Heq.
        destruct (NewNetwork_fresh nInputs nOutputs st _ _ eq_refl) as [Hf _].
        rewrite Heq in Hf. congruence.
      * apply list_elem_of_singleton in Hp as ->.
        eexists. split; [apply load_store|]. split; reflexivity.
Qed.

(** The population that [NewSolver] creates is blank. *)
Lemma NewSolver_blank nInputs nOutputs o st solver st' :
  NewSolver nInputs nOutputs o st = Some (solver, st') ->
  all_blank (ga.population (gaSolver solver)) st' /\
  Z.of_nat (length (ga.population (gaSolver solver))) = Z.max 0 (PopulationSize o).
Proof.
  unfold NewSolver.
  destruct (firstGeneration _ _ _ _ _) as [members st1] eqn:Hfirst.
  apply firstGeneration_blank in Hfirst as [Hpop Hlen];
    [|intros p Hp; inversion Hp].
  destruct (ga.NewSolver members _) as [gaSolver|] eqn:Hnew; [|discriminate].
  simpl. intros [= <- <-]. simpl.
  assert (Hp : ga.population gaSolver = members).
  { unfold ga.NewSolver in Hnew.
    destruct (_ =? 0); [discriminate|]. destruct (negb _); [discriminate|].
    injection Hnew as <-. reflexivity. }
  rewrite Hp. split; [exact Hpop|]. rewrite Hlen. simpl. lia.
Qed.

(** C10. (1) For every pair of networks that both have no connection, the
    same network twice included, [Distance] returns exactly 1.0, which is
    not below the threshold 0.3, and leaves [nSimilar] as it was. (2) So it
    is for a network just made by [NewNetwork], compared with itself, whose
    [nSimilar] stays 0. (3) When [nSimilar] is 0,
    [ComputeAndSetFitnessScore] divides by zero: the score it stores is
    the conversion of a quotient by 0.0, which is infinite or not a
    number. (4) All this is the case of every genome of the population
    that [NewSolver] creates, after any sequence of distance computations
    among its members. *)
Theorem Distance_without_connections :
  (forall net other st n o,
      load net st = Some n -> load other st = Some o ->
      connections n = [] -> connections o = [] ->
      exists st' n',
        Distance net other st = Some (f64_of_Z 1, st') /\
        f64_of_Z 1 = S754_finite false 4503599627370496 (-52) /\
        f64_ltb (f64_of_Z 1) (f64_const 3 10) = false /\
        load net st' = Some n' /\ nSimilar n' = nSimilar n) /\
  (forall nInputs nOutputs st,
      exists st' n',
        Distance (fst (NewNetwork nInputs nOutputs st))
                 (fst (NewNetwork nInputs nOutputs st))
                 (snd (NewNetwork nInputs nOutputs st)) = Some (f64_of_Z 1, st') /\
        load (fst (NewNetwork nInputs nOutputs st)) st' = Some n' /\
        nSimilar n' = 0) /\
  (forall math_Tanh math_Exp math_Pow uint32_of_float64 net st n,
      load net st = Some n -> nSimilar n = 0 ->
      f64_of_Z (nSimilar n) = S754_zero false /\
      forall st',
        ComputeAndSetFitnessScore math_Tanh math_Exp math_Pow uint32_of_float64 net st
          = Some st' ->
        exists fitness n',
          load net st' = Some n' /\
          ga.FitnessScore (MemberData n') =
            uint32_of_float64
              (f64_div (f64_mul (f64_of_Z 10000) fitness) (f64_of_Z 0)) /\
          nonfinite (f64_div (f64_mul (f64_of_Z 10000) fitness) (f64_of_Z 0))) /\
  (forall math_Tanh math_Exp math_Pow uint32_of_float64
          nInputs nOutputs o st solver st1 calls,
      NewSolver nInputs nOutputs o st = Some (solver, st1) ->
      Forall (fun call => fst call ∈ ga.population (gaSolver solver) /\
                          snd call ∈ ga.population (gaSolver solver)) calls ->
      exists st2,
        forEach calls (fun call st => snd <$> Distance (fst call) (snd call) st) st1
          = Some st2 /\
        forall net, net ∈ ga.population (gaSolver solver) ->
          exists n, load net st2 = Some n /\ nSimilar n = 0 /\
            (testSet st2 = [] ->
             exists st3 n3,
               ComputeAndSetFitnessScore math_Tanh math_Exp math_Pow
                 uint32_of_float64 net st2 = Some st3 /\
               load net st3 = Some n3 /\
               ga.FitnessScore (MemberData n3) = uint32_of_float64 S754_nan)).
Proof.
  split; [|split; [|split]].
  - intros net other st n o Hn Ho Hcn Hco.
    destruct (Distance_empty net other st n o Hn Ho Hcn Hco)
      as (st' & Hrun & Hn' & _).
    exists st', (normalised n). split; [exact Hrun|]. split; [reflexivity|].
    split; [apply distance_of_one_excess|]. split; [exact Hn'|].
    apply normalised_fields.
  - intros nInputs nOutputs st.
    destruct (Distance_empty (fst (NewNetwork nInputs nOutputs st))
                (fst (NewNetwork nInputs nOutputs st))
                (snd (NewNetwork nInputs nOutputs st))
                (newNetwork nInputs nOutputs) (newNetwork nInputs nOutputs))
      as (st' & Hrun & Hn' & _); try apply load_store; try reflexivity.
    exists st', (normalised (newNetwork nInputs nOutputs)).
    split; [exact Hrun|]. split; [exact Hn'|]. apply normalised_fields.
  - intros mT mE mP u2f net st n Hn Hs. rewrite Hs. split; [reflexivity|].
    intros st' Hrun.
    destruct (ComputeAndSetFitnessScore_stores mT mE mP u2f net st st' n Hn Hrun)
      as (fitness & n' & Hn' & Hf & _).
    exists fitness, n'. split; [exact Hn'|]. rewrite Hs in Hf.
    split; [exact Hf|apply f64_div_zero].
  - intros mT mE mP u2f nInputs nOutputs o st solver st1 calls Hnew Hcalls.
    apply NewSolver_blank in Hnew as [Hpop _].
    destruct (Distances_blank _ calls st1 Hpop Hcalls) as (st2 & Hrun & Hpop2).
    exists st2. split; [exact Hrun|]. intros net Hnet.
    destruct (Hpop2 net Hnet) as (n & Hn & Hc & Hs).
    exists n. split; [exact Hn|]. split; [exact Hs|]. intros Hts.
    destruct (ComputeAndSetFitnessScore_runs mT mE mP u2f net st2 n Hn Hts)
      as (st3 & n3 & Hrun3 & Hn3 & Hf).
    exists st3, n3. split; [exact Hrun3|]. split; [exact Hn3|].
    rewrite Hf, Hs. reflexivity.
Qed.

(** The theorem on a population of three networks of two inputs and one
    output: the distance of the first to the second, and the fitness of
    every member after the distances of a speciation phase. *)
Lemma Distance_without_connections_witness :
  let o := {| PopulationSize := 3; MaxGenerations := 1; MutationChance := f32_of_Z 0;
              NBatches := 1; Verbose := false |} in
  let run := default ({| options := o;
                         gaSolver := {| ga.population := [];
                                        ga.options := client.plain 0 0 0;
                                        ga.generationNo := 0 |} |}, empty_state)
                     (NewSolver 2 1 o empty_state) in
  let calls := [(0, 0); (0, 1); (0, 2); (1, 0); (1, 1); (1, 2); (2, 0); (2, 1); (2, 2)]%nat in
  NewSolver 2 1 o empty_state = Some run /\
  ga.population (gaSolver (fst run)) = [0; 1; 2]%nat /\
  (exists st' n', Distance 0 1 (snd run) = Some (f64_of_Z 1, st') /\
                  load 0%nat st' = Some n' /\ nSimilar n' = 0) /\
  exists st2,
    forEach calls (fun call st => snd <$> Distance (fst call) (snd call) st) (snd run)
      = Some st2 /\
    forall net, net ∈ [0; 1; 2]%nat ->
      exists st3 n3,
        ComputeAndSetFitnessScore (fun x => x) (fun x => x) (fun x _ => x) (fun _ => 0)
          net st2 = Some st3 /\
        load net st3 = Some n3 /\ ga.FitnessScore (MemberData n3) = 0.
Proof.
  intros o run calls.
  destruct Distance_without_connections as (Hpair & _ & _ & Hpop).
  assert (Hnew : NewSolver 2 1 o empty_state = Some run) by (vm_compute; reflexivity).
  assert (Hmembers : ga.population (gaSolver (fst run)) = [0; 1; 2]%nat)
    by (vm_compute; reflexivity).
  split; [exact Hnew|]. split; [exact Hmembers|]. split.
  - destruct (Hpair 0%nat 1%nat (snd run) (newNetwork 2 1) (newNetwork 2 1))
      as (st' & n' & Hrun & _ & _ & Hn' & Hs);
      [vm_compute; reflexivity|vm_compute; reflexivity|reflexivity|reflexivity|].
    exists st', n'. auto.
  - destruct (Hpop (fun x => x) (fun x => x) (fun x _ => x) (fun _ => 0)
                2 1 o empty_state (fst run) (snd run) calls) as (st2 & Hrun & Hall).
    + rewrite Hnew. destruct run; reflexivity.
    + rewrite Hmembers. unfold calls.
      repeat constructor; simpl; set_solver.
    + exists st2. split; [exact Hrun|]. intros net Hnet.
      rewrite <- Hmembers in Hnet.
      destruct (Hall net Hnet) as (n & Hn & Hs & Hfit).
      destruct Hfit as (st3 & n3 & H1 & H2 & H3).
      * assert (Hts : forall cs st st',
                  forEach cs (fun call st => snd <$> Distance (fst call) (snd call) st) st
                    = Some st' -> testSet st' = testSet st).
        { induction cs as [|c cs IH]; intros sa sb; simpl; [intros [= <-]; reflexivity|].
          destruct (Distance (fst c) (snd c) sa) as [[d sc]|] eqn:E; [|discriminate].
          simpl. intros Hr. rewrite (IH _ _ Hr).
          apply Distance_globals in E. apply E. }
        rewrite (Hts _ _ _ Hrun). reflexivity.
      * exists st3, n3. auto.
Defined.

End neat_facts.

(** ** Further theorems: package batching *)

Module batching_more.
Import batching batching_facts.

(** The closed form of [BuildBatchesList] holds for every positive number
    of batches, also when it exceeds the number of elements: the base size
    is then 0. *)
Lemma BuildBatchesList_closed_form_any nElements nBatches :
  0 < nElements < 2 ^ 32 -> 1 <= nBatches < 2 ^ 32 ->
  BuildBatchesList nElements nBatches =
    Some (ranges (nElements / nBatches) 0 (Z.to_nat nBatches - 1) ++
          [{| Start := (nBatches - 1) * (nElements / nBatches); End := nElements |}]).
Proof.
  intros Hn Hb. unfold BuildBatchesList.
  destruct (nElements =? 0) eqn:E0; [apply Z.eqb_eq in E0; lia|].
  destruct (nBatches =? 0) eqn:E1; [apply Z.eqb_eq in E1; lia|].
  set (bs := nElements / nBatches).
  assert (Hbs : 0 <= bs) by (apply Z.div_pos; lia).
  assert (Hmul : nBatches * bs <= nElements) by (apply Z.mul_div_le; lia).
  destruct (Z.to_nat nBatches) as [|m] eqn:Em; [lia|].
  assert (HmZ : Z.of_nat m = nBatches - 1) by lia.
  assert (Hfill : fill (S m) nElements bs [] 0 bs = ranges bs 0 (S m)).
  { change (fill (S m) nElements bs [] 0 bs)
      with (fill (S m) nElements bs [] (Z.of_nat 0 * bs) bs).
    rewrite fill_ranges; [reflexivity|assumption|lia|nia|intros _; simpl; lia]. }
  rewrite Hfill. rewrite ranges_S. simpl (0 + m)%nat.
  replace (S m - 1)%nat with m by lia.
  unfold wrap32. rewrite Z.mod_small by lia.
  replace (Z.to_nat (nBatches - 1)) with m by lia.
  rewrite lookup_app_r; rewrite length_ranges; [|lia].
  rewrite Nat.sub_diag. simpl.
  rewrite HmZ.
  destruct ((nBatches - 1 + 1) * bs =? nElements) eqn:E2; simpl.
  - apply Z.eqb_eq in E2. rewrite E2. reflexivity.
  - f_equal. rewrite insert_app_r_alt; rewrite length_ranges; [|lia].
    rewrite Nat.sub_diag. reflexivity.
Qed.

(** [BuildBatchesList] on every pair of [uint32] arguments. It panics (a
    division by zero) exactly when [nBatches = 0] and [nElements <> 0].
    For no element it returns no range, whatever [nBatches] is. Otherwise
    it returns [nBatches] contiguous ranges that cover [[0, nElements)];
    when there are more batches than elements, every range but the last
    is the empty [[0, 0)] and the last one is [[0, nElements)]. *)
Lemma BuildBatchesList_every_input nElements nBatches :
  0 <= nElements < 2 ^ 32 -> 0 <= nBatches < 2 ^ 32 ->
  (BuildBatchesList nElements nBatches = None <-> nBatches = 0 /\ nElements <> 0) /\
  (nElements = 0 -> BuildBatchesList nElements nBatches = Some []) /\
  (nElements <> 0 -> nBatches <> 0 ->
   exists batches,
     BuildBatchesList nElements nBatches = Some batches /\
     length batches = Z.to_nat nBatches /\
     chained batches 0 nElements /\
     (nElements < nBatches ->
      (forall k b, batches !! k = Some b -> (S k < length batches)%nat ->
                   b = {| Start := 0; End := 0 |}) /\
      batches !! (length batches - 1)%nat = Some {| Start := 0; End := nElements |})).
Proof.
  intros Hn Hb.
  assert (Hsome : nElements <> 0 -> nBatches <> 0 ->
    exists batches,
     BuildBatchesList nElements nBatches = Some batches /\
     length batches = Z.to_nat nBatches /\
     chained batches 0 nElements /\
     (nElements < nBatches ->
      (forall k b, batches !! k = Some b -> (S k < length batches)%nat ->
                   b = {| Start := 0; End := 0 |}) /\
      batches !! (length batches - 1)%nat = Some {| Start := 0; End := nElements |})).
  { intros Hne Hnb.
    set (bs := nElements / nBatches).
    assert (Hbs : 0 <= bs) by (apply Z.div_pos; lia).
    assert (Hmul : nBatches * bs <= nElements) by (apply Z.mul_div_le; lia).
    eexists. split; [apply BuildBatchesList_closed_form_any; lia|]. fold bs.
    assert (Hlen : length (ranges bs 0 (Z.to_nat nBatches - 1) ++
              [{| Start := (nBatches - 1) * bs; End := nElements |}])
            = Z.to_nat nBatches).
    { rewrite length_app, length_ranges. simpl. lia. }
    split; [exact Hlen|]. split.
    - eapply chained_app.
      + replace 0 with (Z.of_nat 0 * bs) at 1 by lia. apply ranges_chained. exact Hbs.
      + simpl. repeat split; nia.
    - intros Hlt. assert (Hz : bs = 0) by (apply Z.div_small; lia).
      rewrite Hlen. split.
      + intros k b Hk Hk'. rewrite lookup_app_l in Hk by (rewrite length_ranges; lia).
        apply ranges_lookup in Hk as [Hs He]. destruct b as [s e]; simpl in *.
        f_equal; lia.
      + rewrite lookup_app_r by (rewrite length_ranges; lia).
        rewrite length_ranges, Nat.sub_diag. simpl. do 2 f_equal. lia. }
  split; [|split; [|exact Hsome]].
  - split.
    + intros Hnone. destruct (Z.eq_dec nElements 0) as [->|Hne]; [discriminate|].
      destruct (Z.eq_dec nBatches 0) as [->|Hnb]; [auto|].
      destruct (Hsome Hne Hnb) as (batches & Heq & _). congruence.
    + intros [-> Hne]. unfold BuildBatchesList.
      destruct (nElements =? 0) eqn:E; [apply Z.eqb_eq in E; contradiction|reflexivity].
  - intros ->. reflexivity.
Qed.

Lemma BuildBatchesList_every_input_witness :
  0 <= 2 < 2 ^ 32 /\ 0 <= 5 < 2 ^ 32 /\
  (BuildBatchesList 2 5 = None <-> 5 = 0 /\ 2 <> 0) /\
  BuildBatchesList 2 5 =
    Some [ {| Start := 0; End := 0 |}; {| Start := 0; End := 0 |};
           {| Start := 0; End := 0 |}; {| Start := 0; End := 0 |};
           {| Start := 0; End := 2 |} ].
Proof.
  assert (H1 : 0 <= 2 < 2 ^ 32) by lia.
  assert (H2 : 0 <= 5 < 2 ^ 32) by lia.
  split; [exact H1|]. split; [exact H2|].
  split; [exact (proj1 (BuildBatchesList_every_input 2 5 H1 H2))|reflexivity].
Defined.
End batching_more.

(** ** Further theorems: package ga *)

Module ga_more.
Import batching batching_facts ga ga_facts.

(** A loop over the indices of a chained sequence of batches visits
    [lo], [lo + 1], ..., [hi - 1] in this order: what holds at [lo] and is
    carried from [i] to [i + 1] by the body holds at [hi] afterwards. *)
Lemma forEach_seqZ_steps {S : Type} (P : Z -> S -> Prop) (body : Z -> S -> option S)
    (len : nat) : forall lo s s',
  (forall i s s', lo <= i < lo + Z.of_nat len -> P i s -> body i s = Some s' -> P (i + 1) s') ->
  P lo s ->
  forEach (seqZ lo (Z.of_nat len)) body s = Some s' -> P (lo + Z.of_nat len) s'.
Proof.
  induction len as [|len IH]; intros lo s s' Hbody Hs.
  - simpl. intros [= <-]. replace (lo + Z.of_nat 0) with lo by lia. exact Hs.
  - rewrite Nat2Z.inj_succ, seqZ_cons by lia. simpl.
    destruct (body lo s) as [s1|] eqn:E; [|discriminate]. simpl.
    replace (Z.pred (Z.succ (Z.of_nat len))) with (Z.of_nat len) by lia.
    intros Hrun.
    replace (lo + Z.succ (Z.of_nat len)) with (Z.succ lo + Z.of_nat len) by lia.
    apply (IH (Z.succ lo) s1 s'); [| |exact Hrun].
    + intros i t t' Hi. apply Hbody. lia.
    + replace (Z.succ lo) with (lo + 1) by lia. apply (Hbody lo s s1); [lia|exact Hs|exact E].
Qed.

Lemma forBatches_steps {S : Type} (P : Z -> S -> Prop) (body : Z -> S -> option S)
    batches : forall lo hi s s',
  chained batches lo hi ->
  (forall i s s', lo <= i < hi -> P i s -> body i s = Some s' -> P (i + 1) s') ->
  P lo s ->
  forEach batches (fun b => forEach (indices b) body) s = Some s' -> P hi s'.
Proof.
  induction batches as [|b batches IH]; intros lo hi s s'; simpl.
  - intros -> _ Hs [= <-]. exact Hs.
  - intros (Hst & Hle & Hch) Hbody Hs.
    destruct (forEach (indices b) body s) as [s1|] eqn:E; [|discriminate]. simpl.
    pose proof (chained_le _ _ _ Hch) as Hhi.
    apply (IH (End b) hi s1 s' Hch).
    + intros i t t' Hi. apply Hbody. lia.
    + unfold indices in E.
      replace (End b - Start b) with (Z.of_nat (Z.to_nat (End b - Start b))) in E by lia.
      apply (forEach_seqZ_steps P) in E.
      * replace (Start b + Z.of_nat (Z.to_nat (End b - Start b))) with (End b) in E by lia.
        exact E.
      * intros i t t' Hi. apply Hbody. lia.
      * rewrite Hst. exact Hs.
Qed.

Section Engine.
Context {M W : Type} `{Member M W}.

Lemma scan_member (pop : list M) r w m : scan pop r w = Some m -> m ∈ pop.
Proof.
  revert r. induction pop as [|x pop IH]; simpl; intros r; [discriminate|].
  destruct (f32_ltb r (GetSurvivalChance x w)).
  - intros [= <-]. left.
  - intros Hs. right. eapply IH. exact Hs.
Qed.

(** [pickRandomMember] on a solver whose population has at least its
    [PopulationSize >= 1] members: it draws one [rand.Float32], changes
    nothing else, and returns a member of the population, the last one
    (index [PopulationSize - 1]) when its scan finds none. *)
Lemma pickRandomMember_member (solver : Solver M) w :
  1 <= PopulationSize (options solver) < 2 ^ 32 ->
  PopulationSize (options solver) <= Z.of_nat (length (population solver)) ->
  exists member,
    pickRandomMember solver w = Some (member, snd (rand_Float32 w)) /\
    member ∈ population solver /\
    (scan (population solver) (fst (rand_Float32 w)) (snd (rand_Float32 w)) = None ->
     population solver !! Z.to_nat (PopulationSize (options solver) - 1) = Some member).
Proof.
  intros HPS Hlen. unfold pickRandomMember.
  destruct (rand_Float32 w) as [randValue w1]. simpl.
  destruct (scan (population solver) randValue w1) as [m|] eqn:Es.
  - exists m. split; [reflexivity|]. split; [eapply scan_member; exact Es|discriminate].
  - unfold wrap32. rewrite Z.mod_small by lia.
    destruct (lookup_lt_is_Some_2 (population solver)
                (Z.to_nat (PopulationSize (options solver) - 1)) ltac:(lia))
      as [m Hm].
    rewrite Hm. simpl. exists m. split; [reflexivity|].
    split; [eapply list_elem_of_lookup_2; exact Hm|auto].
Qed.

Lemma pickRandomMember_Some (solver : Solver M) w member w' :
  pickRandomMember solver w = Some (member, w') -> member ∈ population solver.
Proof.
  unfold pickRandomMember. destruct (rand_Float32 w) as [randValue w1].
  destruct (scan (population solver) randValue w1) as [m|] eqn:Es.
  - intros [= <- _]. eapply scan_member; exact Es.
  - destruct (population solver !! _) as [m|] eqn:Hm; simpl; [|discriminate].
    intros [= <- _]. eapply list_elem_of_lookup_2; exact Hm.
Qed.

(** The next generation: [nextPopulation] has [PopulationSize] members,
    and every one of them is the child that [Crossover] made of two
    members of the current population; no slot keeps the zero value that
    [make] put there. *)
Lemma breedPhase_children (solver : Solver M) batches w w' nextPopulation :
  0 <= PopulationSize (options solver) ->
  chained batches 0 (PopulationSize (options solver)) ->
  breedPhase solver batches w = Some (w', nextPopulation) ->
  length nextPopulation = Z.to_nat (PopulationSize (options solver)) /\
  forall i child, nextPopulation !! i = Some child ->
    exists parent1 parent2 w0,
      parent1 ∈ population solver /\ parent2 ∈ population solver /\
      child = fst (Crossover parent1 parent2 w0).
Proof.
  intros HPS Hch Hrun. unfold breedPhase in Hrun.
  set (P := fun (i : Z) (st : W * list M) =>
    length (snd st) = Z.to_nat (PopulationSize (options solver)) /\
    forall k child, (Z.of_nat k < i) -> snd st !! k = Some child ->
      exists parent1 parent2 w0,
        parent1 ∈ population solver /\ parent2 ∈ population solver /\
        child = fst (Crossover parent1 parent2 w0)).
  assert (HP : P (PopulationSize (options solver)) (w', nextPopulation)).
  { eapply (forBatches_steps P); [exact Hch| | |exact Hrun].
    - intros i [s np] [s' np'] Hi [Hlen Hk]. simpl in Hlen, Hk.
      destruct (pickRandomMember solver s) as [[p1 w1]|] eqn:E1; [|discriminate]. simpl.
      destruct (pickRandomMember solver w1) as [[p2 w2]|] eqn:E2; [|discriminate]. simpl.
      destruct (Crossover p1 p2 w2) as [child w3] eqn:Ec.
      destruct (rand_Float32 w3) as [r w4].
      destruct (decide (Z.to_nat i < length np)%nat) as [Hlt|Hge]; [|discriminate].
      intros [= <- <-]. split; simpl.
      + rewrite length_insert. exact Hlen.
      + intros k c Hki Hc.
        destruct (decide (k = Z.to_nat i)) as [->|Hne].
        * rewrite list_lookup_insert_eq in Hc by exact Hlt. injection Hc as <-.
          exists p1, p2, w2. rewrite Ec.
          split; [eapply pickRandomMember_Some; exact E1|].
          split; [eapply pickRandomMember_Some; exact E2|reflexivity].
        * rewrite list_lookup_insert_ne in Hc by auto. apply (Hk k c); [lia|exact Hc].
    - split; simpl; [apply length_replicate|]. intros k c Hk. lia. }
  destruct HP as [Hlen Hk]. simpl in Hlen, Hk. split; [exact Hlen|].
  intros i child Hi. apply (Hk i child); [|exact Hi].
  apply lookup_lt_Some in Hi. lia.
Qed.

End Engine.

Lemma client_fitness_frame (m m' : nat) w :
  m <> m' ->
  client.GetFitnessScore m (client.ComputeAndSetFitnessScore m' w) =
    client.GetFitnessScore m w.
Proof.
  intros Hne. unfold client.GetFitnessScore, client.ComputeAndSetFitnessScore,
    client.update, client.deref. simpl.
  rewrite lookup_insert_ne by auto. reflexivity.
Qed.

(** [pickRandomMember_member] on three members with a draw of 0. *)
Lemma pickRandomMember_member_witness :
  let solver := {| population := client.members [3; 9; 9];
                   options := client.plain 3 2 1; generationNo := 1 |} in
  let w := {| client.heap := client.individuals [3; 9; 9]; client.source := [] |} in
  1 <= PopulationSize (options solver) < 2 ^ 32 /\
  PopulationSize (options solver) <= Z.of_nat (length (population solver)) /\
  exists member,
    pickRandomMember solver w = Some (member, snd (rand_Float32 w)) /\
    member ∈ population solver /\
    (scan (population solver) (fst (rand_Float32 w)) (snd (rand_Float32 w)) = None ->
     population solver !! Z.to_nat (PopulationSize (options solver) - 1) = Some member).
Proof.
  intros solver w.
  assert (H1 : 1 <= PopulationSize (options solver) < 2 ^ 32) by (simpl; lia).
  assert (H2 : PopulationSize (options solver) <= Z.of_nat (length (population solver)))
    by (simpl; lia).
  split; [exact H1|]. split; [exact H2|].
  exact (pickRandomMember_member solver w H1 H2).
Defined.

(** [breedPhase_children] on three members in two batches. *)
Lemma breedPhase_children_witness :
  let solver := {| population := client.members [3; 9; 9];
                   options := client.plain 3 2 2; generationNo := 1 |} in
  let w := {| client.heap := client.individuals [3; 9; 9]; client.source := [] |} in
  let batches := [ {| Start := 0; End := 1 |}; {| Start := 1; End := 3 |} ] in
  let next := default (w, []) (breedPhase solver batches w) in
  0 <= PopulationSize (options solver) /\
  chained batches 0 (PopulationSize (options solver)) /\
  breedPhase solver batches w = Some next /\
  length (snd next) = Z.to_nat (PopulationSize (options solver)) /\
  forall i child, snd next !! i = Some child ->
    exists parent1 parent2 w0,
      parent1 ∈ population solver /\ parent2 ∈ population solver /\
      child = fst (Crossover parent1 parent2 w0).
Proof.
  intros solver w batches next.
  assert (H1 : 0 <= PopulationSize (options solver)) by (simpl; lia).
  assert (H2 : chained batches 0 (PopulationSize (options solver)))
    by (simpl; repeat split; lia).
  assert (H3 : breedPhase solver batches w = Some (fst next, snd next))
    by (vm_compute; reflexivity).
  split; [exact H1|]. split; [exact H2|].
  split; [vm_compute; reflexivity|].
  exact (breedPhase_children solver batches w (fst next) (snd next) H1 H2 H3).
Defined.

End ga_more.

(** ** Theorems: the goroutines of package ga *)

Module goroutine_facts.
Import goroutine.

Section Invariant.
Context {S G : Type}.
Variable T : G -> task S -> Prop.
Variable I : list G -> S -> Prop.

Hypothesis step : forall g act next gs t s,
  T g (Step act next) -> gs !! t = Some g -> I gs s ->
  exists s' g', act s = Some s' /\ T g' (next s) /\ I (<[t := g']> gs) s'.

Lemma finish_invariant (task0 : task S) : forall g gs t s,
  T g task0 -> gs !! t = Some g -> I gs s ->
  exists s' g', finish task0 s = Some s' /\ T g' Done /\ I (<[t := g']> gs) s'.
Proof.
  induction task0 as [|act next IH]; intros g gs t s HT Hg HI.
  - exists s, g. split; [reflexivity|]. split; [exact HT|].
    rewrite list_insert_id by exact Hg. exact HI.
  - destruct (step g act next gs t s HT Hg HI) as (s1 & g1 & Hact & HT1 & HI1).
    cbn [finish]. rewrite Hact. cbn [mbind option_bind].
    destruct (IH s g1 (<[t := g1]> gs) t s1 HT1) as (s' & g' & Hfin & HT' & HI').
    + apply list_lookup_insert_eq. eapply lookup_lt_Some. exact Hg.
    + exact HI1.
    + exists s', g'. split; [exact Hfin|]. split; [exact HT'|].
      rewrite list_insert_insert_eq in HI'. exact HI'.
Qed.

Lemma finish_all_invariant (todo : list (task S)) : forall ghosts pre s,
  Forall2 T ghosts todo -> Forall (fun g => T g Done) pre -> I (pre ++ ghosts) s ->
  exists s' gs', forEach todo finish s = Some s' /\ I gs' s' /\
                 Forall (fun g => T g Done) gs'.
Proof.
  induction todo as [|task0 todo IH]; intros ghosts pre s HT Hpre HI.
  - inversion HT; subst. rewrite app_nil_r in HI. exists s, pre. auto.
  - inversion HT as [|g ? ghosts' ? Hg HT']; subst.
    destruct (finish_invariant task0 g (pre ++ g :: ghosts') (length pre) s Hg)
      as (s1 & g1 & Hfin & HT1 & HI1).
    + rewrite lookup_app_r by lia. rewrite Nat.sub_diag. reflexivity.
    + exact HI.
    + cbn [forEach]. rewrite Hfin. cbn [mbind option_bind].
      rewrite insert_app_r_alt in HI1 by lia. rewrite Nat.sub_diag in HI1.
      cbn [insert list_insert] in HI1.
      apply (IH ghosts' (pre ++ [g1]) s1 HT').
      * apply Forall_app. split; [exact Hpre|]. constructor; [exact HT1|constructor].
      * rewrite <- app_assoc. exact HI1.
Qed.

(** What every step keeps holds when all the goroutines have returned,
    whatever the schedule; and no step panics. *)
Lemma run_invariant schedule : forall goroutines ghosts s,
  Forall2 T ghosts goroutines -> I ghosts s ->
  exists s' gs', run schedule goroutines s = Some s' /\ I gs' s' /\
                 Forall (fun g => T g Done) gs'.
Proof.
  induction schedule as [|g schedule IH]; intros goroutines ghosts s HT HI.
  - cbn [run]. apply (finish_all_invariant goroutines ghosts [] s HT); [constructor|exact HI].
  - cbn [run]. destruct (goroutines !! g) as [[|act next]|] eqn:Eg.
    + apply (IH goroutines ghosts s HT HI).
    + destruct (Forall2_lookup_r _ _ _ _ _ HT Eg) as (gh & Hgh & HTg).
      destruct (step gh act next ghosts g s HTg Hgh HI) as (s1 & g1 & Hact & HT1 & HI1).
      rewrite Hact. cbn [mbind option_bind].
      apply (IH (<[g := next s]> goroutines) (<[g := g1]> ghosts) s1); [|exact HI1].
      apply Forall2_insert; assumption.
    + apply (IH goroutines ghosts s HT HI).
Qed.

End Invariant.

End goroutine_facts.

Module ga_scheduled_facts.
Import batching batching_facts ga ga_facts goroutine goroutine_facts ga_scheduled.

Section Engine.
Context {M W : Type} `{Member M W}.

(** *** The goroutines of the first [wg.Wait()] *)

Lemma makes_distanceRow (solver : Solver M) i mi others calls rest :
  population solver !! Z.to_nat i = Some mi -> makes calls rest ->
  makes (map (CallDistance mi) others ++ calls) (distanceRow solver i others rest).
Proof.
  intros Hi Hrest. induction others as [|mj others IH]; simpl; [exact Hrest|].
  rewrite Hi. apply makes_call.
  - intros [w fitnessSum]. eexists. split; reflexivity.
  - intros _. exact IH.
Qed.

Lemma makes_distanceRoutine (solver : Solver M) idx :
  (forall i, i ∈ idx -> is_Some (population solver !! Z.to_nat i)) ->
  makes (flat_map (fun i => match population solver !! Z.to_nat i with
                            | Some mi => map (CallDistance mi) (population solver)
                            | None => []
                            end) idx)
        (distanceRoutine solver idx).
Proof.
  induction idx as [|i idx IH]; simpl; intros Hidx; [constructor|].
  destruct (Hidx i) as [mi Hmi]; [left|]. rewrite Hmi.
  apply makes_distanceRow; [exact Hmi|]. apply IH. intros j Hj. apply Hidx. right. exact Hj.
Qed.

Lemma makes_fitnessRoutine (solver : Solver M) idx :
  (forall i, i ∈ idx -> is_Some (population solver !! Z.to_nat i)) ->
  makes (flat_map (fun i => match population solver !! Z.to_nat i with
                            | Some mi => [CallComputeAndSetFitnessScore mi]
                            | None => []
                            end) idx)
        (fitnessRoutine solver idx).
Proof.
  induction idx as [|i idx IH]; simpl; intros Hidx; [constructor|].
  destruct (Hidx i) as [mi Hmi]; [left|]. rewrite Hmi. simpl.
  apply makes_call; [intros [w fitnessSum]; eexists; split; reflexivity|]. intros _.
  apply makes_quiet; [intros s; eexists; split; reflexivity|]. intros s.
  apply makes_quiet; [intros [w fitnessSum]; eexists; split; reflexivity|]. intros _.
  apply IH. intros j Hj. apply Hidx. right. exact Hj.
Qed.

Lemma batches_in_range (solver : Solver M) batches :
  ready solver -> chained batches 0 (PopulationSize (options solver)) ->
  Forall (fun b => forall i, i ∈ indices b ->
                     is_Some (population solver !! Z.to_nat i)) batches.
Proof.
  intros Hr Hch. apply Forall_lookup. intros k b Hk i Hi.
  apply indices_in_range in Hi.
  destruct (chained_bounds _ _ _ _ _ Hch Hk) as (Hlo & _ & Hhi).
  apply lookup_ready; [exact Hr|lia].
Qed.

(** The first [wg.Wait()] returns under every schedule, and the world it
    finds is the one that the calls of the goroutines leave, taken in some
    order that keeps the order of each goroutine. *)
Lemma evaluationPhase_scheduled schedule (solver : Solver M) batches w :
  ready solver -> chained batches 0 (PopulationSize (options solver)) ->
  exists w2 fitnessSum calls,
    evaluationPhase schedule solver batches w = Some (w2, fitnessSum) /\
    interleaving (evaluation_calls solver batches) calls /\
    w2 = replay calls w.
Proof.
  intros Hr Hch. unfold evaluationPhase.
  pose proof (batches_in_range solver batches Hr Hch) as Hin.
  set (start := evaluation_calls solver batches).
  destruct (run_invariant makes
              (fun threads (s : W * Z) =>
                 forall calls', interleaving threads calls' ->
                   exists calls, interleaving start calls /\
                                 replay calls' (fst s) = replay calls w))
      with (schedule := schedule) (ghosts := start) (s := (w, 0))
           (goroutines :=
              (if Speciation (options solver)
               then map (fun b => distanceRoutine solver (indices b)) batches else [])
              ++ map (fun b => fitnessRoutine solver (indices b)) batches)
    as ([w2 fitnessSum] & threads & Hrun & Hinv & Hdone).
  - intros g act next gs t s HT Hg HI. inversion HT as [|? ? ? Hact Hnext|c calls ? ? Hact Hnext]; subst.
    + destruct (Hact s) as (s' & Hs' & Hw). exists s', g.
      split; [exact Hs'|]. split; [apply Hnext|].
      rewrite list_insert_id by exact Hg. rewrite Hw. exact HI.
    + destruct (Hact s) as (s' & Hs' & Hw). exists s', calls.
      split; [exact Hs'|]. split; [apply Hnext|].
      intros calls' Hcalls'.
      destruct (HI (c :: calls')) as (calls0 & H0 & Heq).
      { eapply interleaving_step; [exact Hg|exact Hcalls']. }
      exists calls0. split; [exact H0|]. rewrite Hw. exact Heq.
  - unfold start, evaluation_calls. apply Forall2_app.
    + destruct (Speciation (options solver)); [|constructor].
      apply Forall2_fmap. apply Forall_Forall2_diag.
      eapply Forall_impl; [exact Hin|]. intros b Hb. simpl.
      apply makes_distanceRoutine. exact Hb.
    + apply Forall2_fmap. apply Forall_Forall2_diag.
      eapply Forall_impl; [exact Hin|]. intros b Hb. simpl.
      apply makes_fitnessRoutine. exact Hb.
  - intros calls' Hcalls'. exists calls'. auto.
  - destruct (Hinv []) as (calls & Hcalls & Heq).
    { apply interleaving_end. eapply Forall_impl; [exact Hdone|].
      intros g Hg. inversion Hg. reflexivity. }
    exists w2, fitnessSum, calls. split; [exact Hrun|]. split; [exact Hcalls|].
    simpl in Heq. exact Heq.
Qed.

(** *** The goroutines of the second [wg.Wait()] *)

Lemma fills_scan (solver : Solver M) idx found pop : forall randValue,
  ready solver ->
  (forall m, m ∈ pop -> m ∈ population solver) ->
  (forall m, m ∈ population solver -> fills (population solver) idx (found m)) ->
  fills (population solver) idx (scan solver pop randValue found).
Proof.
  induction pop as [|member rest IH]; intros randValue Hr Hsub Hfound; simpl.
  - destruct Hr as (HPS & _ & _ & _ & Hlen).
    unfold wrap32. rewrite Z.mod_small by lia.
    destruct (lookup_lt_is_Some_2 (population solver)
                (Z.to_nat (PopulationSize (options solver) - 1)) ltac:(lia))
      as [m Hm].
    rewrite Hm. apply Hfound. eapply list_elem_of_lookup_2. exact Hm.
  - apply fills_quiet; [intros s; eexists; split; reflexivity|]. intros s. cbv zeta.
    destruct (f32_ltb _ _).
    + apply Hfound. apply Hsub. left.
    + apply IH; [exact Hr| |exact Hfound]. intros m Hm. apply Hsub. right. exact Hm.
Qed.

Lemma fills_pickRandomMember (solver : Solver M) idx found :
  ready solver ->
  (forall m, m ∈ population solver -> fills (population solver) idx (found m)) ->
  fills (population solver) idx (pickRandomMember solver found).
Proof.
  intros Hr Hfound. unfold pickRandomMember.
  apply fills_quiet; [intros [w np]; eexists; split; reflexivity|]. intros s.
  apply fills_scan; auto.
Qed.

Lemma fills_breedRoutine (solver : Solver M) idx :
  ready solver -> fills (population solver) idx (breedRoutine solver idx).
Proof.
  intros Hr. induction idx as [|i idx IH]; cbn [breedRoutine]; [constructor|].
  apply fills_pickRandomMember; [exact Hr|]. intros parent1 H1.
  apply fills_pickRandomMember; [exact Hr|]. intros parent2 H2.
  apply fills_quiet; [intros [w np]; eexists; split; reflexivity|]. intros s. cbv zeta.
  apply fills_quiet; [intros [w np]; eexists; split; reflexivity|]. intros s'.
  assert (Hstore :
    fills (population solver) (i :: idx)
      (Step (fun '(w, nextPopulation) =>
               if decide (Z.to_nat i < length nextPopulation)%nat
               then Some (w, <[Z.to_nat i := fst (Crossover parent1 parent2 (fst s))]>
                               nextPopulation)
               else None)
            (fun _ => breedRoutine solver idx))).
  { apply fills_slot; [|intros _; exact IH].
    intros [w np] Hlt. simpl in Hlt.
    destruct (decide (Z.to_nat i < length np)%nat) as [_|Hge]; [|lia].
    eexists _, _. split; [reflexivity|]. split; [reflexivity|].
    exists parent1, parent2, (fst s). auto. }
  destruct (f32_ltb _ _); [|exact Hstore].
  apply fills_quiet; [intros [w np]; eexists; split; reflexivity|]. intros _.
  exact Hstore.
Qed.

(** The second [wg.Wait()] returns under every schedule with a next
    population of [PopulationSize] members, each of them the child that
    [Crossover] made of two members of the current population. *)
Lemma breedPhase_scheduled schedule (solver : Solver M) batches w :
  ready solver -> chained batches 0 (PopulationSize (options solver)) ->
  exists w' nextPopulation,
    breedPhase schedule solver batches w = Some (w', nextPopulation) /\
    length nextPopulation = Z.to_nat (PopulationSize (options solver)) /\
    Forall (child_of (population solver)) nextPopulation.
Proof.
  intros Hr Hch. unfold breedPhase.
  set (size := Z.to_nat (PopulationSize (options solver))).
  set (pop := population solver).
  destruct (run_invariant (fills pop)
              (fun (pending : list (list Z)) (s : W * list M) =>
                 length (snd s) = size /\
                 (forall t idx i, pending !! t = Some idx -> i ∈ idx ->
                                  0 <= i < Z.of_nat size) /\
                 (forall k, (k < size)%nat ->
                    (exists child, snd s !! k = Some child /\ child_of pop child) \/
                    (exists t idx, pending !! t = Some idx /\ Z.of_nat k ∈ idx))))
      with (schedule := schedule) (ghosts := map indices batches)
           (s := (w, replicate size (@nil M W _)))
           (goroutines := map (fun b => breedRoutine solver (indices b)) batches)
    as ([w' np] & pending & Hrun & (Hlen & _ & Hslots) & Hdone).
  - intros g act next gs t s HT Hg (Hlen & Hrange & Hslots).
    inversion HT as [|? ? ? Hact Hnext|i idx ? ? Hact Hnext]; subst.
    + destruct (Hact s) as (s' & Hs' & Hnp). exists s', g.
      split; [exact Hs'|]. split; [apply Hnext|].
      rewrite list_insert_id by exact Hg. rewrite Hnp. auto.
    + assert (Hi : 0 <= i < Z.of_nat size) by (apply (Hrange t (i :: idx)); [exact Hg|left]).
      destruct (Hact s) as (s' & child & Hs' & Hnp & Hchild); [lia|].
      exists s', idx. split; [exact Hs'|]. split; [apply Hnext|].
      assert (Ht : (t < length gs)%nat) by (eapply lookup_lt_Some; exact Hg).
      rewrite Hnp. split; [rewrite length_insert; exact Hlen|]. split.
      * intros t' idx' j Hl Hj.
        destruct (decide (t' = t)) as [->|Hne].
        -- rewrite list_lookup_insert_eq in Hl by exact Ht. injection Hl as <-.
           apply (Hrange t (i :: idx)); [exact Hg|right; exact Hj].
        -- rewrite list_lookup_insert_ne in Hl by auto. eapply Hrange; eauto.
      * intros k Hk. destruct (decide (k = Z.to_nat i)) as [->|Hne].
        -- left. exists child. split; [|exact Hchild].
           apply list_lookup_insert_eq. lia.
        -- destruct (Hslots k Hk) as [(c & Hc & Hcc)|(t' & idx' & Hl & Hin)].
           ++ left. exists c. split; [|exact Hcc].
              rewrite list_lookup_insert_ne by auto. exact Hc.
           ++ right. destruct (decide (t' = t)) as [->|Hnet].
              ** exists t, idx. split; [apply list_lookup_insert_eq; exact Ht|].
                 rewrite Hg in Hl. injection Hl as <-.
                 apply elem_of_cons in Hin as [Heq|Hin]; [lia|exact Hin].
              ** exists t', idx'. split; [|exact Hin].
                 rewrite list_lookup_insert_ne by auto. exact Hl.
  - apply Forall2_fmap. apply Forall_Forall2_diag. apply Forall_forall.
    intros b _. simpl. apply fills_breedRoutine. exact Hr.
  - simpl. split; [apply length_replicate|]. split.
    + intros t idx i Hl Hi. rewrite list_lookup_fmap in Hl.
      destruct (batches !! t) as [b|] eqn:Eb; [|discriminate]. injection Hl as <-.
      apply indices_in_range in Hi.
      destruct (chained_bounds _ _ _ _ _ Hch Eb) as (Hlo & _ & Hhi).
      unfold size. destruct Hr as (HPS & _). lia.
    + intros k Hk. right.
      destruct (chained_cover batches 0 (PopulationSize (options solver)) (Z.of_nat k) Hch)
        as [Hc _].
      destruct Hc as (t & b & Hb & Hm); [unfold size in Hk; lia|].
      exists t, (indices b). split; [rewrite list_lookup_fmap, Hb; reflexivity|].
      unfold indices. apply elem_of_seqZ. unfold member_of in Hm. lia.
  - exists w', np. split; [exact Hrun|]. simpl in Hlen. split; [exact Hlen|].
    apply Forall_lookup. intros k c Hc.
    assert (Hk : (k < size)%nat) by (rewrite <- Hlen; eapply lookup_lt_Some; exact Hc).
    destruct (Hslots k Hk) as [(c' & Hc' & Hcc)|(t & idx & Hl & Hin)].
    + simpl in Hc'. congruence.
    + exfalso. assert (Hnil : idx = []).
      { assert (Hd : fills pop idx Done) by exact (Forall_lookup_1 _ _ _ _ Hdone Hl).
        inversion Hd. reflexivity. }
      subst. inversion Hin.
Qed.

(** *** A pass *)

(** One pass through the loop, under any schedules: at generation
    [MaxGenerations] the function returns the first fittest member, in the
    world that the calls of the pass left; at any other generation the
    loop goes round with the children as the population. *)
Lemma generation_scheduled schedules (solver : Solver M) batches w :
  ready solver -> chained batches 0 (PopulationSize (options solver)) ->
  (generationNo solver = MaxGenerations (options solver) /\
   exists bestMember w' calls,
     generation schedules solver batches w = Some (inl (bestMember, w')) /\
     interleaving (evaluation_calls solver batches) calls /\
     w' = replay calls w /\
     first_fittest (population solver) w' bestMember) \/
  (generationNo solver <> MaxGenerations (options solver) /\
   exists solver' w',
     generation schedules solver batches w = Some (inr (solver', w')) /\
     ready solver' /\ options solver' = options solver /\
     generationNo solver' = wrap32 (generationNo solver + 1) /\
     Z.of_nat (length (population solver')) = PopulationSize (options solver) /\
     Forall (child_of (population solver)) (population solver')).
Proof.
  intros Hr Hch. unfold generation.
  destruct (evaluationPhase_scheduled (fst schedules) solver batches w Hr Hch)
    as (w2 & fitnessSum & calls & -> & Hcalls & Hw2).
  cbn [mbind option_bind].
  destruct (generationNo solver =? MaxGenerations (options solver)) eqn:E.
  - apply Z.eqb_eq in E. left. split; [exact E|].
    destruct (getBestMember_first_fittest solver w2) as (b & -> & Hb).
    { destruct Hr as (HPS & _ & _ & _ & Hlen).
      destruct (population solver); simpl in Hlen; [lia|discriminate]. }
    simpl. exists b, w2, calls. auto.
  - apply Z.eqb_neq in E. right. split; [exact E|].
    destruct (breedPhase_scheduled (snd schedules) solver batches
                (assignSurvivalChances solver fitnessSum w2) Hr Hch)
      as (w4 & np & -> & Hlen & Hchildren).
    simpl. eexists _, _. split; [reflexivity|]. simpl.
    destruct Hr as (HPS & HNB & HMG & HG & _).
    split; [|split; [reflexivity|split; [reflexivity|split; [rewrite Hlen; lia|exact Hchildren]]]].
    unfold ready; simpl. rewrite Hlen.
    assert (0 <= wrap32 (generationNo solver + 1) < 2 ^ 32)
      by (unfold wrap32; apply Z.mod_pos_bound; lia).
    lia.
Qed.

(** *** The loop *)

Lemma loop_scheduled schedules batches members size :
  forall (k : nat) (solver : Solver M) w done extra,
  ready solver -> chained batches 0 (PopulationSize (options solver)) ->
  PopulationSize (options solver) = size ->
  1 <= generationNo solver <= MaxGenerations (options solver) ->
  MaxGenerations (options solver) - generationNo solver = Z.of_nat k ->
  generations members size (generationNo solver) (population solver) ->
  exists r w0 calls,
    loop (S k + extra) schedules solver batches w done = Returned r /\
    iterations r = done + Z.of_nat k + 1 /\
    generationNo (final r) = MaxGenerations (options solver) /\
    options (final r) = options solver /\
    generations members size (MaxGenerations (options solver)) (population (final r)) /\
    (k = 0%nat -> final r = solver /\ w0 = w) /\
    interleaving (evaluation_calls (final r) batches) calls /\
    world r = replay calls w0 /\
    first_fittest (population (final r)) (world r) (best r).
Proof.
  induction k as [|k IH]; intros solver w done extra Hr Hch Hsize Hg Hk Hgen.
  - simpl.
    destruct (generation_scheduled (schedules done) solver batches w Hr Hch)
      as [(Heq & b & w' & calls & -> & Hcalls & Hw' & Hb)|(Hne & _)]; [|lia].
    eexists _, w, calls. split; [reflexivity|]. simpl.
    split; [lia|]. split; [exact Heq|]. split; [reflexivity|].
    split; [rewrite <- Heq; exact Hgen|]. auto.
  - change (S (S k) + extra)%nat with (S (S k + extra)). cbn [loop].
    destruct (generation_scheduled (schedules done) solver batches w Hr Hch)
      as [(Heq & _)|(Hne & solver' & w' & -> & Hr' & Hopt & Hgen' & Hlen' & Hchildren)];
      [lia|].
    assert (Hg' : generationNo solver' = generationNo solver + 1).
    { rewrite Hgen'. unfold wrap32. apply Z.mod_small. destruct Hr as (_ & _ & HMG & _). lia. }
    destruct (IH solver' w' (done + 1) extra Hr')
      as (r & w0 & calls & Hrun & Hit & Hgr & Ho & Hgens & _ & Hcalls & Hw & Hb).
    + rewrite Hopt. exact Hch.
    + rewrite Hopt. exact Hsize.
    + rewrite Hopt, Hg'. lia.
    + rewrite Hopt, Hg'. lia.
    + rewrite Hg'. apply (generations_next members size _ (population solver));
        [exact Hgen|lia|exact Hchildren].
    + exists r, w0, calls. split; [exact Hrun|]. rewrite Hopt in *.
      split; [lia|]. split; [exact Hgr|]. split; [exact Ho|]. split; [exact Hgens|].
      split; [intros; lia|]. auto.
Qed.

(** C1. [Solve] on the solver that [NewSolver] made of [members], with
    [MaxGenerations >= 1], under any schedules of its goroutines and for
    members whose methods return: it returns at pass [MaxGenerations] of
    its loop, and the member it returns is the first one of maximal
    fitness score in the population of generation [MaxGenerations], the
    scores being read in the world as it is at that moment. That
    population is [members] itself when [MaxGenerations = 1], and
    otherwise descends from [members] by [MaxGenerations - 1] rounds of
    breeding, each member being the child that [Crossover] returned for
    two members of the generation before. That world is the one left by
    the calls of the last pass: [ComputeAndSetFitnessScore] on every
    member of the final population (and, with speciation, [Distance] on
    every pair), each goroutine's calls in its order, mixed in the order
    that the schedule gives; with [MaxGenerations = 1] these calls start
    from the world in which [Solve] was called. *)
Theorem Solve_returns_first_fittest (members : list M) o (solver : Solver M)
    schedules w :
  uint32_options o -> 1 <= MaxGenerations o ->
  NewSolver members o = Some solver ->
  exists r batches w0 calls,
    Solve schedules solver w = Returned r /\
    iterations r = MaxGenerations o /\
    generationNo (final r) = MaxGenerations o /\
    generations members (PopulationSize o) (MaxGenerations o) (population (final r)) /\
    (MaxGenerations o = 1 -> population (final r) = members /\ w0 = w) /\
    BuildBatchesList (PopulationSize o) (NBatches (options solver)) = Some batches /\
    interleaving (evaluation_calls (final r) batches) calls /\
    world r = replay calls w0 /\
    first_fittest (population (final r)) (world r) (best r).
Proof.
  intros Ho HMG1 Hnew. pose proof (NewSolver_ready _ _ _ Ho Hnew) as Hr.
  destruct (NewSolver_Some _ _ _ (proj1 (proj2 (proj2 Ho))) Hnew)
    as (_ & Hwrap & Hpop & Hgen & HPSo & HMG & _).
  unfold Solve. pose proof Hr as (HPS & HNB & _).
  destruct (BuildBatchesList_chained (PopulationSize (options solver))
              (NBatches (options solver))) as (batches & Hbatches & Hch); [lia|exact HNB|].
  rewrite Hbatches.
  destruct Ho as (_ & HMGo & _).
  assert (Hd : wrap32 (MaxGenerations (options solver) - generationNo solver)
               = MaxGenerations o - 1).
  { rewrite HMG, Hgen. unfold wrap32. apply Z.mod_small. lia. }
  rewrite Hd.
  destruct (loop_scheduled schedules batches members (PopulationSize o)
              (Z.to_nat (MaxGenerations o - 1)) solver w 0 0 Hr Hch HPSo)
    as (r & w0 & calls & Hrun & Hit & Hg & _ & Hgens & Hfirst & Hcalls & Hw & Hb).
  { rewrite Hgen, HMG. lia. }
  { rewrite Hgen, HMG. lia. }
  { rewrite Hgen, Hpop. constructor. }
  exists r, batches, w0, calls.
  replace (Z.to_nat (MaxGenerations o - 1 + 1))
    with (S (Z.to_nat (MaxGenerations o - 1)) + 0)%nat by lia.
  split; [exact Hrun|]. split; [lia|]. split; [congruence|].
  split; [rewrite <- HMG; exact Hgens|].
  split.
  { intros H1. destruct Hfirst as [-> ->]; [lia|]. auto. }
  split; [rewrite <- HPSo; exact Hbatches|]. auto.
Qed.

End Engine.

End ga_scheduled_facts.

Module ga_in_order.
Import batching batching_facts ga ga_facts goroutine goroutine_facts ga_scheduled
  ga_scheduled_facts.

Lemma forEach_app {A S : Type} (body : A -> S -> option S) l1 l2 s :
  forEach (l1 ++ l2) body s = s' ← forEach l1 body s; forEach l2 body s'.
Proof.
  revert s. induction l1 as [|a l1 IH]; intros s; simpl; [reflexivity|].
  destruct (body a s) as [s1|]; simpl; [apply IH|reflexivity].
Qed.

Lemma forEach_map {A B S : Type} (f : A -> B) (body : B -> S -> option S) l s :
  forEach (map f l) body s = forEach l (fun a => body (f a)) s.
Proof.
  revert s. induction l as [|a l IH]; intros s; simpl; [reflexivity|].
  destruct (body (f a) s) as [s1|]; simpl; [apply IH|reflexivity].
Qed.

Lemma forEach_ext {A S : Type} (P : A -> Prop) (body1 body2 : A -> S -> option S) l :
  Forall P l -> (forall a s, P a -> body1 a s = body2 a s) ->
  forall s, forEach l body1 s = forEach l body2 s.
Proof.
  intros Hl Hext. induction Hl as [|a l Ha Hl IH]; intros s; simpl; [reflexivity|].
  rewrite (Hext a s Ha). destruct (body2 a s) as [s1|]; simpl; [apply IH|reflexivity].
Qed.

Section Engine.
Context {M W : Type} `{Member M W}.

(** *** The goroutines one after the other *)

Lemma finish_distanceRow (solver : Solver M) i mi others rest w (fitnessSum : Z) :
  population solver !! Z.to_nat i = Some mi ->
  finish (distanceRow solver i others rest) (w, fitnessSum) =
    w' ← forEach others (fun mj w => Some (snd (Distance mi mj w))) w;
    finish rest (w', fitnessSum).
Proof.
  intros Hi. revert w. induction others as [|mj others IH]; intros w; simpl; [reflexivity|].
  rewrite Hi. simpl. apply IH.
Qed.

Lemma finish_distanceRoutine (solver : Solver M) idx : forall w (fitnessSum : Z),
  (forall i, i ∈ idx -> is_Some (population solver !! Z.to_nat i)) ->
  finish (distanceRoutine solver idx) (w, fitnessSum) =
    w' ← forEach idx (fun i w =>
            mi ← population solver !! Z.to_nat i;
            forEach (population solver) (fun mj w => Some (snd (Distance mi mj w))) w) w;
    Some (w', fitnessSum).
Proof.
  induction idx as [|i idx IH]; intros w fitnessSum Hidx; simpl; [reflexivity|].
  destruct (Hidx i) as [mi Hmi]; [left|].
  rewrite (finish_distanceRow solver i mi _ _ w fitnessSum Hmi). rewrite Hmi. simpl.
  destruct (forEach (population solver) _ w) as [w1|]; simpl; [|reflexivity].
  apply IH. intros j Hj. apply Hidx. right. exact Hj.
Qed.

Lemma finish_fitnessRoutine (solver : Solver M) idx : forall s,
  finish (fitnessRoutine solver idx) s =
    forEach idx (fun i '(w, fitnessSum) =>
        mi ← population solver !! Z.to_nat i;
        let w1 := ComputeAndSetFitnessScore mi w in
        Some (w1, wrap32 (fitnessSum + GetFitnessScore mi w1))) s.
Proof.
  induction idx as [|i idx IH]; intros [w fitnessSum]; simpl; [reflexivity|].
  destruct (population solver !! Z.to_nat i) as [mi|]; simpl; [|reflexivity].
  apply IH.
Qed.

Lemma finish_scan (solver : Solver M) found pop : forall randValue w np,
  finish (ga_scheduled.scan solver pop randValue found) (w, np) =
    match ga.scan pop randValue w with
    | Some member => finish (found member) (w, np)
    | None =>
        match population solver
                !! Z.to_nat (wrap32 (PopulationSize (options solver) - 1)) with
        | Some member => finish (found member) (w, np)
        | None => None
        end
    end.
Proof.
  induction pop as [|member rest IH]; intros randValue w np; simpl.
  - destruct (population solver !! _); reflexivity.
  - destruct (f32_ltb randValue (GetSurvivalChance member w)); [reflexivity|]. apply IH.
Qed.

Lemma finish_pickRandomMember (solver : Solver M) found w np :
  finish (ga_scheduled.pickRandomMember solver found) (w, np) =
    '(member, w1) ← ga.pickRandomMember solver w; finish (found member) (w1, np).
Proof.
  unfold ga_scheduled.pickRandomMember, ga.pickRandomMember. simpl.
  rewrite finish_scan. destruct (rand_Float32 w) as [randValue w1]. simpl.
  destruct (ga.scan (population solver) randValue w1) as [m|]; [reflexivity|].
  destruct (population solver !! _); reflexivity.
Qed.

Lemma finish_breedRoutine (solver : Solver M) idx : forall s,
  finish (breedRoutine solver idx) s =
    forEach idx (fun i '(w, nextPopulation) =>
        '(parent1, w1) ← ga.pickRandomMember solver w;
        '(parent2, w2) ← ga.pickRandomMember solver w1;
        let '(child, w3) := Crossover parent1 parent2 w2 in
        let '(r, w4) := rand_Float32 w3 in
        let w5 := if f32_ltb r (MutationChance (options solver))
                  then Mutate child w4 else w4 in
        if decide (Z.to_nat i < length nextPopulation)%nat
        then Some (w5, <[Z.to_nat i := child]> nextPopulation)
        else None) s.
Proof.
  induction idx as [|i idx IH]; intros [w np]; cbn [breedRoutine forEach]; [reflexivity|].
  rewrite finish_pickRandomMember.
  destruct (ga.pickRandomMember solver w) as [[parent1 w1]|]; [|reflexivity].
  cbn [mbind option_bind]. rewrite finish_pickRandomMember.
  destruct (ga.pickRandomMember solver w1) as [[parent2 w2]|]; [|reflexivity].
  cbn [mbind option_bind]. cbn [finish]. cbn [mbind option_bind fst].
  destruct (Crossover parent1 parent2 w2) as [child w3]. cbn [fst snd].
  destruct (rand_Float32 w3) as [r w4]. cbn [fst snd].
  destruct (f32_ltb r (MutationChance (options solver))); cbn [finish mbind option_bind];
    (destruct (decide (Z.to_nat i < length np)%nat); cbn [mbind option_bind];
     [apply IH|reflexivity]).
Qed.

Lemma evaluationPhase_in_order (solver : Solver M) batches w :
  ready solver -> chained batches 0 (PopulationSize (options solver)) ->
  evaluationPhase [] solver batches w =
    w1 ← (if Speciation (options solver)
          then speciationPhase solver batches w else Some w);
    fitnessPhase solver batches w1.
Proof.
  intros Hr Hch. pose proof (batches_in_range solver batches Hr Hch) as Hin.
  unfold evaluationPhase. cbn [run].
  assert (Hfit : forall s,
            forEach (map (fun b => fitnessRoutine solver (indices b)) batches) finish s =
            forEach batches (fun b => forEach (indices b) (fun i '(w, fitnessSum) =>
                mi ← population solver !! Z.to_nat i;
                let w1 := ComputeAndSetFitnessScore mi w in
                Some (w1, wrap32 (fitnessSum + GetFitnessScore mi w1)))) s).
  { intros s. rewrite forEach_map.
    apply (forEach_ext (fun _ => True)); [apply Forall_forall; auto|].
    intros b s0 _. apply finish_fitnessRoutine. }
  destruct (Speciation (options solver)).
  - rewrite forEach_app, forEach_map.
    assert (Hdist : forall (fitnessSum : Z) w,
              forEach batches (fun b => finish (distanceRoutine solver (indices b)))
                (w, fitnessSum) =
              w' ← speciationPhase solver batches w; Some (w', fitnessSum)).
    { intros fitnessSum. unfold speciationPhase. clear Hch Hfit.
      induction Hin as [|b batches Hb Hin IH]; intros w0; simpl; [reflexivity|].
      rewrite (finish_distanceRoutine solver (indices b) w0 fitnessSum Hb).
      destruct (forEach (indices b) _ w0) as [w1|]; simpl; [apply IH|reflexivity]. }
    rewrite Hdist. destruct (speciationPhase solver batches w) as [w1|]; simpl;
      [|reflexivity].
    unfold fitnessPhase. apply Hfit.
  - simpl. unfold fitnessPhase. apply Hfit.
Qed.

Lemma breedPhase_in_order (solver : Solver M) batches w :
  ga_scheduled.breedPhase [] solver batches w = ga.breedPhase solver batches w.
Proof.
  unfold ga_scheduled.breedPhase, ga.breedPhase. cbn [run]. rewrite forEach_map.
  apply (forEach_ext (fun _ => True)); [apply Forall_forall; auto|].
  intros b s _. apply finish_breedRoutine.
Qed.

Lemma generation_in_order (solver : Solver M) batches w :
  ready solver -> chained batches 0 (PopulationSize (options solver)) ->
  ga_scheduled.generation ([], []) solver batches w = ga.generation solver batches w.
Proof.
  intros Hr Hch. unfold ga_scheduled.generation, ga.generation. cbn [fst snd].
  rewrite (evaluationPhase_in_order solver batches w Hr Hch).
  destruct (if Speciation (options solver) then speciationPhase solver batches w
            else Some w) as [w1|]; [|reflexivity].
  cbn [mbind option_bind].
  destruct (fitnessPhase solver batches w1) as [[w2 fitnessSum]|]; [|reflexivity].
  cbn [mbind option_bind].
  destruct (generationNo solver =? MaxGenerations (options solver)); [reflexivity|].
  rewrite breedPhase_in_order. reflexivity.
Qed.

Lemma loop_in_order batches : forall fuel (solver : Solver M) w done,
  ready solver -> chained batches 0 (PopulationSize (options solver)) ->
  ga_scheduled.loop fuel (fun _ => ([], [])) solver batches w done =
    ga.loop fuel solver batches w done.
Proof.
  induction fuel as [|fuel IH]; intros solver w done Hr Hch; [reflexivity|].
  cbn [ga_scheduled.loop ga.loop].
  rewrite (generation_in_order solver batches w Hr Hch).
  destruct (ga_facts.generation_runs solver batches w Hr Hch)
    as [(_ & b & w' & -> & _)|(_ & solver' & w' & -> & Hr' & Hopt & _)]; [reflexivity|].
  apply IH; [exact Hr'|]. rewrite Hopt. exact Hch.
Qed.

(** The functions of package [ga] above, in which each goroutine runs to
    its end before the next one starts, are the goroutines under the empty
    schedule: one of the runs of [Solve]. *)
Lemma Solve_in_order (members : list M) o (solver : Solver M) w :
  uint32_options o -> NewSolver members o = Some solver ->
  ga_scheduled.Solve (fun _ => ([], [])) solver w = ga.Solve solver w.
Proof.
  intros Ho Hnew. pose proof (NewSolver_ready _ _ _ Ho Hnew) as Hr.
  unfold ga_scheduled.Solve, ga.Solve. pose proof Hr as (HPS & HNB & _).
  destruct (BuildBatchesList_chained (PopulationSize (options solver))
              (NBatches (options solver))) as (batches & -> & Hch); [lia|exact HNB|].
  apply loop_in_order; assumption.
Qed.

End Engine.

End ga_in_order.

Module ga_sum.
Import batching batching_facts ga ga_facts goroutine goroutine_facts ga_scheduled
  ga_scheduled_facts.

Lemma elem_of_concat {A : Type} (ls : list (list A)) x :
  x ∈ concat ls <-> exists l, l ∈ ls /\ x ∈ l.
Proof.
  induction ls as [|l0 ls IH]; simpl.
  - split; [intros Hx; inversion Hx|intros (l & Hl & _); inversion Hl].
  - rewrite elem_of_app, IH. split.
    + intros [Hx|(l & Hl & Hx)]; [exists l0; split; [left|exact Hx]|].
      exists l. split; [right; exact Hl|exact Hx].
    + intros (l & Hl & Hx). apply elem_of_cons in Hl as [->|Hl]; [left; exact Hx|].
      right. exists l. auto.
Qed.

Lemma NoDup_concat_lookup {A : Type} (ls : list (list A)) : forall i j li lj x,
  NoDup (concat ls) -> ls !! i = Some li -> ls !! j = Some lj -> i <> j ->
  x ∈ li -> x ∈ lj -> False.
Proof.
  induction ls as [|l ls IH]; intros i j li lj x Hnd Hi Hj Hne Hxi Hxj.
  - destruct i; discriminate.
  - simpl in Hnd. apply NoDup_app in Hnd as (Hl & Hdisj & Hrest).
    assert (Hin : forall k lk, ls !! k = Some lk -> x ∈ lk -> x ∈ concat ls).
    { intros k lk Hk Hx. apply elem_of_concat. exists lk.
      split; [eapply list_elem_of_lookup_2; exact Hk|exact Hx]. }
    destruct i as [|i], j as [|j]; simpl in Hi, Hj.
    + congruence.
    + injection Hi as <-. apply (Hdisj x Hxi). eapply Hin; eauto.
    + injection Hj as <-. apply (Hdisj x Hxj). eapply Hin; eauto.
    + eapply (IH i j); eauto.
Qed.

Lemma NoDup_concat_part {A : Type} (ls : list (list A)) i li :
  NoDup (concat ls) -> ls !! i = Some li -> NoDup li.
Proof.
  revert i. induction ls as [|l ls IH]; intros i Hnd Hi; [destruct i; discriminate|].
  simpl in Hnd. apply NoDup_app in Hnd as (Hl & _ & Hrest).
  destruct i as [|i]; simpl in Hi; [injection Hi as <-; exact Hl|eauto].
Qed.

Section Engine.
Context {M W : Type} `{Member M W}.

Lemma total_fitness_app (l1 l2 : list M) w :
  total_fitness (l1 ++ l2) w = total_fitness l1 w + total_fitness l2 w.
Proof.
  unfold total_fitness. induction l1 as [|x l1 IH]; simpl; [reflexivity|].
  rewrite IH. lia.
Qed.

Lemma total_fitness_same (l : list M) w w' :
  (forall m, m ∈ l -> GetFitnessScore m w' = GetFitnessScore m w) ->
  total_fitness l w' = total_fitness l w.
Proof.
  unfold total_fitness. induction l as [|x l IH]; simpl; intros Hsame; [reflexivity|].
  rewrite Hsame by left. rewrite IH; [reflexivity|]. intros m Hm. apply Hsame. right. exact Hm.
Qed.

Lemma total_fitness_concat_insert (gs : list standing) t g g' w :
  gs !! t = Some g ->
  total_fitness (concat (map counted_by (<[t := g']> gs))) w =
    total_fitness (concat (map counted_by gs)) w
    - total_fitness (counted_by g) w + total_fitness (counted_by g') w.
Proof.
  revert t. induction gs as [|g0 gs IH]; intros t Ht; [destruct t; discriminate|].
  destruct t as [|t]; simpl in Ht |- *.
  - injection Ht as <-. rewrite !total_fitness_app. lia.
  - rewrite !total_fitness_app. rewrite (IH t Ht). lia.
Qed.

Lemma stands_distanceRow (solver : Solver M) i others rest :
  is_Some (population solver !! Z.to_nat i) -> stands Measuring rest ->
  stands Measuring (distanceRow solver i others rest).
Proof.
  intros [mi Hi] Hrest. induction others as [|mj others IH]; simpl; [exact Hrest|].
  rewrite Hi. apply stands_measuring; [|intros _; exact IH].
  intros [w fitnessSum]. exists mi, mj. reflexivity.
Qed.

Lemma stands_distanceRoutine (solver : Solver M) idx :
  (forall i, i ∈ idx -> is_Some (population solver !! Z.to_nat i)) ->
  stands Measuring (distanceRoutine solver idx).
Proof.
  induction idx as [|i idx IH]; simpl; intros Hidx; [constructor|].
  apply stands_distanceRow; [apply Hidx; left|].
  apply IH. intros j Hj. apply Hidx. right. exact Hj.
Qed.

Lemma stands_fitnessRoutine (solver : Solver M) idx : forall counted,
  (forall i, i ∈ idx -> is_Some (population solver !! Z.to_nat i)) ->
  stands (Scoring counted None
            (flat_map (fun i => option_list (population solver !! Z.to_nat i)) idx))
         (fitnessRoutine solver idx).
Proof.
  induction idx as [|i idx IH]; simpl; intros counted Hidx; [constructor|].
  destruct (Hidx i) as [mi Hmi]; [left|]. rewrite Hmi. simpl.
  apply stands_compute; [intros [w fitnessSum]; reflexivity|]. intros _.
  apply stands_read; [reflexivity|]. intros s. cbv zeta.
  apply stands_add; [intros [w fitnessSum]; reflexivity|]. intros _.
  apply IH. intros j Hj. apply Hidx. right. exact Hj.
Qed.

(** The members of the batches of a chained sequence, batch after batch,
    are the members of the population from the first index to the last. *)
Lemma batch_members_indices (pop : list M) (len : nat) : forall lo,
  0 <= lo -> (Z.to_nat lo + len <= length pop)%nat ->
  flat_map (fun i => option_list (pop !! Z.to_nat i)) (seqZ lo (Z.of_nat len)) =
    take len (drop (Z.to_nat lo) pop).
Proof.
  induction len as [|len IH]; intros lo Hlo Hlen; [reflexivity|].
  rewrite Nat2Z.inj_succ, seqZ_cons by lia. simpl.
  destruct (lookup_lt_is_Some_2 pop (Z.to_nat lo) ltac:(lia)) as [m Hm].
  rewrite Hm. simpl. rewrite (drop_S _ _ _ Hm). simpl. f_equal.
  replace (Z.pred (Z.succ (Z.of_nat len))) with (Z.of_nat len) by lia.
  rewrite IH by lia. replace (Z.to_nat (Z.succ lo)) with (S (Z.to_nat lo)) by lia.
  reflexivity.
Qed.

Lemma batch_members_chained (pop : list M) batches : forall lo hi,
  0 <= lo -> chained batches lo hi -> hi <= Z.of_nat (length pop) ->
  concat (map (batch_members pop) batches) =
    take (Z.to_nat (hi - lo)) (drop (Z.to_nat lo) pop).
Proof.
  induction batches as [|b batches IH]; intros lo hi Hlo Hch Hhi; simpl in *.
  - subst. rewrite Z.sub_diag. reflexivity.
  - destruct Hch as (Hst & Hle & Hch). pose proof (chained_le _ _ _ Hch) as Hle2.
    rewrite (IH (End b) hi) by (assumption || lia).
    unfold batch_members, indices.
    replace (End b - Start b) with (Z.of_nat (Z.to_nat (End b - Start b))) by lia.
    rewrite batch_members_indices by lia. subst lo.
    replace (Z.to_nat (hi - Start b))
      with (Z.to_nat (End b - Start b) + Z.to_nat (hi - End b))%nat by lia.
    rewrite <- take_take_drop, drop_drop.
    replace (Z.to_nat (Start b) + Z.to_nat (End b - Start b))%nat
      with (Z.to_nat (End b)) by lia.
    reflexivity.
Qed.

Section Sum.
(** Computing the fitness of a member leaves the scores of the other
    members as they are, and so does taking a distance. *)
Hypothesis fitness_frame : forall (m m' : M) w,
  m <> m' ->
  GetFitnessScore m (ComputeAndSetFitnessScore m' w) = GetFitnessScore m w.
Hypothesis distance_frame : forall (m a b : M) w,
  GetFitnessScore m (snd (Distance a b w)) = GetFitnessScore m w.

(** Whatever the schedule of the goroutines, with or without speciation:
    when [wg.Wait()] returns, [fitnessSum] is the sum, modulo [2^32], of
    the scores that the members of the population then have. *)
Lemma evaluationPhase_sum schedule (solver : Solver M) batches w :
  Z.of_nat (length (population solver)) = PopulationSize (options solver) ->
  NoDup (population solver) ->
  chained batches 0 (PopulationSize (options solver)) ->
  exists w2 fitnessSum,
    evaluationPhase schedule solver batches w = Some (w2, fitnessSum) /\
    fitnessSum = wrap32 (total_fitness (population solver) w2).
Proof.
  intros Hlen Hnd Hch. unfold evaluationPhase.
  set (pop := population solver) in *.
  assert (Hin : Forall (fun b => forall i, i ∈ indices b ->
                          is_Some (pop !! Z.to_nat i)) batches).
  { apply Forall_lookup. intros k b Hk i Hi. apply indices_in_range in Hi.
    destruct (chained_bounds _ _ _ _ _ Hch Hk) as (Hlo & _ & Hhi).
    apply lookup_lt_is_Some. lia. }
  set (start := (if Speciation (options solver)
                 then map (fun _ : BatchInfo => @Measuring M) batches else [])
                ++ map (fun b => Scoring [] None (batch_members pop b)) batches).
  assert (Hall : concat (map members_of start) = pop).
  { unfold start. rewrite map_app, concat_app.
    assert (Hm : concat (map members_of
                (if Speciation (options solver)
                 then map (fun _ : BatchInfo => @Measuring M) batches else [])) = []).
    { destruct (Speciation (options solver)); [|reflexivity].
      clear. induction batches; simpl; auto. }
    rewrite Hm. cbn [app]. rewrite map_map.
    rewrite (map_ext _ (batch_members pop)) by reflexivity.
    rewrite (batch_members_chained pop batches 0 (PopulationSize (options solver)))
      by (assumption || lia).
    rewrite drop_0. apply take_ge. lia. }
  destruct (run_invariant stands
              (fun gs (s : W * Z) =>
                 map members_of gs = map members_of start /\
                 snd s = wrap32 (total_fitness (concat (map counted_by gs)) (fst s)) /\
                 (forall t counted m v waiting,
                    gs !! t = Some (Scoring counted (Some (m, Some v)) waiting) ->
                    v = GetFitnessScore m (fst s))))
      with (schedule := schedule) (ghosts := start) (s := (w, 0))
           (goroutines :=
              (if Speciation (options solver)
               then map (fun b => distanceRoutine solver (indices b)) batches else [])
              ++ map (fun b => fitnessRoutine solver (indices b)) batches)
    as ([w2 fitnessSum] & gs & Hrun & (Hmem & Hsum & _) & Hdone).
  - intros g act next gs t s HT Hg (Hmem & Hsum & Hcur).
    assert (Ht : (t < length gs)%nat) by (eapply lookup_lt_Some; exact Hg).
    assert (Hndg : NoDup (concat (map members_of gs))) by (rewrite Hmem, Hall; exact Hnd).
    assert (Hkeep : forall g', members_of g' = members_of g ->
              map members_of (<[t := g']> gs) = map members_of start).
    { intros g' Heq. rewrite list_fmap_insert, Heq.
      rewrite list_insert_id; [exact Hmem|]. rewrite list_lookup_fmap, Hg. reflexivity. }
    assert (Hother : forall m t' g', gs !! t' = Some g' -> m ∈ members_of g ->
              m ∈ members_of g' -> t' = t).
    { intros m t' g' Hg' Hm Hm'. destruct (decide (t' = t)) as [|Hne]; [assumption|].
      exfalso. apply (NoDup_concat_lookup (map members_of gs) t' t
                        (members_of g') (members_of g) m Hndg);
        [rewrite list_lookup_fmap, Hg'; reflexivity
        |rewrite list_lookup_fmap, Hg; reflexivity|exact Hne|exact Hm'|exact Hm]. }
    assert (Hown : NoDup (members_of g)).
    { apply (NoDup_concat_part (map members_of gs) t); [exact Hndg|].
      rewrite list_lookup_fmap, Hg. reflexivity. }
    inversion HT as [|? ? Hact Hnext| |counted m waiting ? ? Hact Hnext
                     |counted m waiting ? ? Hact Hnext
                     |counted m v waiting ? ? Hact Hnext]; subst.
    + destruct (Hact s) as (mi & mj & Hs'). eexists _, Measuring.
      split; [exact Hs'|]. split; [apply Hnext|].
      rewrite list_insert_id by exact Hg. cbn [fst snd].
      split; [exact Hmem|]. split.
      * rewrite Hsum. f_equal. symmetry. apply total_fitness_same.
        intros m _. apply distance_frame.
      * intros t' c m v wt Hl. rewrite distance_frame. eapply Hcur; exact Hl.
    + eexists _, (Scoring counted (Some (m, None)) waiting).
      split; [apply Hact|]. split; [apply Hnext|]. cbn [fst snd].
      assert (Hfresh : forall t' g' m', (<[t := Scoring counted (Some (m, None)) waiting]> gs)
                          !! t' = Some g' -> m' ∈ computed_by g' -> m' <> m ->
                GetFitnessScore m' (ComputeAndSetFitnessScore m (fst s))
                = GetFitnessScore m' (fst s)).
      { intros t' g' m' _ _ Hne. apply fitness_frame. exact Hne. }
      assert (Hdiff : forall t' g' m', gs !! t' = Some g' -> m' ∈ computed_by g' -> m' <> m).
      { intros t' g' m' Hg' Hm' ->.
        assert (Hmg' : m ∈ members_of g').
        { destruct g' as [|c cur wt]; simpl in *; [inversion Hm'|].
          rewrite app_assoc. apply elem_of_app. left. exact Hm'. }
        assert (t' = t).
        { apply (Hother m t' g' Hg'); [|exact Hmg'].
          simpl. apply elem_of_app. right. left. }
        subst t'. rewrite Hg in Hg'. injection Hg' as <-. simpl in Hm', Hown.
        rewrite app_nil_r in Hm'.
        apply NoDup_app in Hown as (_ & Hdisj & _).
        apply (Hdisj m Hm'). left. }
      split; [apply Hkeep; reflexivity|]. split.
      * rewrite (total_fitness_concat_insert gs t _ _ _ Hg). simpl.
        replace (total_fitness (concat (map counted_by gs)) (ComputeAndSetFitnessScore m (fst s))
                 - total_fitness counted (ComputeAndSetFitnessScore m (fst s))
                 + total_fitness counted (ComputeAndSetFitnessScore m (fst s)))
          with (total_fitness (concat (map counted_by gs)) (ComputeAndSetFitnessScore m (fst s)))
          by lia.
        rewrite Hsum. f_equal. symmetry. apply total_fitness_same.
        intros m' Hm'. apply fitness_frame.
        apply elem_of_concat in Hm' as (l & Hl & Hm').
        apply list_elem_of_fmap in Hl as (g' & -> & Hg').
        apply list_elem_of_lookup in Hg' as (t' & Hg').
        apply (Hdiff t' g' m' Hg'). destruct g' as [|c cur wt]; simpl in *;
          [inversion Hm'|]. apply elem_of_app. left. exact Hm'.
      * intros t' c m' v wt Hl.
        destruct (decide (t' = t)) as [->|Hne].
        -- rewrite list_lookup_insert_eq in Hl by exact Ht. discriminate.
        -- rewrite list_lookup_insert_ne in Hl by auto.
           rewrite fitness_frame; [eapply Hcur; exact Hl|].
           apply (Hdiff t' _ m' Hl). simpl. apply elem_of_app. right. left.
    + eexists s, (Scoring counted (Some (m, Some (GetFitnessScore m (fst s)))) waiting).
      split; [apply Hact|]. split; [apply Hnext|].
      split; [apply Hkeep; reflexivity|]. split.
      * rewrite (total_fitness_concat_insert gs t _ _ _ Hg). simpl. rewrite Hsum. f_equal. lia.
      * intros t' c m' v wt Hl.
        destruct (decide (t' = t)) as [->|Hne].
        -- rewrite list_lookup_insert_eq in Hl by exact Ht. congruence.
        -- rewrite list_lookup_insert_ne in Hl by auto. eapply Hcur; exact Hl.
    + eexists _, (Scoring (counted ++ [m]) None waiting).
      split; [apply Hact|]. split; [apply Hnext|]. cbn [fst snd].
      split; [apply Hkeep; simpl; rewrite <- app_assoc; reflexivity|]. split.
      * rewrite (total_fitness_concat_insert gs t _ _ _ Hg). simpl.
        rewrite total_fitness_app. unfold total_fitness at 4. simpl.
        rewrite (Hcur t counted m v waiting Hg), Hsum.
        unfold wrap32. rewrite Zplus_mod_idemp_l. f_equal. lia.
      * intros t' c m' v' wt Hl.
        destruct (decide (t' = t)) as [->|Hne].
        -- rewrite list_lookup_insert_eq in Hl by exact Ht. discriminate.
        -- rewrite list_lookup_insert_ne in Hl by auto. eapply Hcur; exact Hl.
  - unfold start. apply Forall2_app.
    + destruct (Speciation (options solver)); [|constructor].
      apply Forall2_fmap. apply Forall_Forall2_diag.
      eapply Forall_impl; [exact Hin|]. intros b Hb. simpl.
      apply stands_distanceRoutine. exact Hb.
    + apply Forall2_fmap. apply Forall_Forall2_diag.
      eapply Forall_impl; [exact Hin|]. intros b Hb. simpl.
      apply stands_fitnessRoutine. exact Hb.
  - cbn [fst snd]. split; [reflexivity|]. split.
    + assert (Hc : concat (map counted_by start) = []).
      { unfold start. rewrite map_app, concat_app.
        destruct (Speciation (options solver)); simpl; clear;
          induction batches; simpl; auto. }
      rewrite Hc. reflexivity.
    + intros t c m v wt Hl. unfold start in Hl.
      apply lookup_app_Some in Hl as [Hl|[_ Hl]].
      * destruct (Speciation (options solver)); [|destruct t; discriminate].
        rewrite list_lookup_fmap in Hl. destruct (batches !! t); discriminate.
      * rewrite list_lookup_fmap in Hl. destruct (batches !! _); discriminate.
  - exists w2, fitnessSum. split; [exact Hrun|]. cbn [fst snd] in Hsum.
    rewrite Hsum. f_equal. f_equal.
    assert (Heq : map counted_by gs = map members_of gs).
    { apply list_eq. intros k. rewrite !list_lookup_fmap.
      destruct (gs !! k) as [g|] eqn:Ek; [|reflexivity]. simpl. f_equal.
      assert (Hd : stands g Done) by exact (Forall_lookup_1 _ _ _ _ Hdone Ek).
      inversion Hd; subst; simpl; [reflexivity|]. rewrite app_nil_r. reflexivity. }
    rewrite Heq, Hmem. exact Hall.
Qed.

End Sum.
End Engine.

End ga_sum.

Module ga_scheduled_witnesses.
Import batching batching_facts ga ga_facts ga_more goroutine ga_scheduled
  ga_scheduled_facts ga_sum.

(** The theorem on the client: three individuals of scores 3, 9 and 9 in
    two batches, two generations, the goroutines taking their steps in
    turn. *)
Lemma Solve_returns_first_fittest_witness :
  let members := client.members [3; 9; 9] in
  let o := client.plain 3 2 2 in
  let solver := {| population := members; options := o; generationNo := 1 |} in
  let w := {| client.heap := client.individuals [3; 9; 9]; client.source := [] |} in
  let schedules := fun _ : Z => ([1; 0; 1; 0; 1; 1]%nat, [1; 0; 0; 1; 1; 0]%nat) in
  uint32_options o /\ 1 <= MaxGenerations o /\
  NewSolver members o = Some solver /\
  exists r batches w0 calls,
    Solve schedules solver w = Returned r /\
    iterations r = MaxGenerations o /\
    generationNo (final r) = MaxGenerations o /\
    generations members (PopulationSize o) (MaxGenerations o) (population (final r)) /\
    (MaxGenerations o = 1 -> population (final r) = members /\ w0 = w) /\
    BuildBatchesList (PopulationSize o) (NBatches (options solver)) = Some batches /\
    interleaving (evaluation_calls (final r) batches) calls /\
    world r = replay calls w0 /\
    first_fittest (population (final r)) (world r) (best r).
Proof.
  intros members o solver w schedules.
  assert (Ho : uint32_options o) by (unfold uint32_options; simpl; lia).
  assert (HMG : 1 <= MaxGenerations o) by (simpl; lia).
  assert (Hnew : NewSolver members o = Some solver) by reflexivity.
  split; [exact Ho|]. split; [exact HMG|]. split; [exact Hnew|].
  exact (Solve_returns_first_fittest members o solver schedules w Ho HMG Hnew).
Defined.

Lemma client_distance_frame (m a b : nat) w :
  client.GetFitnessScore m (snd (client.Distance a b w)) = client.GetFitnessScore m w.
Proof. reflexivity. Qed.

(** [evaluationPhase_sum] on three members of scores 3, 9 and 9 in two
    batches, the second goroutine starting first. *)
Lemma evaluationPhase_sum_witness :
  let solver := {| population := client.members [3; 9; 9];
                   options := client.plain 3 2 2; generationNo := 1 |} in
  let w := {| client.heap := client.individuals [3; 9; 9]; client.source := [] |} in
  let batches := [ {| Start := 0; End := 1 |}; {| Start := 1; End := 3 |} ] in
  let schedule := [1; 0; 1; 1; 0]%nat in
  Z.of_nat (length (population solver)) = PopulationSize (options solver) /\
  NoDup (population solver) /\
  chained batches 0 (PopulationSize (options solver)) /\
  evaluationPhase schedule solver batches w
    = Some (default w (fst <$> evaluationPhase schedule solver batches w), 21) /\
  exists w2 fitnessSum,
    evaluationPhase schedule solver batches w = Some (w2, fitnessSum) /\
    fitnessSum = wrap32 (total_fitness (population solver) w2).
Proof.
  intros solver w batches schedule.
  assert (H1 : Z.of_nat (length (population solver)) = PopulationSize (options solver))
    by reflexivity.
  assert (H2 : NoDup (population solver)) by apply NoDup_seq.
  assert (H3 : chained batches 0 (PopulationSize (options solver)))
    by (simpl; repeat split; lia).
  split; [exact H1|]. split; [exact H2|]. split; [exact H3|].
  split; [vm_compute; reflexivity|].
  exact (evaluationPhase_sum client_fitness_frame client_distance_frame
           schedule solver batches w H1 H2 H3).
Defined.

End ga_scheduled_witnesses.

(** ** Further theorems: package neat *)

Module neat_more.
Import neat scenario neat_facts.

(** *** What every operation keeps

    A property [P] of networks and a property [Q] of recorded connections
    that the elementary changes of the package keep are kept by every
    operation. *)
Section Preserved.
Variable P : Network -> Prop.
Variable Q : connection -> Prop.
Variables math_Tanh math_Exp : float64 -> float64.
Variable math_Pow : float64 -> float64 -> float64.
Variable uint32_of_float64 : float64 -> Z.

Hypothesis P_new : forall nInputs nOutputs,
  0 <= nInputs < 2 ^ 32 -> 0 <= nOutputs < 2 ^ 32 -> P (newNetwork nInputs nOutputs).
Hypothesis P_MemberData : forall d n, P n -> P (with_MemberData d n).
Hypothesis P_nSimilar : forall k n, P n -> P (with_nSimilar k n).
Hypothesis P_normalised : forall n, P n -> P (normalised n).
Hypothesis P_reweighs : forall f n,
  reweighs f -> P n -> P (with_connections (imap f (connections n)) n).
Hypothesis P_connection : forall n c,
  P n -> Q c -> P (with_connections (connections n ++ [c]) n).
Hypothesis P_node : forall n senderNode c1 c2,
  P n -> senderNode ∈ nodes n -> wrap32 (layer senderNode + 1) < maxDepth ->
  Q c1 -> Q c2 ->
  P (with_connections (connections n ++ [c1; c2])
       (with_nodes (nodes n ++ [{| id := wrap32 (Z.of_nat (length (nodes n)));
                                   layer := wrap32 (layer senderNode + 1);
                                   activation := TanhActivation |}]) n)).
Hypothesis P_offspring : forall n o coin, P n -> P o -> P (offspring n o coin).
Hypothesis Q_made : forall key r innovation, Q (made key r innovation).

Lemma kept_by_store net n st :
  kept_by P Q st -> P n -> kept_by P Q (store net n st).
Proof.
  intros [HP HQ] Hn. split.
  - intros p n'. destruct (decide (p = net)) as [->|Hne].
    + rewrite load_store. intros [= <-]. exact Hn.
    + rewrite load_store_ne by auto. apply HP.
  - intros key mut. rewrite history_lookup_store. apply HQ.
Qed.

Lemma kept_by_globals st st' :
  heap st' = heap st ->
  (forall key mut, history_lookup key st' = Some mut ->
                   history_lookup key st = Some mut \/ Q (conn mut)) ->
  kept_by P Q st -> kept_by P Q st'.
Proof.
  intros Hh Hl [HP HQ]. split.
  - intros net n. unfold load. rewrite Hh. apply HP.
  - intros key mut Hk. destruct (Hl key mut Hk) as [Hk'|Hq]; [eapply HQ; exact Hk'|exact Hq].
Qed.

Lemma kept_by_clear st : kept_by P Q st -> kept_by P Q (clearMutationHistory st).
Proof.
  apply kept_by_globals.
  - unfold clearMutationHistory. destruct (mutationHistory st); reflexivity.
  - intros key mut. unfold clearMutationHistory, history_lookup.
    destruct (mutationHistory st) eqn:E; simpl; [|rewrite E; auto].
    rewrite lookup_empty. discriminate.
Qed.

Lemma kept_by_addConnection net senderRaw receiverRaw r st st' :
  kept_by P Q st -> addConnection net senderRaw receiverRaw r st = Some st' -> kept_by P Q st'.
Proof.
  intros Hk Hrun.
  destruct (load net st) as [n|] eqn:Hn;
    [|unfold addConnection in Hrun; rewrite Hn in Hrun; discriminate].
  pose proof Hk as [HP HQ].
  destruct (addConnection_cases _ _ _ _ _ _ _ Hn Hrun)
    as [->|(s & t & sn & rn & _ & _ & _ & _ & _ & [(mut & Hl & _ & ->)|(h & Hh & _ & ->)])].
  - exact Hk.
  - apply kept_by_store; [exact Hk|]. apply P_connection; [eauto|eapply HQ; exact Hl].
  - split.
    + intros p n'. unfold load. simpl.
      destruct (decide (p = net)) as [->|Hne].
      * rewrite lookup_insert_eq. intros [= <-]. apply P_connection; [eauto|apply Q_made].
      * rewrite lookup_insert_ne by auto. apply HP.
    + intros key mut. unfold history_lookup. simpl.
      destruct (decide (key = {| senderId := wrap32 s; receiverId := wrap32 t |})) as [->|Hne].
      * rewrite lookup_insert_eq. intros [= <-]. apply Q_made.
      * rewrite lookup_insert_ne by auto. intros Hm. apply (HQ key).
        unfold history_lookup. rewrite Hh. exact Hm.
Qed.

Lemma kept_by_addNode net connRaw r1 r2 st st' :
  kept_by P Q st -> addNode net connRaw r1 r2 st = Some st' -> kept_by P Q st'.
Proof.
  intros Hk Hrun.
  destruct (load net st) as [n|] eqn:Hn;
    [|unfold addNode in Hrun; rewrite Hn in Hrun; discriminate].
  pose proof Hk as [HP HQ].
  destruct (addNode_cases _ _ _ _ _ _ _ Hn Hrun)
    as [->|(c & sn & _ & _ & Hsn & Hd &
            [(m1 & m2 & Hl1 & Hl2 & _ & _ & ->)|(_ & Hfresh)])].
  - exact Hk.
  - apply kept_by_store; [exact Hk|].
    apply (P_node n sn); [eauto|eapply list_elem_of_lookup_2; exact Hsn|exact Hd| |].
    + eapply HQ; exact Hl1.
    + eapply HQ; exact Hl2.
  - apply addNode_fresh_spec in Hfresh as (h & Hh & ->). split.
    + intros p n'. unfold load. simpl.
      destruct (decide (p = net)) as [->|Hne].
      * rewrite lookup_insert_eq. intros [= <-].
        apply (P_node n sn); [eauto|eapply list_elem_of_lookup_2; exact Hsn|exact Hd| |];
          apply Q_made.
      * rewrite lookup_insert_ne by auto. apply HP.
    + intros key mut. unfold history_lookup. simpl.
      match goal with |- <[?k2 := _]> (<[?k1 := _]> _) !! _ = _ -> _ =>
        destruct (decide (key = k2)) as [->|Hne2];
          [rewrite lookup_insert_eq; intros [= <-]; apply Q_made|];
        rewrite lookup_insert_ne by auto;
        destruct (decide (key = k1)) as [->|Hne1];
          [rewrite lookup_insert_eq; intros [= <-]; apply Q_made|];
        rewrite lookup_insert_ne by auto
      end.
      intros Hm. apply (HQ key). unfold history_lookup. rewrite Hh. exact Hm.
Qed.

Lemma kept_by_mutateWeights net chance r st st' :
  kept_by P Q st -> mutateWeights net chance r st = Some st' -> kept_by P Q st'.
Proof.
  intros Hk. unfold mutateWeights.
  destruct (load net st) as [n|] eqn:Hn; [|discriminate]. simpl.
  intros [= <-]. apply kept_by_store; [exact Hk|].
  apply P_reweighs; [|destruct Hk as [HP _]; eauto].
  intros i c.
  match goal with |- context [if ?b then _ else _] => destruct b end; repeat split.
Qed.

Lemma kept_by_sorted net other st n o st2 :
  kept_by P Q st -> load net st = Some n -> load other st = Some o ->
  load net st2 = Some (normalised n) -> load other st2 = Some (normalised o) ->
  (forall p, p <> net -> p <> other -> load p st2 = load p st) ->
  mutationHistory st2 = mutationHistory st ->
  kept_by P Q st2.
Proof.
  intros [HP HQ] Hn Ho Hn2 Ho2 Hp Hh. split.
  - intros p n'.
    destruct (decide (p = net)) as [->|Hne1];
      [rewrite Hn2; intros [= <-]; apply P_normalised; eauto|].
    destruct (decide (p = other)) as [->|Hne2];
      [rewrite Ho2; intros [= <-]; apply P_normalised; eauto|].
    rewrite Hp by auto. apply HP.
  - intros key mut. unfold history_lookup. rewrite Hh. apply HQ.
Qed.

Lemma kept_by_Distance net other st d st' :
  kept_by P Q st -> Distance net other st = Some (d, st') -> kept_by P Q st'.
Proof.
  intros Hk. unfold Distance.
  destruct (load net st) as [n|] eqn:Hn; [|discriminate].
  destruct (load other st) as [o|] eqn:Ho; [|discriminate]. simpl.
  destruct (sortOnce_both net other n o st Hn Ho)
    as (st1 & st2 & -> & Hs2 & Hn2 & Ho2 & Hp & _ & Hh & _).
  simpl. rewrite Hs2. simpl. rewrite Hn2, Ho2. simpl.
  assert (Hk2 : kept_by P Q st2)
    by exact (kept_by_sorted net other st n o st2 Hk Hn Ho Hn2 Ho2 Hp Hh).
  match goal with |- context [if ?b then _ else _] => destruct b end;
    intros [= _ <-]; [|exact Hk2].
  apply kept_by_store; [exact Hk2|]. apply P_nSimilar.
  destruct Hk2 as [HP2 _]. eauto.
Qed.

Lemma kept_by_Crossover net other coin st child st' :
  kept_by P Q st -> Crossover net other coin st = Some (child, st') -> kept_by P Q st'.
Proof.
  intros Hk Hrun.
  destruct (load other st) as [o|] eqn:Ho;
    [|unfold Crossover in Hrun; rewrite Ho in Hrun; discriminate].
  destruct (load net st) as [n|] eqn:Hn;
    [|unfold Crossover in Hrun; rewrite Ho, Hn in Hrun; discriminate].
  destruct (Crossover_runs net other coin st n o Hn Ho)
    as (child' & st'' & Hrun' & Hfresh & Hc & Hn2 & Ho2 & Hp & _ & Hh & _).
  rewrite Hrun in Hrun'. injection Hrun' as <- <-.
  pose proof Hk as [HP HQ]. split.
  - intros p n'.
    destruct (decide (p = child)) as [->|Hne0];
      [rewrite Hc; intros [= <-]; apply P_offspring; eauto|].
    destruct (decide (p = net)) as [->|Hne1];
      [rewrite Hn2; intros [= <-]; apply P_normalised; eauto|].
    destruct (decide (p = other)) as [->|Hne2];
      [rewrite Ho2; intros [= <-]; apply P_normalised; eauto|].
    rewrite Hp by auto. apply HP.
  - intros key mut. unfold history_lookup. rewrite Hh. apply HQ.
Qed.

(** Every operation of the package keeps [P] and [Q]. *)
Lemma perform_kept op st st' :
  uint32_operation op -> kept_by P Q st ->
  perform math_Tanh math_Exp math_Pow uint32_of_float64 op st = Some st' ->
  kept_by P Q st'.
Proof.
  intros Hop Hk. destruct op; cbn [perform].
  - intros [= <-]. revert Hk. apply kept_by_globals; [reflexivity|auto].
  - intros [= <-]. apply kept_by_clear. exact Hk.
  - intros [= <-]. unfold NewNetwork. simpl. apply kept_by_store; [exact Hk|].
    destruct Hop. apply P_new; assumption.
  - apply kept_by_addConnection. exact Hk.
  - apply kept_by_addNode. exact Hk.
  - apply kept_by_mutateWeights. exact Hk.
  - unfold Mutate.
    destruct (f32_ltb _ _); [apply kept_by_addConnection; exact Hk|].
    destruct (f32_ltb _ _); [apply kept_by_addNode; exact Hk|].
    apply kept_by_mutateWeights. exact Hk.
  - unfold SetSurvivalChance. destruct (load net st) as [n|] eqn:Hn; [|discriminate].
    intros [= <-]. apply kept_by_store; [exact Hk|]. apply P_MemberData.
    destruct Hk as [HP _]. eauto.
  - destruct (Distance net other st) as [[d st1]|] eqn:E; [|discriminate].
    intros [= <-]. eapply kept_by_Distance; eauto.
  - unfold ComputeAndSetFitnessScore.
    destruct (load net st) as [n|] eqn:Hn; [|discriminate]. simpl.
    destruct (rawFitness _ _ _ _ _); [|discriminate]. intros [= <-].
    apply kept_by_store.
    + destruct (0 <? history_len st); [apply kept_by_clear|]; exact Hk.
    + apply P_MemberData. destruct Hk as [HP _]. eauto.
  - destruct (Crossover net other coin st) as [[c st1]|] eqn:E; [|discriminate].
    intros [= <-]. eapply kept_by_Crossover; eauto.
Qed.

Lemma run_kept ops : forall st st',
  Forall uint32_operation ops -> kept_by P Q st ->
  forEach ops (perform math_Tanh math_Exp math_Pow uint32_of_float64) st = Some st' ->
  kept_by P Q st'.
Proof.
  induction ops as [|op ops IH]; intros st st' Hops Hk; simpl.
  - intros [= <-]. exact Hk.
  - inversion Hops as [|? ? Hop Hops']; subst.
    destruct (perform math_Tanh math_Exp math_Pow uint32_of_float64 op st)
      as [st1|] eqn:E; [|discriminate]. simpl.
    apply IH; [exact Hops'|]. eapply perform_kept; eauto.
Qed.

End Preserved.

(** *** The shape of networks *)

Lemma newNetwork_lookup nInputs nOutputs i node :
  0 <= nInputs < 2 ^ 32 -> 0 <= nOutputs < 2 ^ 32 ->
  nodes (newNetwork nInputs nOutputs) !! i = Some node ->
  (Z.of_nat i < nInputs /\
   node = {| id := Z.of_nat i; layer := 0; activation := IdentityActivation |}) \/
  (nInputs <= Z.of_nat i < nInputs + nOutputs /\
   node = {| id := wrap32 (Z.of_nat i); layer := maxDepth;
             activation := SigmoidActivation |}).
Proof.
  intros Hi Ho. simpl. intros Hl.
  apply lookup_app_Some in Hl as [Hl|[Hge Hl]].
  - left. rewrite list_lookup_fmap in Hl.
    destruct (seqZ 0 nInputs !! i) as [x|] eqn:E; [|discriminate].
    apply lookup_seqZ in E as [-> Hlt]. injection Hl as <-.
    split; [lia|]. f_equal; lia.
  - right. rewrite length_map, length_seqZ in Hge, Hl.
    rewrite list_lookup_fmap in Hl.
    destruct (seqZ 0 nOutputs !! _) as [x|] eqn:E; [|discriminate].
    apply lookup_seqZ in E as [-> Hlt]. injection Hl as <-.
    split; [lia|]. do 2 f_equal; lia.
Qed.

Lemma shaped_newNetwork nInputs nOutputs :
  0 <= nInputs < 2 ^ 32 -> 0 <= nOutputs < 2 ^ 32 ->
  shaped (newNetwork nInputs nOutputs).
Proof.
  intros Hi Ho. split; [|split; [|split; [exact Hi|split; [exact Ho|]]]].
  - intros i node Hl.
    destruct (newNetwork_lookup _ _ _ _ Hi Ho Hl) as [[Hlt ->]|[Hlt ->]]; simpl.
    + unfold wrap32. rewrite Z.mod_small by lia. reflexivity.
    + reflexivity.
  - apply Forall_lookup. intros i node Hl.
    destruct (newNetwork_lookup _ _ _ _ Hi Ho Hl) as [[Hlt ->]|[Hlt ->]];
      simpl; unfold maxDepth; lia.
  - rewrite length_newNetwork_nodes. simpl. lia.
Qed.

Lemma shaped_nodes n n' :
  nodes n' = nodes n -> nInputs n' = nInputs n -> nOutputs n' = nOutputs n ->
  shaped n -> shaped n'.
Proof.
  unfold shaped, indexed, layered. intros -> -> ->. auto.
Qed.

Lemma shaped_addNode n senderNode cs :
  shaped n -> wrap32 (layer senderNode + 1) < maxDepth ->
  shaped (with_connections cs
            (with_nodes (nodes n ++ [{| id := wrap32 (Z.of_nat (length (nodes n)));
                                        layer := wrap32 (layer senderNode + 1);
                                        activation := TanhActivation |}]) n)).
Proof.
  intros (Hidx & Hlay & Hi & Ho & Hlen) Hd.
  split; [|split; [|split; [exact Hi|split; [exact Ho|]]]]; simpl.
  - intros i node Hl. apply lookup_app_Some in Hl as [Hl|[Hge Hl]]; [eauto|].
    destruct (i - length (nodes n))%nat as [|k] eqn:E; [|destruct k; discriminate].
    injection Hl as <-. simpl. f_equal. lia.
  - apply Forall_app. split; [exact Hlay|]. constructor; [|constructor]. simpl.
    assert (0 <= wrap32 (layer senderNode + 1))
      by (unfold wrap32; apply Z.mod_pos_bound; lia).
    lia.
  - rewrite length_app. simpl. lia.
Qed.

Lemma shaped_offspring n o coin : shaped n -> shaped (offspring n o coin).
Proof.
  intros (Hidx & Hlay & Hi & Ho & Hlen).
  assert (Hnodes : nodes (offspring n o coin) =
            take (Z.to_nat (nInputs n) + Z.to_nat (nOutputs n)) (nodes n)).
  { unfold offspring. simpl.
    rewrite <- (length_newNetwork_nodes (nInputs n) (nOutputs n)).
    apply copy_shorter. rewrite length_newNetwork_nodes. exact Hlen. }
  split; [|split; [|split; [exact Hi|split; [exact Ho|]]]].
  - intros i node. rewrite Hnodes. intros Hl.
    apply lookup_take_Some in Hl as [Hl _]. eauto.
  - unfold layered. rewrite Hnodes. apply Forall_take. exact Hlay.
  - rewrite Hnodes, length_take. unfold offspring. simpl. lia.
Qed.

Section Runs.
Variables math_Tanh math_Exp : float64 -> float64.
Variable math_Pow : float64 -> float64 -> float64.
Variable uint32_of_float64 : float64 -> Z.

(** Every operation of the package keeps the shape of every network:
    after any sequence of operations on well-shaped networks, node [i] of
    each network has the identifier [i], every layer is one of
    [0 .. maxDepth], and no network has fewer than [nInputs + nOutputs]
    nodes. *)
Lemma run_shaped ops st st' :
  Forall uint32_operation ops -> all_shaped st ->
  forEach ops (perform math_Tanh math_Exp math_Pow uint32_of_float64) st = Some st' ->
  all_shaped st'.
Proof.
  intros Hops Hst Hrun.
  cut (kept_by shaped (fun _ => True) st'); [intros Hk; exact (proj1 Hk)|].
  apply (run_kept shaped (fun _ => True) math_Tanh math_Exp math_Pow uint32_of_float64)
    with (ops := ops) (st := st); [| | | | | | | | |exact Hops|split; [exact Hst|auto]|exact Hrun].
  - apply shaped_newNetwork.
  - intros d n. apply shaped_nodes; reflexivity.
  - intros k n. apply shaped_nodes; reflexivity.
  - intros n. destruct (normalised_fields n) as (_ & Hn & Hi & Ho & _).
    apply shaped_nodes; assumption.
  - intros f n _. apply shaped_nodes; reflexivity.
  - intros n c Hn _. revert Hn. apply shaped_nodes; reflexivity.
  - intros n senderNode c1 c2 Hn _ Hd _ _. apply shaped_addNode; assumption.
  - intros n o coin Hn _. apply shaped_offspring. exact Hn.
  - auto.
Qed.

(** *** Enabled connections *)

Lemma Forall_imap {A : Type} (R : A -> Prop) (f : nat -> A -> A) l :
  (forall i a, R a -> R (f i a)) -> Forall R l -> Forall R (imap f l).
Proof.
  intros Hf Hl. revert f Hf. induction Hl as [|a l Ha Hl IH]; intros f Hf; simpl.
  - constructor.
  - constructor; [apply Hf; exact Ha|]. apply IH. intros i b. apply Hf.
Qed.

Lemma Forall_inherit (R : connection -> Prop) idx a b coin : forall child,
  Forall R a -> Forall R b -> Forall R child ->
  Forall R (inherit idx a b coin child).
Proof.
  induction idx as [|i idx IH]; intros child Ha Hb Hc; simpl; [exact Hc|].
  destruct (a !! i) as [ca|] eqn:Ea; [|exact Hc].
  assert (Hca : R ca) by exact (Forall_lookup_1 _ _ _ _ Ha Ea).
  destruct (b !! i) as [cb|] eqn:Eb.
  - assert (Hcb : R cb) by exact (Forall_lookup_1 _ _ _ _ Hb Eb).
    destruct (f32_ltb _ _); apply IH; auto; apply Forall_app; split; auto.
  - apply IH; auto. apply Forall_app; split; auto.
Qed.

(** No operation of the package disables a connection: after any
    sequence of operations from a state in which every connection is
    enabled, every connection of every network and every connection
    recorded in the history is enabled. *)
Lemma run_enabled ops st st' :
  Forall uint32_operation ops -> all_enabled st ->
  forEach ops (perform math_Tanh math_Exp math_Pow uint32_of_float64) st = Some st' ->
  all_enabled st'.
Proof.
  intros Hops Hst Hrun.
  apply (run_kept (fun n => Forall (fun c => enabled c = true) (connections n))
                  (fun c => enabled c = true)
                  math_Tanh math_Exp math_Pow uint32_of_float64)
    with (ops := ops) (st := st); [| | | | | | | | |exact Hops|exact Hst|exact Hrun].
  - intros. constructor.
  - intros d n Hn. exact Hn.
  - intros k n Hn. exact Hn.
  - intros n Hn. destruct (normalised_fields n) as (_ & _ & _ & _ & _ & Hp & _).
    rewrite Hp. exact Hn.
  - intros f n Hf Hn. simpl. apply Forall_imap; [|exact Hn].
    intros i c Hc. destruct (Hf i c) as (_ & -> & _). exact Hc.
  - intros n c Hn Hc. simpl. apply Forall_app. auto.
  - intros n senderNode c1 c2 Hn _ _ H1 H2. simpl. apply Forall_app. auto.
  - intros n o coin Hn Ho. unfold offspring. simpl.
    destruct (normalised_fields n) as (_ & _ & _ & _ & _ & Hpn & _).
    destruct (normalised_fields o) as (_ & _ & _ & _ & _ & Hpo & _).
    apply Forall_inherit; [rewrite Hpn; exact Hn|rewrite Hpo; exact Ho|constructor].
  - reflexivity.
Qed.

End Runs.

Lemma all_shaped_empty st : heap st = ∅ -> all_shaped st.
Proof. intros Hh net n. unfold load. rewrite Hh, lookup_empty. discriminate. Qed.

Lemma all_enabled_empty st :
  heap st = ∅ -> history_len st = 0 -> all_enabled st.
Proof.
  intros Hh Hl. split.
  - intros net n. unfold load. rewrite Hh, lookup_empty. discriminate.
  - intros key mut. unfold history_lookup, history_len in *.
    destruct (mutationHistory st) as [h|]; [|discriminate].
    assert (h = ∅) by (apply map_size_empty_iff; lia). subst.
    rewrite lookup_empty. discriminate.
Qed.

Lemma run_shaped_witness :
  let go := perform (fun x => x) (fun x => x) (fun x _ => x) (fun _ => 0) in
  let st' := default empty_state (forEach a_run go empty_state) in
  Forall uint32_operation a_run /\ all_shaped empty_state /\
  forEach a_run go empty_state = Some st' /\
  all_shaped st'.
Proof.
  intros go st'.
  assert (H1 : Forall uint32_operation a_run)
    by (repeat constructor; simpl; lia).
  assert (H2 : all_shaped empty_state) by (apply all_shaped_empty; reflexivity).
  assert (H3 : forEach a_run go empty_state = Some st') by (vm_compute; reflexivity).
  split; [exact H1|]. split; [exact H2|]. split; [exact H3|].
  exact (run_shaped _ _ _ _ a_run empty_state st' H1 H2 H3).
Defined.

Lemma run_enabled_witness :
  let go := perform (fun x => x) (fun x => x) (fun x _ => x) (fun _ => 0) in
  let st' := default empty_state (forEach a_run go empty_state) in
  Forall uint32_operation a_run /\ all_enabled empty_state /\
  forEach a_run go empty_state = Some st' /\
  all_enabled st'.
Proof.
  intros go st'.
  assert (H1 : Forall uint32_operation a_run)
    by (repeat constructor; simpl; lia).
  assert (H2 : all_enabled empty_state) by (apply all_enabled_empty; reflexivity).
  assert (H3 : forEach a_run go empty_state = Some st') by (vm_compute; reflexivity).
  split; [exact H1|]. split; [exact H2|]. split; [exact H3|].
  exact (run_enabled _ _ _ _ a_run empty_state st' H1 H2 H3).
Defined.

End neat_more.

Module neat_feed.
Import neat scenario neat_facts neat_more.

Lemma length_copy {A : Type} (dst src : list A) : length (copy dst src) = length dst.
Proof. unfold copy. rewrite length_app, length_take, length_drop. lia. Qed.

Section Feeding.
Variables math_Tanh math_Exp : float64 -> float64.
Variable math_Pow : float64 -> float64 -> float64.
Variable uint32_of_float64 : float64 -> Z.


Lemma groupByLayer_runs n :
  layered n -> feedForward n ->
  exists byLayer, groupByLayer n = Some byLayer /\
                  Forall (Forall (forward n)) byLayer.
Proof.
  intros Hlay Hff. unfold groupByLayer.
  destruct (ga_facts.forEach_invariant
              (fun byLayer : list (list connection) =>
                 length byLayer = Z.to_nat maxDepth /\ Forall (Forall (forward n)) byLayer)
              (forward n)
              (fun connRef byLayer =>
                 senderNode ← nodes n !! Z.to_nat (senderId (endpoints connRef));
                 let connLayer := Z.to_nat (layer senderNode) in
                 group ← byLayer !! connLayer;
                 Some (<[connLayer := group ++ [connRef]]> byLayer))
              (connections n) (replicate (Z.to_nat maxDepth) []))
    as (byLayer & Hrun & _ & Hall).
  - intros c byLayer Hc [Hlen Hall].
    pose proof Hc as (s & r & Hs & Hr & Hlt). rewrite Hs. simpl.
    assert (Hsl : 0 <= layer s <= maxDepth)
      by (eapply (Forall_lookup_1 _ _ _ _ Hlay); exact Hs).
    assert (Hrl : 0 <= layer r <= maxDepth)
      by (eapply (Forall_lookup_1 _ _ _ _ Hlay); exact Hr).
    destruct (lookup_lt_is_Some_2 byLayer (Z.to_nat (layer s)) ltac:(lia)) as [group Hg].
    rewrite Hg. simpl. eexists. split; [reflexivity|]. split.
    + rewrite length_insert. exact Hlen.
    + apply Forall_insert; [exact Hall|]. apply Forall_app. split.
      * eapply Forall_lookup_1; [exact Hall|exact Hg].
      * constructor; [exact Hc|constructor].
  - exact Hff.
  - split; [apply length_replicate|].
    apply Forall_replicate. constructor.
  - exists byLayer. auto.
Qed.

Lemma feedConnection_runs n c accumulators :
  forward n c -> length accumulators = length (nodes n) ->
  exists accumulators', feedConnection math_Tanh math_Exp n c accumulators = Some accumulators' /\
                        length accumulators' = length (nodes n).
Proof.
  intros (s & r & Hs & Hr & _) Hlen. unfold neat.feedConnection.
  destruct (enabled c); simpl; [|eauto].
  rewrite Hs. simpl.
  destruct (lookup_lt_is_Some_2 accumulators (Z.to_nat (senderId (endpoints c))))
    as [a Ha]; [rewrite Hlen; eapply lookup_lt_Some; exact Hs|].
  rewrite Ha. simpl.
  destruct (lookup_lt_is_Some_2 accumulators (Z.to_nat (receiverId (endpoints c))))
    as [b Hb]; [rewrite Hlen; eapply lookup_lt_Some; exact Hr|].
  rewrite Hb. simpl. eexists. split; [reflexivity|].
  rewrite length_insert. exact Hlen.
Qed.

(** The loop that collects the outputs appends one value per index. *)
Lemma outputs_run n accumulators idx : forall output,
  Forall (fun i => 0 <= i < Z.of_nat (length (nodes n))) idx ->
  length accumulators = length (nodes n) ->
  exists output',
    forEach idx
      (fun i output =>
         nodeRef ← nodes n !! Z.to_nat i;
         a ← accumulators !! Z.to_nat i;
         Some (output ++ [Compute math_Tanh math_Exp (activation nodeRef) a]))
      output = Some output' /\
    length output' = (length output + length idx)%nat.
Proof.
  induction idx as [|i idx IH]; intros output Hidx Hlen; simpl.
  - exists output. split; [reflexivity|lia].
  - inversion Hidx as [|? ? Hi Hidx']; subst.
    destruct (lookup_lt_is_Some_2 (nodes n) (Z.to_nat i) ltac:(lia)) as [nodeRef ->].
    destruct (lookup_lt_is_Some_2 accumulators (Z.to_nat i) ltac:(lia)) as [a ->].
    simpl. destruct (IH (output ++ [Compute math_Tanh math_Exp (activation nodeRef) a]) Hidx' Hlen)
      as (output' & -> & Hl).
    exists output'. split; [reflexivity|]. rewrite length_app in Hl. simpl in Hl. lia.
Qed.

(** [Feed] on a well-shaped network whose connections all go to a
    higher layer: no index is out of range, and the result has one value
    per output node, whatever the input is. *)
Lemma Feed_runs n input :
  shaped n -> feedForward n -> nInputs n + nOutputs n < 2 ^ 32 ->
  exists result, Feed math_Tanh math_Exp n input = Some result /\
                 length result = Z.to_nat (nOutputs n).
Proof.
  intros (Hidx & Hlay & Hi & Ho & Hlen) Hff Hsum. unfold neat.Feed.
  rewrite length_replicate.
  destruct (decide (Z.to_nat (nInputs n) <= length (nodes n))%nat) as [Hle|Hgt]; [|lia].
  destruct (groupByLayer_runs n Hlay Hff) as (byLayer & -> & Hall). simpl.
  set (accumulators := copy _ _ ++ _).
  assert (Hacc : length accumulators = length (nodes n)).
  { unfold accumulators.
    rewrite length_app, length_copy, length_take, length_drop, length_replicate. lia. }
  destruct (ga_facts.forEach_invariant
              (fun acc : list float64 => length acc = length (nodes n))
              (Forall (forward n))
              (fun group acc => forEach group (feedConnection math_Tanh math_Exp n) acc)
              byLayer accumulators) as (acc & -> & Hacc').
  - intros group acc Hg Hl.
    apply (ga_facts.forEach_invariant _ (forward n)); [|exact Hg|exact Hl].
    intros c acc0 Hc Hl0. apply feedConnection_runs; assumption.
  - exact Hall.
  - exact Hacc.
  - simpl. unfold wrap32. rewrite Z.mod_small by lia.
    destruct (outputs_run n acc (seqZ (nInputs n) (nInputs n + nOutputs n - nInputs n)) [])
      as (output & -> & Hl).
    + apply Forall_forall. intros i Hin. apply elem_of_seqZ in Hin. lia.
    + exact Hacc'.
    + exists output. split; [reflexivity|]. rewrite Hl, length_seqZ. simpl. lia.
Qed.

(** [copy] into [k] zeros reads [k] values of the source, and zeros where
    the source ends before. *)
Lemma copy_zeros (k : nat) (z : float64) (input : list float64) :
  copy (replicate k z) input = take k input ++ replicate (k - length input) z.
Proof.
  unfold copy. rewrite length_replicate, drop_replicate. reflexivity.
Qed.

Lemma copy_zeros_padded (k : nat) (z : float64) (input : list float64) :
  copy (replicate k z) (take k input ++ replicate (k - length input) z) =
  copy (replicate k z) input.
Proof.
  rewrite (copy_zeros k z input).
  set (padded := take k input ++ replicate (k - length input) z).
  assert (Hlen : length padded = k).
  { unfold padded. rewrite length_app, length_take, length_replicate. lia. }
  rewrite copy_zeros, Hlen, Nat.sub_diag. simpl. rewrite app_nil_r.
  apply take_ge. lia.
Qed.

(** [Feed] reads exactly [nInputs] values of its input: the values past
    them are ignored, and the values that are missing are read as 0. *)
Lemma Feed_input n input :
  Feed math_Tanh math_Exp n input =
  Feed math_Tanh math_Exp n
    (take (Z.to_nat (nInputs n)) input ++
     replicate (Z.to_nat (nInputs n) - length input) (f64_of_Z 0)).
Proof.
  unfold neat.Feed. rewrite length_replicate.
  destruct (decide (Z.to_nat (nInputs n) <= length (nodes n))%nat) as [Hle|Hgt];
    [|reflexivity].
  rewrite take_replicate, Nat.min_l by exact Hle.
  rewrite copy_zeros_padded. reflexivity.
Qed.

Lemma forEach_no_groups {A S : Type} (f : A -> S -> option S) (k : nat) (s : S) :
  forEach (replicate k []) (fun group acc => forEach group f acc) s = Some s.
Proof. induction k as [|k IH]; simpl; [reflexivity|exact IH]. Qed.

Lemma outputs_constant n (accumulators : list float64) act v idx : forall output,
  Forall (fun i => exists nodeRef,
            nodes n !! Z.to_nat i = Some nodeRef /\ activation nodeRef = act /\
            accumulators !! Z.to_nat i = Some v) idx ->
  forEach idx
    (fun i output =>
       nodeRef ← nodes n !! Z.to_nat i;
       a ← accumulators !! Z.to_nat i;
       Some (output ++ [Compute math_Tanh math_Exp (activation nodeRef) a]))
    output = Some (output ++ replicate (length idx) (Compute math_Tanh math_Exp act v)).
Proof.
  induction idx as [|i idx IH]; intros output Hidx; simpl.
  - rewrite app_nil_r. reflexivity.
  - inversion Hidx as [|? ? (nodeRef & Hn & Ha & Hv) Hidx']; subst.
    rewrite Hn, Hv. simpl. rewrite IH by exact Hidx'.
    rewrite <- app_assoc. reflexivity.
Qed.

(** A new network ignores its input: every output is the sigmoid of 0. *)
Lemma Feed_newNetwork nIn nOut input :
  0 <= nIn -> 0 <= nOut -> nIn + nOut < 2 ^ 32 ->
  Feed math_Tanh math_Exp (newNetwork nIn nOut) input =
    Some (replicate (Z.to_nat nOut)
            (Compute math_Tanh math_Exp SigmoidActivation (f64_of_Z 0))).
Proof.
  intros Hi Ho Hsum. unfold neat.Feed.
  rewrite length_newNetwork_nodes, length_replicate.
  destruct (decide (Z.to_nat (nInputs (newNetwork nIn nOut))
                    <= Z.to_nat nIn + Z.to_nat nOut)%nat) as [Hle|Hgt];
    [|simpl in Hgt; lia].
  change (groupByLayer (newNetwork nIn nOut))
    with (Some (replicate (Z.to_nat maxDepth) (@nil connection))).
  cbn [mbind option_bind]. rewrite forEach_no_groups. cbn [mbind option_bind].
  cbn [nInputs nOutputs newNetwork].
  unfold wrap32. rewrite Z.mod_small by lia.
  rewrite outputs_constant with (act := SigmoidActivation) (v := f64_of_Z 0).
  - rewrite length_seqZ. simpl. do 2 f_equal. lia.
  - apply Forall_forall. intros i Hin. apply elem_of_seqZ in Hin.
    destruct (lookup_lt_is_Some_2 (nodes (newNetwork nIn nOut)) (Z.to_nat i))
      as [nodeRef Hn]; [rewrite length_newNetwork_nodes; lia|].
    exists nodeRef. split; [exact Hn|].
    destruct (newNetwork_lookup nIn nOut _ _ ltac:(lia) ltac:(lia) Hn)
      as [[Hlt ->]|[Hlt ->]]; [lia|]. split; [reflexivity|].
    rewrite take_replicate, Nat.min_l by lia.
    rewrite drop_replicate.
    rewrite lookup_app_r; rewrite length_copy, length_replicate; [|lia].
    apply lookup_replicate_2. lia.
Qed.

End Feeding.

(** [Feed_runs] on a network of one input and one output with the
    connection 0 -> 1. *)
Lemma Feed_runs_witness :
  let n := with_connections
             [made {| senderId := 0; receiverId := 1 |} (f64_of_Z 0) 0]
             (newNetwork 1 1) in
  shaped n /\ feedForward n /\ nInputs n + nOutputs n < 2 ^ 32 /\
  exists result, Feed (fun x => x) (fun x => x) n [f64_of_Z 1] = Some result /\
                 length result = Z.to_nat (nOutputs n).
Proof.
  intros n.
  assert (H1 : shaped n).
  { split; [|split; [|split; [|split]]].
    - intros [|[|i]] node; simpl; intros [= <-]; reflexivity.
    - repeat constructor; simpl; unfold maxDepth; lia.
    - simpl; lia.
    - simpl; lia.
    - simpl; lia. }
  assert (H2 : feedForward n).
  { repeat constructor. eexists _, _. split; [reflexivity|]. split; [reflexivity|].
    simpl. unfold maxDepth. lia. }
  assert (H3 : nInputs n + nOutputs n < 2 ^ 32) by (simpl; lia).
  split; [exact H1|]. split; [exact H2|]. split; [exact H3|].
  exact (Feed_runs (fun x => x) (fun x => x) n [f64_of_Z 1] H1 H2 H3).
Defined.

(** [Feed_newNetwork] on two inputs and one output. *)
Lemma Feed_newNetwork_witness :
  0 <= 2 /\ 0 <= 1 /\ 2 + 1 < 2 ^ 32 /\
  Feed (fun x => x) (fun x => x) (newNetwork 2 1) [f64_of_Z 5; f64_of_Z 7] =
    Some (replicate (Z.to_nat 1)
            (Compute (fun x => x) (fun x => x) SigmoidActivation (f64_of_Z 0))).
Proof.
  assert (H1 : 0 <= 2) by lia.
  assert (H2 : 0 <= 1) by lia.
  assert (H3 : 2 + 1 < 2 ^ 32) by lia.
  split; [exact H1|]. split; [exact H2|]. split; [exact H3|].
  exact (Feed_newNetwork (fun x => x) (fun x => x) 2 1 [f64_of_Z 5; f64_of_Z 7] H1 H2 H3).
Defined.

End neat_feed.

Module neat_distance.
Import neat scenario neat_facts neat_more.

(** What a call of [Distance] does: both networks are sorted, the
    distance is computed from the sorted connections, and the counter of
    similar networks of the receiver goes up by one when the distance is
    below the threshold. *)
Lemma Distance_runs net other st n o :
  load net st = Some n -> load other st = Some o ->
  exists st2,
    load net st2 = Some (normalised n) /\
    load other st2 = Some (normalised o) /\
    (forall p, p <> net -> p <> other -> load p st2 = load p st) /\
    let distance :=
      distanceOf (tallyOf (connections (normalised n)) (connections (normalised o))
                    (positions n o)) (positions n o) in
    Distance net other st =
      Some (distance,
            if f64_ltb distance (f64_const 3 10)
            then store net (with_nSimilar (wrap32 (nSimilar (normalised n) + 1))
                              (normalised n)) st2
            else st2).
Proof.
  intros Hn Ho. unfold Distance. rewrite Hn, Ho. cbn [mbind option_bind].
  destruct (sortOnce_both net other n o st Hn Ho)
    as (st1 & st2 & -> & Hs2 & Hn2 & Ho2 & Hp & _).
  cbn [mbind option_bind]. rewrite Hs2. cbn [mbind option_bind].
  rewrite Hn2, Ho2. cbn [mbind option_bind].
  exists st2. split; [exact Hn2|]. split; [exact Ho2|]. split; [exact Hp|].
  cbv zeta. fold (positions n o).
  fold (tallyOf (connections (normalised n)) (connections (normalised o)) (positions n o)).
  fold (distanceOf (tallyOf (connections (normalised n)) (connections (normalised o))
                      (positions n o)) (positions n o)).
  destruct (f64_ltb _ _); reflexivity.
Qed.

Lemma length_normalised n :
  length (connections (normalised n)) = length (connections n).
Proof.
  destruct (normalised_fields n) as (_ & _ & _ & _ & _ & Hp & _).
  apply Permutation_length. exact Hp.
Qed.

(** [Distance] on two networks of fewer than 20 connections each, both
    marked as sorted or of at most 12 connections: [N] is set to 1 and the
    loop runs over [N] positions, so only the first connection of each
    network (the one of smallest innovation number once sorted) is looked
    at. The distance is 1 when one of them has no connection or when the
    two first innovation numbers differ, and 0.4 times the difference of
    the two first weights when they match. *)
Lemma Distance_small net other st n o :
  load net st = Some n -> load other st = Some o ->
  (length (connections n) < 20)%nat -> (length (connections o) < 20)%nat ->
  settled n -> settled o ->
  exists d st',
    Distance net other st = Some (d, st') /\
    match connections (normalised n), connections (normalised o) with
    | ca :: _, cb :: _ =>
        if innovationNo ca =? innovationNo cb
        then d = f64_add (f64_of_Z 0)
                   (f64_mul (f64_const 4 10)
                      (f64_div (f64_add (f64_of_Z 0)
                                  (f64_abs (f64_sub (weight ca) (weight cb))))
                               (f64_of_Z 1)))
        else d = f64_of_Z 1
    | _, _ => d = f64_of_Z 1
    end.
Proof.
  intros Hn Ho Hln Hlo _ _.
  destruct (Distance_runs net other st n o Hn Ho) as (st2 & _ & _ & _ & Hrun).
  cbv zeta in Hrun. eexists _, _. split; [exact Hrun|].
  assert (HN : positions n o = 1).
  { unfold positions.
    destruct (_ <? 20) eqn:E; [reflexivity|]. apply Z.ltb_ge in E. lia. }
  rewrite HN. unfold tallyOf. change (seq 0 (Z.to_nat 1)) with [0%nat].
  cbn [fold_left]. unfold compareAt.
  destruct (connections (normalised n)) as [|ca a]; [vm_compute; reflexivity|].
  destruct (connections (normalised o)) as [|cb b]; [vm_compute; reflexivity|].
  cbn [lookup list_lookup M E D weightsDiff].
  destruct (innovationNo ca =? innovationNo cb).
  - unfold distanceOf. cbn [M E D weightsDiff].
    change (wrap32 (0 + 1)) with 1. change (0 <? 1) with true. cbv iota.
    f_equal; try (vm_compute; reflexivity).
  - vm_compute. reflexivity.
Qed.

Lemma f64_sub_diag w : is_number w -> f64_abs (f64_sub w w) = f64_of_Z 0.
Proof.
  destruct w as [s| | |s m e]; simpl; try contradiction; intros _.
  - destruct s; reflexivity.
  - unfold f64_sub, SFsub. rewrite Z.sub_diag. reflexivity.
Qed.

(** The distance of a network of 1 to 19 connections to itself is 0, and
    the call counts the network as similar to itself: [nSimilar] goes up
    by one. *)
Lemma Distance_self net st n :
  load net st = Some n ->
  (0 < length (connections n) < 20)%nat ->
  Forall (fun c => is_number (weight c)) (connections n) ->
  exists st' n',
    Distance net net st = Some (f64_of_Z 0, st') /\
    load net st' = Some n' /\
    nSimilar n' = wrap32 (nSimilar n + 1).
Proof.
  intros Hn Hlen Hw.
  destruct (Distance_runs net net st n n Hn Hn) as (st2 & Hn2 & _ & _ & Hrun).
  cbv zeta in Hrun.
  assert (HN : positions n n = 1).
  { unfold positions.
    destruct (_ <? 20) eqn:E; [reflexivity|]. apply Z.ltb_ge in E. lia. }
  rewrite HN in Hrun.
  assert (Hd : distanceOf (tallyOf (connections (normalised n))
                             (connections (normalised n)) 1) 1 = f64_of_Z 0).
  { unfold tallyOf. change (seq 0 (Z.to_nat 1)) with [0%nat].
    cbn [fold_left]. unfold compareAt.
    pose proof (length_normalised n) as Hl.
    destruct (normalised_fields n) as (_ & _ & _ & _ & _ & Hp & _).
    destruct (connections (normalised n)) as [|ca a] eqn:Ea; [simpl in Hl; lia|].
    cbn [lookup list_lookup M E D weightsDiff]. rewrite Z.eqb_refl.
    unfold distanceOf. cbn [M E D weightsDiff].
    rewrite f64_sub_diag.
    - vm_compute. reflexivity.
    - rewrite <- Hp in Hw. inversion Hw; assumption. }
  rewrite Hd in Hrun. change (f64_ltb (f64_of_Z 0) (f64_const 3 10)) with true in Hrun.
  cbv iota in Hrun. eexists _, _. split; [exact Hrun|].
  rewrite load_store. split; [reflexivity|]. simpl.
  destruct (normalised_fields n) as (_ & _ & _ & _ & -> & _). reflexivity.
Qed.

(** *** Sorting *)

Lemma byInnovation_lt a b :
  0 <= innovationNo a < 2 ^ 63 -> 0 <= innovationNo b < 2 ^ 63 ->
  byInnovation a b = innovationNo a - innovationNo b.
Proof.
  intros Ha Hb. unfold byInnovation.
  rewrite !(ga_facts.int64_small (innovationNo _)) by lia.
  apply ga_facts.int64_small. lia.
Qed.

(** The sorted prefix, last element first, stays sorted when an element
    is inserted. *)
Lemma insert_back_descending x rp :
  0 <= innovationNo x < 2 ^ 63 -> small_numbers rp ->
  StronglySorted Z.ge (map innovationNo rp) ->
  StronglySorted Z.ge (map innovationNo (insert_back byInnovation x rp)).
Proof.
  intros Hx. induction rp as [|y rp IH]; simpl; intros Hs Hrp.
  - repeat constructor.
  - inversion Hs as [|? ? Hy Hs']; subst. inversion Hrp as [|? ? Hrp' Hall]; subst.
    rewrite byInnovation_lt by assumption.
    destruct (innovationNo x - innovationNo y <? 0) eqn:E; simpl.
    + apply Z.ltb_lt in E. constructor; [apply IH; assumption|].
      apply Forall_forall. intros z Hz.
      apply list_elem_of_fmap in Hz as (c & -> & Hc).
      rewrite (insert_back_Permutation byInnovation x rp) in Hc.
      apply elem_of_cons in Hc as [->|Hc]; [lia|].
      rewrite Forall_forall in Hall. apply Hall. apply list_elem_of_fmap. eauto.
    + apply Z.ltb_ge in E. constructor; [exact Hrp|].
      constructor; [lia|].
      eapply Forall_impl; [exact Hall|]. intros z Hz. simpl in Hz. lia.
Qed.

Lemma StronglySorted_rev_ge l :
  StronglySorted Z.ge l -> StronglySorted Z.le (rev l).
Proof.
  induction 1 as [|a l Hl IH Ha]; simpl; [constructor|].
  apply StronglySorted_app_2; [|exact IH|repeat constructor].
  intros x y Hx Hy. rewrite <- Permutation_rev in Hx. apply list_elem_of_singleton in Hy. subst.
  rewrite Forall_forall in Ha. specialize (Ha _ Hx). lia.
Qed.

Lemma SortFunc_ascending cs :
  small_numbers cs -> ascending (SortFunc byInnovation cs).
Proof.
  intros Hs. unfold ascending, SortFunc. rewrite map_rev.
  apply StronglySorted_rev_ge.
  assert (Hgen : forall rp,
            small_numbers rp -> StronglySorted Z.ge (map innovationNo rp) ->
            small_numbers (fold_left (fun rp xi => insert_back byInnovation xi rp) cs rp) /\
            StronglySorted Z.ge
              (map innovationNo
                 (fold_left (fun rp xi => insert_back byInnovation xi rp) cs rp))).
  { induction Hs as [|x cs Hx Hs IH]; intros rp Hrp Hsorted; simpl; [auto|].
    apply IH.
    - unfold small_numbers. rewrite (insert_back_Permutation byInnovation x rp).
      constructor; assumption.
    - apply insert_back_descending; assumption. }
  apply Hgen; constructor.
Qed.

(** After [Distance], a network that was not marked as sorted has its
    connections in ascending order of innovation number, as long as the
    numbers are below [2^63], where the comparison by difference of
    [int64]s is exact; the same holds of both parents after [Crossover]. *)
Lemma sorted_by_innovation :
  (forall net other st n o d st',
      load net st = Some n -> load other st = Some o ->
      Distance net other st = Some (d, st') ->
      forall p m, (p = net /\ m = n) \/ (p = other /\ m = o) ->
        sorted m = false -> small_numbers (connections m) ->
        exists m', load p st' = Some m' /\ sorted m' = true /\
                   connections m' ≡ₚ connections m /\ ascending (connections m')) /\
  (forall net other coin st n o child st',
      load net st = Some n -> load other st = Some o ->
      Crossover net other coin st = Some (child, st') ->
      forall p m, (p = net /\ m = n) \/ (p = other /\ m = o) ->
        sorted m = false -> small_numbers (connections m) ->
        exists m', load p st' = Some m' /\ sorted m' = true /\
                   connections m' ≡ₚ connections m /\ ascending (connections m')).
Proof.
  assert (Hnorm : forall m, sorted m = false -> small_numbers (connections m) ->
            sorted (normalised m) = true /\
            connections (normalised m) ≡ₚ connections m /\
            ascending (connections (normalised m))).
  { intros m Hs Hsmall.
    destruct (normalised_fields m) as (_ & _ & _ & _ & _ & Hp & _ & Hsort).
    split; [apply normalised_sorted|]. split; [exact Hp|].
    rewrite (Hsort Hs). apply SortFunc_ascending. exact Hsmall. }
  split.
  - intros net other st n o d st' Hn Ho Hrun p m Hpm Hs Hsmall.
    destruct (Distance_runs net other st n o Hn Ho) as (st2 & Hn2 & Ho2 & _ & Hrun').
    cbv zeta in Hrun'. rewrite Hrun in Hrun'. injection Hrun' as _ ->.
    destruct (Hnorm m Hs Hsmall) as (H1 & H2 & H3).
    destruct (f64_ltb _ _).
    + destruct (decide (p = net)) as [->|Hne].
      * assert (m = n) by (destruct Hpm as [[_ ->]|[-> ->]]; congruence). subst m.
        rewrite load_store. eexists. split; [reflexivity|]. simpl. auto.
      * rewrite load_store_ne by auto.
        destruct Hpm as [[-> _]|[-> ->]]; [contradiction|].
        exists (normalised o). auto.
    + destruct Hpm as [[-> ->]|[-> ->]]; eexists; eauto.
  - intros net other coin st n o child st' Hn Ho Hrun p m Hpm Hs Hsmall.
    destruct (Crossover_runs net other coin st n o Hn Ho)
      as (child' & st'' & Hrun' & _ & _ & Hn2 & Ho2 & _).
    rewrite Hrun in Hrun'. injection Hrun' as <- <-.
    destruct (Hnorm m Hs Hsmall) as (H1 & H2 & H3).
    destruct Hpm as [[-> ->]|[-> ->]]; eexists; eauto.
Qed.

(** [Distance_small] on the two parents of the scenario: the second one
    has connections of innovation numbers 1 and 0, the first one the
    connection of number 0. *)
Lemma Distance_small_witness :
  let run := default (0%nat, 0%nat, empty_state) two_parents in
  let a := fst (fst run) in
  let b := snd (fst run) in
  let st := snd run in
  let n := default (newNetwork 2 1) (load b st) in
  let o := default (newNetwork 2 1) (load a st) in
  load b st = Some n /\ load a st = Some o /\
  (length (connections n) < 20)%nat /\ (length (connections o) < 20)%nat /\
  settled n /\ settled o /\
  map innovationNo (connections n) = [1; 0] /\
  map innovationNo (connections o) = [0] /\
  exists d st',
    Distance b a st = Some (d, st') /\
    match connections (normalised n), connections (normalised o) with
    | ca :: _, cb :: _ =>
        if innovationNo ca =? innovationNo cb
        then d = f64_add (f64_of_Z 0)
                   (f64_mul (f64_const 4 10)
                      (f64_div (f64_add (f64_of_Z 0)
                                  (f64_abs (f64_sub (weight ca) (weight cb))))
                               (f64_of_Z 1)))
        else d = f64_of_Z 1
    | _, _ => d = f64_of_Z 1
    end.
Proof.
  intros run a b st n o.
  assert (H1 : load b st = Some n) by (vm_compute; reflexivity).
  assert (H2 : load a st = Some o) by (vm_compute; reflexivity).
  assert (H3 : (length (connections n) < 20)%nat) by (vm_compute; lia).
  assert (H4 : (length (connections o) < 20)%nat) by (vm_compute; lia).
  assert (H5 : settled n) by (right; vm_compute; lia).
  assert (H6 : settled o) by (right; vm_compute; lia).
  split; [exact H1|]. split; [exact H2|]. split; [exact H3|]. split; [exact H4|].
  split; [exact H5|]. split; [exact H6|].
  split; [vm_compute; reflexivity|]. split; [vm_compute; reflexivity|].
  exact (Distance_small b a st n o H1 H2 H3 H4 H5 H6).
Defined.

(** [Distance_self] on the second parent of the scenario. *)
Lemma Distance_self_witness :
  let run := default (0%nat, 0%nat, empty_state) two_parents in
  let b := snd (fst run) in
  let st := snd run in
  let n := default (newNetwork 2 1) (load b st) in
  load b st = Some n /\
  (0 < length (connections n) < 20)%nat /\
  Forall (fun c => is_number (weight c)) (connections n) /\
  exists st' n',
    Distance b b st = Some (f64_of_Z 0, st') /\
    load b st' = Some n' /\
    nSimilar n' = wrap32 (nSimilar n + 1).
Proof.
  intros run b st n.
  assert (H1 : load b st = Some n) by (vm_compute; reflexivity).
  assert (H2 : (0 < length (connections n) < 20)%nat) by (vm_compute; lia).
  assert (H3 : Forall (fun c => is_number (weight c)) (connections n))
    by (vm_compute; repeat constructor).
  split; [exact H1|]. split; [exact H2|]. split; [exact H3|].
  exact (Distance_self b st n H1 H2 H3).
Defined.

(** [sorted_by_innovation] on the scenario: the second parent, whose
    connections are numbered 1 and 0, is sorted by a [Distance] to the
    first. *)
Lemma sorted_by_innovation_witness :
  let run := default (0%nat, 0%nat, empty_state) two_parents in
  let a := fst (fst run) in
  let b := snd (fst run) in
  let st := snd run in
  let n := default (newNetwork 2 1) (load b st) in
  let o := default (newNetwork 2 1) (load a st) in
  let out := default (f64_of_Z 0, st) (Distance b a st) in
  load b st = Some n /\ load a st = Some o /\
  Distance b a st = Some out /\
  sorted n = false /\ small_numbers (connections n) /\
  exists n', load b (snd out) = Some n' /\ sorted n' = true /\
             connections n' ≡ₚ connections n /\ ascending (connections n').
Proof.
  intros run a b st n o out.
  assert (H1 : load b st = Some n) by (vm_compute; reflexivity).
  assert (H2 : load a st = Some o) by (vm_compute; reflexivity).
  assert (H3 : Distance b a st = Some (fst out, snd out)) by (vm_compute; reflexivity).
  assert (H4 : sorted n = false) by (vm_compute; reflexivity).
  assert (H5 : small_numbers (connections n)).
  { apply Forall_forall. intros c Hc. vm_compute in Hc.
    repeat (apply elem_of_cons in Hc as [->|Hc]; [simpl; lia|]).
    inversion Hc. }
  split; [exact H1|]. split; [exact H2|]. split; [vm_compute; reflexivity|].
  split; [exact H4|]. split; [exact H5|].
  exact (proj1 sorted_by_innovation b a st n o (fst out) (snd out) H1 H2 H3
           b n (or_introl (conj eq_refl eq_refl)) H4 H5).
Defined.

End neat_distance.

Module neat_cross.
Import neat scenario neat_facts neat_more neat_distance.

Lemma inherit_seq a b coin k : forall j child,
  inherit (seq j k) a b coin child =
    child ++ take k (drop j (imap (inherited b coin) a)).
Proof.
  induction k as [|k IH]; intros j child.
  - simpl. rewrite app_nil_r. reflexivity.
  - cbn [seq inherit]. destruct (a !! j) as [ca|] eqn:Ea.
    + assert (Hd : drop j (imap (inherited b coin) a) =
                     inherited b coin j ca :: drop (S j) (imap (inherited b coin) a)).
      { apply drop_S. rewrite list_lookup_imap, Ea. reflexivity. }
      rewrite Hd. cbn [take].
      destruct (b !! j) as [cb|] eqn:Eb.
      * destruct (f32_ltb (coin j) (f32_div (f32_of_Z 1) (f32_of_Z 2))) eqn:Ec.
        -- replace (inherited b coin j ca) with ca
             by (unfold inherited; rewrite Eb, Ec; reflexivity).
           rewrite IH, <- app_assoc. reflexivity.
        -- replace (inherited b coin j ca) with cb
             by (unfold inherited; rewrite Eb, Ec; reflexivity).
           rewrite IH, <- app_assoc. reflexivity.
      * replace (inherited b coin j ca) with ca
          by (unfold inherited; rewrite Eb; reflexivity).
        rewrite IH, <- app_assoc. reflexivity.
    + rewrite drop_ge; [rewrite app_nil_r; reflexivity|].
      rewrite length_imap. apply lookup_ge_None. exact Ea.
Qed.

(** The connections of the child of [Crossover], for parents that are
    marked as sorted or have at most 12 connections: as many as the
    dominant parent has, and at each position the connection of the
    dominant parent or, when the other parent has a connection at that
    position and the draw is not below 0.5, the connection of the other
    parent, both parents being read after they were sorted. The child
    starts with a fitness score of 0, is similar to no network and is not
    marked as sorted. *)
Lemma Crossover_connections net other coin st n o :
  load net st = Some n -> load other st = Some o ->
  settled n -> settled o ->
  exists child st' c,
    Crossover net other coin st = Some (child, st') /\
    load child st' = Some c /\
    length (connections c) = length (connections n) /\
    (forall i ca, connections (normalised n) !! i = Some ca ->
       connections c !! i = Some (inherited (connections (normalised o)) coin i ca)) /\
    (forall i x, connections c !! i = Some x ->
       connections (normalised n) !! i = Some x \/
       connections (normalised o) !! i = Some x) /\
    ga.FitnessScore (MemberData c) = 0 /\ nSimilar c = 0 /\ sorted c = false /\
    nInputs c = nInputs n /\ nOutputs c = nOutputs n.
Proof.
  intros Hn Ho _ _.
  destruct (Crossover_runs net other coin st n o Hn Ho)
    as (child & st' & Hrun & _ & Hc & _).
  exists child, st', (offspring n o coin). split; [exact Hrun|]. split; [exact Hc|].
  assert (Hcs : connections (offspring n o coin) =
            imap (inherited (connections (normalised o)) coin)
                 (connections (normalised n))).
  { unfold offspring. cbn [connections with_nodes with_connections newNetwork].
    rewrite inherit_seq. simpl. rewrite drop_0. apply take_ge.
    rewrite length_imap, length_normalised. lia. }
  rewrite Hcs. split; [rewrite length_imap; apply length_normalised|].
  split; [|split; [|repeat split]].
  - intros i ca Ha. rewrite list_lookup_imap, Ha. reflexivity.
  - intros i x. rewrite list_lookup_imap.
    destruct (connections (normalised n) !! i) as [ca|] eqn:Ea; [|discriminate].
    simpl. unfold inherited.
    destruct (connections (normalised o) !! i) as [cb|] eqn:Eb.
    + destruct (f32_ltb _ _); intros [= <-]; auto.
    + intros [= <-]. auto.
Qed.

Lemma Crossover_connections_witness :
  let run := default (0%nat, 0%nat, empty_state) two_parents in
  let a := fst (fst run) in
  let b := snd (fst run) in
  let st := snd run in
  let n := default (newNetwork 2 1) (load b st) in
  let o := default (newNetwork 2 1) (load a st) in
  load b st = Some n /\ load a st = Some o /\
  settled n /\ settled o /\
  exists child st' c,
    Crossover b a heads st = Some (child, st') /\
    load child st' = Some c /\
    length (connections c) = length (connections n) /\
    (forall i ca, connections (normalised n) !! i = Some ca ->
       connections c !! i = Some (inherited (connections (normalised o)) heads i ca)) /\
    (forall i x, connections c !! i = Some x ->
       connections (normalised n) !! i = Some x \/
       connections (normalised o) !! i = Some x) /\
    ga.FitnessScore (MemberData c) = 0 /\ nSimilar c = 0 /\ sorted c = false /\
    nInputs c = nInputs n /\ nOutputs c = nOutputs n.
Proof.
  intros run a b st n o.
  assert (H1 : load b st = Some n) by (vm_compute; reflexivity).
  assert (H2 : load a st = Some o) by (vm_compute; reflexivity).
  assert (H3 : settled n) by (right; vm_compute; lia).
  assert (H4 : settled o) by (right; vm_compute; lia).
  split; [exact H1|]. split; [exact H2|]. split; [exact H3|]. split; [exact H4|].
  exact (Crossover_connections b a heads st n o H1 H2 H3 H4).
Defined.

(** *** The history *)

Lemma nil_history_addConnection net senderRaw receiverRaw r st st' :
  mutationHistory st = None ->
  addConnection net senderRaw receiverRaw r st = Some st' -> st' = st.
Proof.
  intros Hnil Hrun.
  destruct (load net st) as [n|] eqn:Hn;
    [|unfold addConnection in Hrun; rewrite Hn in Hrun; discriminate].
  destruct (addConnection_cases _ _ _ _ _ _ _ Hn Hrun)
    as [->|(s & t & sn & rn & _ & _ & _ & _ & _ & [(mut & Hl & _)|(h & Hh & _)])].
  - reflexivity.
  - unfold history_lookup in Hl. rewrite Hnil in Hl. discriminate.
  - congruence.
Qed.

Lemma nil_history_addNode net connRaw r1 r2 st st' :
  mutationHistory st = None ->
  addNode net connRaw r1 r2 st = Some st' -> st' = st.
Proof.
  intros Hnil Hrun.
  destruct (load net st) as [n|] eqn:Hn;
    [|unfold addNode in Hrun; rewrite Hn in Hrun; discriminate].
  destruct (addNode_cases _ _ _ _ _ _ _ Hn Hrun)
    as [->|(c & sn & _ & _ & _ & _ & [(m1 & m2 & Hl & _)|(_ & Hfresh)])].
  - reflexivity.
  - unfold history_lookup in Hl. rewrite Hnil in Hl. discriminate.
  - apply addNode_fresh_spec in Hfresh as (h & Hh & _). congruence.
Qed.

(** The package declares [mutationHistory] and never makes it. While the
    map is nil, [addConnection] and [addNode] add nothing: each of them
    returns with the state as it was or panics. [addConnection] panics
    (a write into the nil map) as soon as it draws two nodes that it
    could connect, and [addNode] panics on a network without connections
    ([rand.IntN(0)]). *)
Lemma nil_history net st n :
  mutationHistory st = None -> load net st = Some n ->
  (forall senderRaw receiverRaw r st',
      addConnection net senderRaw receiverRaw r st = Some st' -> st' = st) /\
  (forall connRaw r1 r2 st',
      addNode net connRaw r1 r2 st = Some st' -> st' = st) /\
  (forall senderRaw receiverRaw r senderNode receiverNode,
      let s := senderRaw mod Z.of_nat (length (nodes n)) in
      let t := receiverRaw mod Z.of_nat (length (nodes n)) in
      nodes n !! Z.to_nat s = Some senderNode ->
      nodes n !! Z.to_nat t = Some receiverNode ->
      layer senderNode < layer receiverNode ->
      (forall c, c ∈ connections n ->
                 endpoints c <> {| senderId := wrap32 s; receiverId := wrap32 t |}) ->
      addConnection net senderRaw receiverRaw r st = None) /\
  (connections n = [] ->
   forall connRaw r1 r2, addNode net connRaw r1 r2 st = None).
Proof.
  intros Hnil Hn. split; [|split; [|split]].
  - intros senderRaw receiverRaw r st'. apply nil_history_addConnection. exact Hnil.
  - intros connRaw r1 r2 st'. apply nil_history_addNode. exact Hnil.
  - intros senderRaw receiverRaw r senderNode receiverNode s t Hs Ht Hlt Hnew.
    unfold addConnection. rewrite Hn. cbn [mbind option_bind]. unfold rand_IntN.
    assert (Hlen : 0 < Z.of_nat (length (nodes n))).
    { apply lookup_lt_Some in Hs. lia. }
    destruct (Z.of_nat (length (nodes n)) <=? 0) eqn:E; [apply Z.leb_le in E; lia|].
    cbn [mbind option_bind]. fold s t.
    destruct (s =? t) eqn:Est.
    { apply Z.eqb_eq in Est. rewrite Est in Hs. rewrite Hs in Ht.
      injection Ht as <-. lia. }
    rewrite Hs, Ht. cbn [mbind option_bind].
    destruct (layer receiverNode <=? layer senderNode) eqn:El;
      [apply Z.leb_le in El; lia|].
    destruct (existsb _ (connections n)) eqn:Ex.
    { apply existsb_exists in Ex as (c & Hc & Heq).
      apply bool_decide_eq_true in Heq. exfalso.
      apply (Hnew c); [apply list_elem_of_In; exact Hc|exact Heq]. }
    unfold history_lookup. rewrite Hnil.
    unfold getNewInnovationNumber, history_store. simpl. rewrite Hnil. reflexivity.
  - intros Hc connRaw r1 r2. unfold addNode. rewrite Hn. cbn [mbind option_bind].
    rewrite Hc. reflexivity.
Qed.

(** [nil_history] on a new network, in the state in which the package
    starts. *)
Lemma nil_history_witness :
  let st := snd (NewNetwork 1 1 {| heap := ∅; innovationNoTracker := 0;
                                   mutationHistory := None; testSet := [] |}) in
  let n := newNetwork 1 1 in
  mutationHistory st = None /\ load 0%nat st = Some n /\
  addConnection 0 0 1 (f64_of_Z 0) st = None /\
  addConnection 0 1 0 (f64_of_Z 0) st = Some st /\
  addNode 0 0 (f64_of_Z 0) (f64_of_Z 0) st = None.
Proof.
  intros st n.
  assert (H1 : mutationHistory st = None) by reflexivity.
  assert (H2 : load 0%nat st = Some n) by reflexivity.
  destruct (nil_history 0 st n H1 H2) as (_ & _ & Hc & Ha).
  split; [exact H1|]. split; [exact H2|]. split; [|split].
  - apply (Hc 0 1 (f64_of_Z 0) _ _ eq_refl eq_refl); [simpl; unfold maxDepth; lia|].
    intros c Hin. inversion Hin.
  - reflexivity.
  - apply Ha. reflexivity.
Defined.

Section Fitness.
Variables math_Tanh math_Exp : float64 -> float64.
Variable math_Pow : float64 -> float64 -> float64.
Variable uint32_of_float64 : float64 -> Z.

Lemma history_lookup_clear key st :
  history_lookup key (if 0 <? history_len st then clearMutationHistory st else st) = None.
Proof.
  unfold history_lookup, history_len, clearMutationHistory.
  destruct (mutationHistory st) as [h|] eqn:Eh; simpl.
  - destruct (0 <? Z.of_nat (size h)) eqn:E; simpl.
    + apply lookup_empty.
    + rewrite Eh. apply Z.ltb_ge in E.
      assert (h = ∅) by (apply map_size_empty_iff; lia). subst. apply lookup_empty.
  - rewrite Eh. reflexivity.
Qed.

(** A fitness evaluation empties the mutation history and touches nothing
    else but the fitness score of its network: nothing is recorded in the
    history afterwards, so the next [addConnection] that appends a
    connection numbers it with the current value of the innovation
    counter, whatever was recorded before the evaluation. *)
Lemma ComputeAndSetFitnessScore_clears net st st' :
  ComputeAndSetFitnessScore math_Tanh math_Exp math_Pow uint32_of_float64 net st = Some st' ->
  (forall key, history_lookup key st' = None) /\
  innovationNoTracker st' = innovationNoTracker st /\
  testSet st' = testSet st /\
  (forall p, p <> net -> load p st' = load p st) /\
  (exists n n', load net st = Some n /\ load net st' = Some n' /\
     nodes n' = nodes n /\ connections n' = connections n /\
     nSimilar n' = nSimilar n /\ sorted n' = sorted n /\
     ga.SurvivalChance (MemberData n') = ga.SurvivalChance (MemberData n)) /\
  (forall p senderRaw receiverRaw r st'' c,
      0 <= innovationNoTracker st < 2 ^ 64 ->
      addConnection p senderRaw receiverRaw r st' = Some st'' ->
      appended p st' st'' [c] ->
      innovationNo c = innovationNoTracker st).
Proof.
  unfold ComputeAndSetFitnessScore.
  destruct (load net st) as [n|] eqn:Hn; [|discriminate]. cbn [mbind option_bind].
  set (st1 := if 0 <? history_len st then clearMutationHistory st else st).
  assert (Hsame : heap st1 = heap st /\ innovationNoTracker st1 = innovationNoTracker st /\
                  testSet st1 = testSet st).
  { unfold st1, clearMutationHistory.
    destruct (0 <? history_len st); [|auto]. destruct (mutationHistory st); auto. }
  destruct Hsame as (Hh & Ht & Hts).
  destruct (rawFitness _ _ _ _ _) as [fitness|]; [|discriminate].
  cbn [mbind option_bind]. intros [= <-].
  assert (Hlook : forall key, history_lookup key
            (store net (with_MemberData
               {| ga.FitnessScore :=
                    uint32_of_float64 (adjustedFitness fitness (nSimilar n));
                  ga.SurvivalChance := ga.SurvivalChance (MemberData n) |} n) st1) = None).
  { intros key. rewrite history_lookup_store. apply history_lookup_clear. }
  split; [exact Hlook|]. split; [exact Ht|]. split; [exact Hts|]. split; [|split].
  - intros p Hp. rewrite load_store_ne by auto. unfold load. rewrite Hh. reflexivity.
  - eexists _, _. split; [reflexivity|]. rewrite load_store.
    split; [reflexivity|]. simpl. auto 10.
  - intros p senderRaw receiverRaw r st'' c Htr Hrun Happ.
    pose proof Happ as (m & m' & Hm & Hm' & Hcs).
    destruct (addConnection_cases _ _ _ _ _ _ _ Hm Hrun)
      as [->|(s & t & sn & rn & _ & _ & _ & _ & _ & [(mut & Hl & _)|(h & Hhist & _ & ->)])].
    + exfalso. eapply not_appended_same. exact Happ.
    + rewrite Hlook in Hl. discriminate.
    + assert (Hc : [c] = [made {| senderId := wrap32 s; receiverId := wrap32 t |} r
                           (fst (getNewInnovationNumber
                              (store net (with_MemberData
                                 {| ga.FitnessScore :=
                                      uint32_of_float64 (adjustedFitness fitness (nSimilar n));
                                    ga.SurvivalChance := ga.SurvivalChance (MemberData n) |} n)
                                 st1)))]).
      { eapply appended_inj; [exact Happ|exact Hm| |].
        - unfold load. simpl. rewrite lookup_insert_eq. reflexivity.
        - reflexivity. }
      injection Hc as ->. simpl. rewrite Ht. unfold wrap64.
      rewrite Zminus_mod_idemp_l.
      replace (innovationNoTracker st + 1 - 1) with (innovationNoTracker st) by lia.
      apply Z.mod_small. exact Htr.
Qed.

Lemma forEach_None {A S : Type} (body : A -> S -> option S) l a :
  a ∈ l -> (forall s, body a s = None) -> forall s, forEach l body s = None.
Proof.
  intros Hin Hnone. induction l as [|x l IH]; intros s; simpl.
  - inversion Hin.
  - apply elem_of_cons in Hin as [<-|Hin].
    + rewrite Hnone. reflexivity.
    + destruct (body x s); simpl; [apply IH; exact Hin|reflexivity].
Qed.

(** [ComputeAndSetFitnessScore] panics when the test set holds an entry
    whose number of inputs or of outputs is not the network's. *)
Lemma ComputeAndSetFitnessScore_incorrect_entry net st n entry :
  load net st = Some n -> entry ∈ testSet st ->
  Z.of_nat (length (input entry)) <> nInputs n \/
  Z.of_nat (length (output entry)) <> nOutputs n ->
  ComputeAndSetFitnessScore math_Tanh math_Exp math_Pow uint32_of_float64 net st = None.
Proof.
  intros Hn Hin Hbad. unfold ComputeAndSetFitnessScore. rewrite Hn.
  cbn [mbind option_bind].
  assert (Hts : testSet (if 0 <? history_len st then clearMutationHistory st else st)
                = testSet st).
  { unfold clearMutationHistory.
    destruct (0 <? history_len st); [|auto]. destruct (mutationHistory st); auto. }
  rewrite Hts. unfold rawFitness.
  rewrite (forEach_None _ _ entry Hin); [reflexivity|].
  intros s.
  destruct (Z.of_nat (length (input entry)) =? nInputs n) eqn:E1;
    [|reflexivity].
  destruct (Z.of_nat (length (output entry)) =? nOutputs n) eqn:E2;
    [|reflexivity].
  apply Z.eqb_eq in E1, E2. destruct Hbad; contradiction.
Qed.

End Fitness.

End neat_cross.

Module neat_solver.
Import neat scenario neat_facts neat_more neat_distance neat_cross.

Lemma firstGeneration_new nIn nOut k : forall members st members' st',
  firstGeneration k nIn nOut members st = (members', st') ->
  exists new,
    members' = members ++ new /\ length new = k /\ NoDup new /\
    (forall net, net ∈ new ->
       load net st = None /\ load net st' = Some (newNetwork nIn nOut)) /\
    (forall p, p ∉ new -> load p st' = load p st) /\
    innovationNoTracker st' = innovationNoTracker st /\
    mutationHistory st' = mutationHistory st /\ testSet st' = testSet st.
Proof.
  induction k as [|k IH]; intros members st members' st'; cbn [firstGeneration].
  - intros [= <- <-]. exists []. rewrite app_nil_r.
    split; [reflexivity|]. split; [reflexivity|]. split; [constructor|].
    split; [intros net Hin; inversion Hin|auto].
  - destruct (NewNetwork nIn nOut st) as [net st1] eqn:E.
    apply NewNetwork_fresh in E as [Hfresh ->].
    intros Hrun. apply IH in Hrun as (new & -> & Hlen & Hnd & Hnew & Hframe & Ht & Hh & Hts).
    assert (Hnot : net ∉ new).
    { intros Hin. destruct (Hnew net Hin) as [Hnone _].
      rewrite load_store in Hnone. discriminate. }
    exists (net :: new). rewrite <- app_assoc. split; [reflexivity|].
    split; [simpl; lia|]. split; [constructor; assumption|].
    split; [|split; [|auto]].
    + intros p Hin. apply elem_of_cons in Hin as [->|Hin].
      * split; [exact Hfresh|]. rewrite (Hframe net Hnot). apply load_store.
      * destruct (Hnew p Hin) as [Hnone Hsome]. split; [|exact Hsome].
        assert (p <> net) by (intros ->; contradiction).
        rewrite load_store_ne in Hnone by auto. exact Hnone.
    + intros p Hp. apply not_elem_of_cons in Hp as [Hne Hp].
      rewrite (Hframe p Hp). apply load_store_ne. auto.
Qed.

(** [NewSolver] of package neat panics exactly when [PopulationSize] is
    0. Otherwise the first generation is made of [PopulationSize] networks
    that did not exist before, pairwise distinct, each one as
    [NewNetwork(nInputs, nOutputs)] builds it; the networks that existed
    are left as they were, speciation is switched on and the generation
    counter starts at 1. *)
Lemma NewSolver_first_generation nIn nOut o st :
  0 <= PopulationSize o < 2 ^ 32 ->
  (PopulationSize o = 0 -> NewSolver nIn nOut o st = None) /\
  (PopulationSize o <> 0 ->
   exists solver st',
     NewSolver nIn nOut o st = Some (solver, st') /\
     options solver = o /\
     length (ga.population (gaSolver solver)) = Z.to_nat (PopulationSize o) /\
     NoDup (ga.population (gaSolver solver)) /\
     (forall net, net ∈ ga.population (gaSolver solver) ->
        load net st = None /\ load net st' = Some (newNetwork nIn nOut)) /\
     (forall p, p ∉ ga.population (gaSolver solver) -> load p st' = load p st) /\
     ga.Speciation (ga.options (gaSolver solver)) = true /\
     ga.generationNo (gaSolver solver) = 1 /\
     innovationNoTracker st' = innovationNoTracker st /\
     mutationHistory st' = mutationHistory st).
Proof.
  intros HPS. unfold NewSolver.
  destruct (firstGeneration (Z.to_nat (PopulationSize o)) nIn nOut [] st)
    as [members st1] eqn:E.
  apply firstGeneration_new in E
    as (new & -> & Hlen & Hnd & Hnew & Hframe & Ht & Hh & _).
  simpl. unfold ga.NewSolver. simpl. split.
  - intros ->. reflexivity.
  - intros Hne.
    destruct (PopulationSize o =? 0) eqn:E0; [apply Z.eqb_eq in E0; contradiction|].
    rewrite Hlen. unfold wrap32. rewrite Z2Nat.id, Z.mod_small by lia.
    rewrite Z.eqb_refl. simpl.
    eexists _, _. split; [reflexivity|]. simpl.
    split; [reflexivity|]. split; [exact Hlen|]. split; [exact Hnd|].
    split; [exact Hnew|]. split; [exact Hframe|].
    split; [|split; [reflexivity|split; assumption]].
    destruct (NBatches o =? 0); simpl;
      match goal with |- context [if ?b then _ else _] => destruct b end; reflexivity.
Qed.

Lemma NewSolver_first_generation_witness :
  let o := {| PopulationSize := 3; MaxGenerations := 1; MutationChance := f32_of_Z 0;
              NBatches := 1; Verbose := false |} in
  0 <= PopulationSize o < 2 ^ 32 /\ PopulationSize o <> 0 /\
  exists solver st',
    NewSolver 2 1 o empty_state = Some (solver, st') /\
    options solver = o /\
    length (ga.population (gaSolver solver)) = Z.to_nat (PopulationSize o) /\
    NoDup (ga.population (gaSolver solver)) /\
    (forall net, net ∈ ga.population (gaSolver solver) ->
       load net empty_state = None /\ load net st' = Some (newNetwork 2 1)) /\
    (forall p, p ∉ ga.population (gaSolver solver) -> load p st' = load p empty_state) /\
    ga.Speciation (ga.options (gaSolver solver)) = true /\
    ga.generationNo (gaSolver solver) = 1 /\
    innovationNoTracker st' = innovationNoTracker empty_state /\
    mutationHistory st' = mutationHistory empty_state.
Proof.
  intros o.
  assert (H1 : 0 <= PopulationSize o < 2 ^ 32) by (simpl; lia).
  assert (H2 : PopulationSize o <> 0) by (simpl; lia).
  split; [exact H1|]. split; [exact H2|].
  exact (proj2 (NewSolver_first_generation 2 1 o empty_state H1) H2).
Defined.

(** [addNode] when it returns: either nothing has changed (the
    connection drawn is disabled, or the new layer would be [maxDepth]),
    or the network has one node more, of identifier [len(nodes)], at the
    layer after the sender's, with the activation tanh, and two
    connections more, from the sender to the new node and from the new
    node to the receiver. The connection that was split stays where it
    was, enabled, and the other networks are left as they were. *)
Lemma addNode_splits net connRaw r1 r2 st st' n :
  history_sound st -> load net st = Some n -> shaped n ->
  Z.of_nat (length (nodes n)) < 2 ^ 32 ->
  addNode net connRaw r1 r2 st = Some st' ->
  st' = st \/
  exists c senderNode c1 c2 n',
    connections n !! Z.to_nat (connRaw mod Z.of_nat (length (connections n))) = Some c /\
    enabled c = true /\
    nodes n !! Z.to_nat (senderId (endpoints c)) = Some senderNode /\
    layer senderNode + 1 < maxDepth /\
    load net st' = Some n' /\
    nodes n' = nodes n ++ [{| id := Z.of_nat (length (nodes n));
                              layer := layer senderNode + 1;
                              activation := TanhActivation |}] /\
    connections n' = connections n ++ [c1; c2] /\
    endpoints c1 = {| senderId := senderId (endpoints c);
                      receiverId := Z.of_nat (length (nodes n)) |} /\
    endpoints c2 = {| senderId := Z.of_nat (length (nodes n));
                      receiverId := receiverId (endpoints c) |} /\
    (forall p, p <> net -> load p st' = load p st).
Proof.
  intros Hsound Hn (_ & Hlay & _) Hlen Hrun.
  destruct (addNode_cases _ _ _ _ _ _ _ Hn Hrun)
    as [->|(c & sn & Hc & Hen & Hsn & Hd & Hcases)]; [left; reflexivity|].
  right.
  assert (Hsl : 0 <= layer sn <= maxDepth) by exact (Forall_lookup_1 _ _ _ _ Hlay Hsn).
  assert (Hw : wrap32 (layer sn + 1) = layer sn + 1)
    by (unfold wrap32; apply Z.mod_small; unfold maxDepth in *; lia).
  assert (Hid : wrap32 (Z.of_nat (length (nodes n))) = Z.of_nat (length (nodes n)))
    by (unfold wrap32; apply Z.mod_small; lia).
  rewrite Hw in Hd. cbv zeta in Hcases. simpl in Hcases. rewrite Hw, Hid in Hcases.
  destruct Hcases as [(m1 & m2 & Hl1 & Hl2 & _ & _ & ->)|(_ & Hfresh)].
  - exists c, sn, (conn m1), (conn m2). eexists.
    do 4 (split; [assumption|]). rewrite load_store. split; [reflexivity|]. simpl.
    split; [reflexivity|]. split; [reflexivity|].
    split; [apply Hsound; exact Hl1|]. split; [apply Hsound; exact Hl2|].
    intros p Hp. apply load_store_ne. auto.
  - apply addNode_fresh_spec in Hfresh as (h & Hh & ->). cbv zeta.
    eexists c, sn, _, _, _. do 4 (split; [assumption|]).
    split; [unfold load; simpl; rewrite lookup_insert_eq; reflexivity|]. simpl.
    split; [reflexivity|]. split; [reflexivity|]. split; [reflexivity|].
    split; [reflexivity|].
    intros p Hp. unfold load. simpl. rewrite lookup_insert_ne by auto. reflexivity.
Qed.

Lemma addNode_splits_witness :
  let z := f64_of_Z 0 in
  let st := clearMutationHistory
              (default two_networks (addConnection 0 0 1 z two_networks)) in
  let n := default (newNetwork 1 1) (load 0%nat st) in
  let st' := default st (addNode 0 0 z z st) in
  let n' := default n (load 0%nat st') in
  history_sound st /\ load 0%nat st = Some n /\ shaped n /\
  Z.of_nat (length (nodes n)) < 2 ^ 32 /\
  addNode 0 0 z z st = Some st' /\ st' <> st /\
  load 0%nat st' = Some n' /\
  map endpoints (connections n') =
    [ {| senderId := 0; receiverId := 1 |}; {| senderId := 0; receiverId := 2 |};
      {| senderId := 2; receiverId := 1 |} ] /\
  map enabled (connections n') = [true; true; true].
Proof.
  intros z st n st' n'.
  assert (H1 : history_sound st) by (apply history_sound_empty; reflexivity).
  assert (H2 : load 0%nat st = Some n) by (vm_compute; reflexivity).
  assert (H3 : shaped n).
  { split; [|split; [|split; [|split]]].
    - intros [|[|i]] node; vm_compute; intros [= <-]; reflexivity.
    - vm_compute. repeat constructor; discriminate.
    - vm_compute. split; [discriminate|reflexivity].
    - vm_compute. split; [discriminate|reflexivity].
    - vm_compute. lia. }
  assert (H4 : Z.of_nat (length (nodes n)) < 2 ^ 32) by (vm_compute; reflexivity).
  assert (H5 : addNode 0 0 z z st = Some st') by (vm_compute; reflexivity).
  split; [exact H1|]. split; [exact H2|]. split; [exact H3|]. split; [exact H4|].
  split; [exact H5|].
  destruct (addNode_splits 0 0 z z st st' n H1 H2 H3 H4 H5)
    as [Heq|(c & sn & c1 & c2 & m & _ & _ & _ & _ & Hm & _)].
  - exfalso. apply (f_equal innovationNoTracker) in Heq. vm_compute in Heq. discriminate.
  - split; [vm_compute; discriminate|]. split; [vm_compute; reflexivity|].
    split; vm_compute; reflexivity.
Defined.

(** [ComputeAndSetFitnessScore_clears] after a connection was recorded. *)
Lemma ComputeAndSetFitnessScore_clears_witness :
  let go := ComputeAndSetFitnessScore (fun x => x) (fun x => x) (fun x _ => x) (fun _ => 0) in
  let st := default two_networks (addConnection 0 0 1 (f64_of_Z 0) two_networks) in
  let st' := default st (go 1%nat st) in
  go 1%nat st = Some st' /\
  is_Some (history_lookup {| senderId := 0; receiverId := 1 |} st) /\
  (forall key, history_lookup key st' = None) /\
  innovationNoTracker st' = innovationNoTracker st.
Proof.
  intros go st st'.
  assert (H1 : go 1%nat st = Some st') by (vm_compute; reflexivity).
  split; [exact H1|]. split; [vm_compute; eauto|].
  destruct (ComputeAndSetFitnessScore_clears
              (fun x => x) (fun x => x) (fun x _ => x) (fun _ => 0) 1%nat st st' H1)
    as (Hc & Ht & _).
  split; [exact Hc|exact Ht].
Defined.

(** [ComputeAndSetFitnessScore_incorrect_entry] on a test set whose only
    entry has no input. *)
Lemma ComputeAndSetFitnessScore_incorrect_entry_witness :
  let entry := {| input := []; output := [f64_of_Z 1] |} in
  let st := {| heap := heap two_networks; innovationNoTracker := 0;
               mutationHistory := Some ∅; testSet := [entry] |} in
  let n := newNetwork 1 1 in
  load 0%nat st = Some n /\ entry ∈ testSet st /\
  (Z.of_nat (length (input entry)) <> nInputs n \/
   Z.of_nat (length (output entry)) <> nOutputs n) /\
  ComputeAndSetFitnessScore (fun x => x) (fun x => x) (fun x _ => x) (fun _ => 0)
    0%nat st = None.
Proof.
  intros entry st n.
  assert (H1 : load 0%nat st = Some n) by (vm_compute; reflexivity).
  assert (H2 : entry ∈ testSet st) by (simpl; left).
  assert (H3 : Z.of_nat (length (input entry)) <> nInputs n \/
               Z.of_nat (length (output entry)) <> nOutputs n)
    by (left; simpl; lia).
  split; [exact H1|]. split; [exact H2|]. split; [exact H3|].
  exact (ComputeAndSetFitnessScore_incorrect_entry
           (fun x => x) (fun x => x) (fun x _ => x) (fun _ => 0) 0%nat st n entry H1 H2 H3).
Defined.

End neat_solver.

(** ** Theorems: package neat as it is, with a history that is never made *)

Module neat_shipped.
Import neat scenario neat_facts neat_more neat_distance neat_cross.

(** *** The package with the history it has

    [mutationHistory] is declared and never made. What every operation
    keeps while the map is nil: the map stays nil, and a property of
    networks that the changes other than the addition of a connection or
    of a node keep is kept. *)
Section Unmade.
Variable P : Network -> Prop.
Variables math_Tanh math_Exp : float64 -> float64.
Variable math_Pow : float64 -> float64 -> float64.
Variable uint32_of_float64 : float64 -> Z.

Hypothesis P_new : forall nInputs nOutputs, P (newNetwork nInputs nOutputs).
Hypothesis P_MemberData : forall d n, P n -> P (with_MemberData d n).
Hypothesis P_nSimilar : forall k n, P n -> P (with_nSimilar k n).
Hypothesis P_normalised : forall n, P n -> P (normalised n).
Hypothesis P_reweighs : forall f n,
  reweighs f -> P n -> P (with_connections (imap f (connections n)) n).
Hypothesis P_offspring : forall n o coin, P n -> P o -> P (offspring n o coin).




End Unmade.

(** *** Networks without connections *)


Section Shipped.
Variables math_Tanh math_Exp : float64 -> float64.
Variable math_Pow : float64 -> float64 -> float64.
Variable uint32_of_float64 : float64 -> Z.








End Shipped.

(** *** Crossover and its parents *)

Lemma normalised_kept n : kept n (normalised n).
Proof.
  destruct (normalised_fields n) as (H1 & H2 & H3 & H4 & H5 & H6 & H7 & H8).
  unfold kept. rewrite normalised_sorted.
  split; [exact H1|]. split; [exact H2|]. split; [exact H3|]. split; [exact H4|].
  split; [exact H5|]. split; [exact H6|]. split; [reflexivity|]. split; [exact H7|].
  split.
  - intros Hs Hsmall. rewrite (H8 Hs). apply SortFunc_ascending. exact Hsmall.
  - intros Hs _. exact (H8 Hs).
Qed.

(** C7, as the claim states it, fails in the package as it is: of two new
    networks that are crossed over, the parents come out marked as
    sorted, which they were not. *)
Lemma Crossover_marks_parents :
  exists child st' n n' o o',
    load 0%nat new_pair = Some n /\ load 1%nat new_pair = Some o /\
    Crossover 0 1 heads new_pair = Some (child, st') /\
    load 0%nat st' = Some n' /\ load 1%nat st' = Some o' /\
    sorted n = false /\ sorted n' = true /\ n' <> n /\
    sorted o = false /\ sorted o' = true /\ o' <> o.
Proof.
  eexists _, _, _, _, _, _.
  split; [vm_compute; reflexivity|]. split; [vm_compute; reflexivity|].
  split; [vm_compute; reflexivity|]. split; [vm_compute; reflexivity|].
  split; [vm_compute; reflexivity|].
  repeat split; try reflexivity; vm_compute; discriminate.
Qed.

(** C7, amended. [Crossover] returns for every pair of networks. It
    leaves both parents' node lists, fitness scores, survival chances,
    input and output counts and similarity counters as they were, and
    every other network of the heap untouched. A parent whose sorted flag
    is set is left exactly as it was; a parent whose flag is not set has
    its flag set and its connections sorted in place by innovation
    number: they are a permutation of the connections it had, in
    ascending order when the numbers are below [2^63], and for at most 12
    connections in the order of the insertion sort. The child is at a new
    address, different from both parents'. *)
Theorem Crossover_frame net other coin st n o :
  load net st = Some n -> load other st = Some o ->
  exists child st' c n' o',
    Crossover net other coin st = Some (child, st') /\
    load child st = None /\ child <> net /\ child <> other /\
    load child st' = Some c /\
    load net st' = Some n' /\ kept n n' /\
    load other st' = Some o' /\ kept o o' /\
    (forall p, p <> net -> p <> other -> p <> child -> load p st' = load p st).
Proof.
  intros Hn Ho.
  destruct (Crossover_runs net other coin st n o Hn Ho)
    as (child & st' & Hrun & Hfresh & Hc & Hn' & Ho' & Hrest & _).
  exists child, st', (offspring n o coin), (normalised n), (normalised o).
  split; [exact Hrun|]. split; [exact Hfresh|].
  split; [congruence|]. split; [congruence|]. split; [exact Hc|].
  split; [exact Hn'|]. split; [apply normalised_kept|].
  split; [exact Ho'|]. split; [apply normalised_kept|]. exact Hrest.
Qed.

(** The theorem on two new networks of the package as it starts. *)
Lemma Crossover_frame_witness :
  let n := newNetwork 2 1 in
  load 0%nat new_pair = Some n /\ load 1%nat new_pair = Some n /\
  exists child st' c n' o',
    Crossover 0 1 heads new_pair = Some (child, st') /\
    load child new_pair = None /\ child <> 0%nat /\ child <> 1%nat /\
    load child st' = Some c /\
    load 0%nat st' = Some n' /\ kept n n' /\
    load 1%nat st' = Some o' /\ kept n o' /\
    (forall p, p <> 0%nat -> p <> 1%nat -> p <> child -> load p st' = load p new_pair).
Proof.
  intros n.
  assert (H1 : load 0%nat new_pair = Some n) by (vm_compute; reflexivity).
  assert (H2 : load 1%nat new_pair = Some n) by (vm_compute; reflexivity).
  split; [exact H1|]. split; [exact H2|].
  exact (Crossover_frame 0 1 heads new_pair n n H1 H2).
Defined.

(** *** The theorems of the package as it is, on a run *)





(** *** With a history that was made

    What follows is not a run of the package as it is: the history is
    taken to be a made map. A record is kept under the endpoints alone,
    and a mutation of the other kind with the same endpoints takes its
    place. Genome [a] adds the connection 0 -> 2 and gets number 0; genome
    [b], of one input and one output, adds 0 -> 1 and splits it with node
    2, which records 0 -> 2 anew, as the half of a split, with number 2;
    genome [c] then adds the connection 0 -> 2, as [a] did, and gets
    number 4. *)
Lemma made_history_record_overwritten :
  let z := f64_of_Z 0 in
  let st1 := snd (NewNetwork 2 1 empty_state) in
  let st2 := snd (NewNetwork 1 1 st1) in
  let st3 := snd (NewNetwork 2 1 st2) in
  exists st4 st5 st6 st7 na nc,
    addConnection 0 0 2 z st3 = Some st4 /\
    addConnection 1 0 1 z st4 = Some st5 /\
    addNode 1 0 z z st5 = Some st6 /\
    addConnection 2 0 2 z st6 = Some st7 /\
    load 0%nat st7 = Some na /\ load 2%nat st7 = Some nc /\
    map endpoints (connections na) = [ {| senderId := 0; receiverId := 2 |} ] /\
    map endpoints (connections nc) = [ {| senderId := 0; receiverId := 2 |} ] /\
    map innovationNo (connections na) = [0] /\
    map innovationNo (connections nc) = [4].
Proof.
  intros z st1 st2 st3. eexists _, _, _, _, _, _.
  split; [vm_compute; reflexivity|]. split; [vm_compute; reflexivity|].
  split; [vm_compute; reflexivity|]. split; [vm_compute; reflexivity|].
  split; [vm_compute; reflexivity|]. split; [vm_compute; reflexivity|].
  repeat split; reflexivity.
Qed.

End neat_shipped.

(** ** Theorems: the scheduling example *)

Module scheduling_facts.
Import scheduling.

Lemma JOBS_lookup jobId j :
  JOBS !! Z.to_nat jobId = Some j ->
  2 <= executionTime j <= 7 /\ 7 <= dueTime j <= 20.
Proof.
  intros Hj.
  assert (Hall : Forall (fun j => 2 <= executionTime j <= 7 /\ 7 <= dueTime j <= 20) JOBS)
    by (repeat constructor; simpl; lia).
  exact (Forall_lookup_1 _ _ _ _ Hall Hj).
Qed.

Lemma visit_bounds jobId tardiness startTime k st' :
  0 <= tardiness <= MAXTARDINESS -> 0 <= startTime <= 7 * k -> 0 <= k <= 1000 ->
  visit jobId (tardiness, startTime) = Some st' ->
  0 <= fst st' <= MAXTARDINESS /\ 0 <= snd st' <= 7 * (k + 1).
Proof.
  intros Ht Hs Hk. unfold visit.
  destruct (JOBS !! Z.to_nat jobId) as [j|] eqn:Ej; [|discriminate]. simpl.
  destruct (JOBS_lookup _ _ Ej) as [He Hd]. intros Heq.
  apply (inj Some) in Heq. subst st'. simpl.
  unfold MAXTARDINESS in *. unfold wrap32.
  rewrite (Z.mod_small (startTime + executionTime j)) by lia.
  rewrite (Z.mod_small (startTime + executionTime j - 1)) by lia.
  rewrite (Z.mod_small (startTime + executionTime j - 1 + 1)) by lia.
  split; [|lia].
  destruct (dueTime j <? startTime + executionTime j - 1) eqn:E; [|lia].
  apply Z.ltb_lt in E.
  rewrite (Z.mod_small (startTime + executionTime j - 1 - dueTime j)) by lia.
  rewrite Z.mod_small by lia.
  destruct (1000 <? _) eqn:E2; [lia|]. apply Z.ltb_ge in E2. lia.
Qed.

Lemma visits_bounds sequence : forall tardiness startTime k st',
  0 <= tardiness <= MAXTARDINESS -> 0 <= startTime <= 7 * k ->
  0 <= k -> k + Z.of_nat (length sequence) <= 1000 ->
  forEach sequence visit (tardiness, startTime) = Some st' ->
  0 <= fst st' <= MAXTARDINESS.
Proof.
  induction sequence as [|jobId sequence IH]; intros tardiness startTime k st' Ht Hs Hk Hlen;
    cbn [forEach].
  - intros [= <-]. exact Ht.
  - destruct (visit jobId (tardiness, startTime)) as [[t1 s1]|] eqn:E; [|discriminate].
    cbn [mbind option_bind]. simpl in Hlen.
    destruct (visit_bounds _ _ _ k _ Ht Hs ltac:(lia) E) as [Ht1 Hs1]. simpl in Ht1, Hs1.
    apply (IH t1 s1 (k + 1)); [exact Ht1|exact Hs1|lia|lia].
Qed.

Lemma visits_run sequence : forall st,
  Forall (fun jobId => 0 <= jobId < NTASKS) sequence ->
  is_Some (forEach sequence visit st).
Proof.
  induction sequence as [|jobId sequence IH]; intros [tardiness startTime] Hall;
    cbn [forEach].
  - eauto.
  - inversion Hall as [|? ? Hj Hall']; subst.
    assert (Hv : is_Some (visit jobId (tardiness, startTime))).
    { unfold visit.
      destruct (lookup_lt_is_Some_2 JOBS (Z.to_nat jobId)) as [j Hj'];
        [simpl; unfold NTASKS in Hj; lia|].
      rewrite Hj'. simpl. eauto. }
    destruct Hv as [st1 ->]. cbn [mbind option_bind]. apply IH. exact Hall'.
Qed.

Lemma visits_panic sequence : forall st,
  Exists (fun jobId => NTASKS <= jobId) sequence ->
  forEach sequence visit st = None.
Proof.
  induction sequence as [|jobId sequence IH]; intros [tardiness startTime] Hex;
    cbn [forEach].
  - inversion Hex.
  - inversion Hex as [? ? Hj|? ? Hex']; subst.
    + assert (Hv : visit jobId (tardiness, startTime) = None).
      { unfold visit. rewrite (lookup_ge_None_2 JOBS); [reflexivity|].
        simpl. unfold NTASKS in Hj. lia. }
      rewrite Hv. reflexivity.
    + destruct (visit jobId (tardiness, startTime)) as [st1|];
        cbn [mbind option_bind]; [|reflexivity].
      apply IH. exact Hex'.
Qed.

Lemma computeTardiness_range sequence tardiness :
  job_ids sequence -> computeTardiness sequence = Some tardiness ->
  0 <= tardiness <= MAXTARDINESS.
Proof.
  intros [Hlen _]. unfold computeTardiness.
  destruct (forEach sequence visit (0, 0)) as [st'|] eqn:E; [|discriminate].
  simpl. intros [= <-].
  apply (visits_bounds sequence 0 0 0 st'); unfold MAXTARDINESS; try lia; [|exact E].
  rewrite Hlen. unfold NTASKS. simpl. lia.
Qed.

(** [computeTardiness] on an array of [NTASKS] job identifiers: it panics
    (an index out of range) exactly when one of them is not below
    [NTASKS], and the tardiness it returns otherwise is at most
    [MAXTARDINESS]. *)
Lemma computeTardiness_bounded sequence :
  job_ids sequence ->
  (computeTardiness sequence = None <->
   Exists (fun jobId => NTASKS <= jobId) sequence) /\
  (forall tardiness, computeTardiness sequence = Some tardiness ->
                     0 <= tardiness <= MAXTARDINESS).
Proof.
  intros Hjobs. split; [|intros tardiness; apply computeTardiness_range; exact Hjobs].
  destruct Hjobs as [Hlen Hids]. unfold computeTardiness. split.
  - intros Hnone.
    destruct (decide (Exists (fun jobId => NTASKS <= jobId) sequence)) as [Hex|Hnex];
      [exact Hex|].
    exfalso. apply not_Exists_Forall in Hnex; [|apply _].
    destruct (visits_run sequence (0, 0)) as [st' Hst'].
    + rewrite Forall_forall in Hids, Hnex |- *. intros x Hx.
      specialize (Hids x Hx). specialize (Hnex x Hx). unfold compose in Hnex. lia.
    + rewrite Hst' in Hnone. discriminate.
  - intros Hex. rewrite visits_panic by exact Hex. reflexivity.
Qed.

Lemma fitnessOf_small tardiness :
  0 <= tardiness <= MAXTARDINESS ->
  fitnessOf tardiness = MAXTARDINESS * MAXTARDINESS - tardiness * tardiness.
Proof.
  unfold fitnessOf, MAXTARDINESS, wrap32. intros Ht.
  rewrite (Z.mod_small (1000 + tardiness)), (Z.mod_small (1000 - tardiness)) by lia.
  rewrite Z.mod_small by nia. lia.
Qed.

Lemma sqrt_round_trip tardiness :
  0 <= tardiness <= MAXTARDINESS ->
  uint32_of_f64 (f64_sqrt (f64_of_Z (tardiness * tardiness))) = Some tardiness.
Proof.
  intros Ht.
  assert (Hall : forallb
            (fun t => match uint32_of_f64 (f64_sqrt (f64_of_Z (t * t))) with
                      | Some v => v =? t
                      | None => false
                      end) (seqZ 0 1001) = true) by (vm_compute; reflexivity).
  rewrite forallb_forall in Hall.
  specialize (Hall tardiness).
  destruct (uint32_of_f64 (f64_sqrt (f64_of_Z (tardiness * tardiness)))) as [v|].
  - f_equal. apply Z.eqb_eq. apply Hall. apply list_elem_of_In, elem_of_seqZ.
    unfold MAXTARDINESS in Ht. lia.
  - discriminate Hall. apply list_elem_of_In, elem_of_seqZ.
    unfold MAXTARDINESS in Ht. lia.
Qed.

(** The fitness score of the example and the tardiness that [main]
    prints. On a schedule of [NTASKS] valid jobs of tardiness [t],
    [ComputeAndSetFitnessScore] stores [MAXTARDINESS^2 - t^2], without
    wrap-around, and [main] gets [t] back from that score. *)
Lemma tardiness_round_trip s tardiness :
  job_ids (sequence s) ->
  computeTardiness (sequence s) = Some tardiness ->
  exists s',
    ComputeAndSetFitnessScore s = Some s' /\
    sequence s' = sequence s /\
    GetFitnessScore s' = MAXTARDINESS * MAXTARDINESS - tardiness * tardiness /\
    0 <= GetFitnessScore s' <= MAXTARDINESS * MAXTARDINESS /\
    bestTardiness s' = Some tardiness.
Proof.
  intros Hids Ht.
  pose proof (computeTardiness_range _ _ Hids Ht) as Hb.
  unfold ComputeAndSetFitnessScore. rewrite Ht. simpl.
  eexists. split; [reflexivity|]. split; [reflexivity|].
  unfold GetFitnessScore, bestTardiness, GetFitnessScore. simpl.
  rewrite (fitnessOf_small _ Hb).
  split; [reflexivity|]. split; [unfold MAXTARDINESS in *; nia|].
  replace (wrap32 (MAXTARDINESS * MAXTARDINESS -
                   (MAXTARDINESS * MAXTARDINESS - tardiness * tardiness)))
    with (tardiness * tardiness).
  - apply sqrt_round_trip. exact Hb.
  - unfold wrap32. rewrite Z.mod_small; [lia|]. unfold MAXTARDINESS in *. nia.
Qed.

(** [Crossover] of the example hands the child the sequence of the parent
    whose stored fitness score is not the smaller one, the receiver's on
    a tie: when the stored scores are the scores of the sequences, the
    child's score, once computed, is the greater of the two. *)
Lemma Crossover_keeps_fitter s other s1 other1 :
  ComputeAndSetFitnessScore s = Some s1 ->
  ComputeAndSetFitnessScore other = Some other1 ->
  GetFitnessScore s1 = GetFitnessScore s ->
  GetFitnessScore other1 = GetFitnessScore other ->
  GetFitnessScore (Crossover s other) = 0 /\
  exists child1,
    ComputeAndSetFitnessScore (Crossover s other) = Some child1 /\
    GetFitnessScore child1 = Z.max (GetFitnessScore s) (GetFitnessScore other) /\
    sequence child1 =
      (if GetFitnessScore other <=? GetFitnessScore s then sequence s else sequence other).
Proof.
  unfold ComputeAndSetFitnessScore, GetFitnessScore, Crossover. simpl.
  destruct (computeTardiness (sequence s)) as [t|] eqn:Et; [|discriminate].
  destruct (computeTardiness (sequence other)) as [t'|] eqn:Et'; [|discriminate].
  simpl. intros [= <-] [= <-]. simpl. intros Hs Ho.
  split; [reflexivity|].
  destruct (ga.FitnessScore (MemberData other) <=? ga.FitnessScore (MemberData s)) eqn:E.
  - apply Z.leb_le in E. rewrite Et. simpl. eexists. split; [reflexivity|]. simpl.
    split; [lia|reflexivity].
  - apply Z.leb_gt in E. rewrite Et'. simpl. eexists. split; [reflexivity|]. simpl.
    split; [lia|reflexivity].
Qed.


Lemma computeTardiness_bounded_witness :
  job_ids (sequence in_order) /\
  (computeTardiness (sequence in_order) = None <->
   Exists (fun jobId => NTASKS <= jobId) (sequence in_order)) /\
  computeTardiness (sequence in_order) = Some 279.
Proof.
  assert (H1 : job_ids (sequence in_order))
    by (split; [reflexivity|repeat constructor; simpl; lia]).
  split; [exact H1|].
  split; [exact (proj1 (computeTardiness_bounded (sequence in_order) H1))|].
  vm_compute. reflexivity.
Defined.

Lemma tardiness_round_trip_witness :
  job_ids (sequence in_order) /\
  computeTardiness (sequence in_order) = Some 279 /\
  exists s',
    ComputeAndSetFitnessScore in_order = Some s' /\
    sequence s' = sequence in_order /\
    GetFitnessScore s' = MAXTARDINESS * MAXTARDINESS - 279 * 279 /\
    0 <= GetFitnessScore s' <= MAXTARDINESS * MAXTARDINESS /\
    bestTardiness s' = Some 279.
Proof.
  assert (H1 : job_ids (sequence in_order))
    by (split; [reflexivity|repeat constructor; simpl; lia]).
  assert (H2 : computeTardiness (sequence in_order) = Some 279)
    by (vm_compute; reflexivity).
  split; [exact H1|]. split; [exact H2|].
  exact (tardiness_round_trip in_order 279 H1 H2).
Defined.

Lemma complete_job_ids s : complete s -> job_ids (sequence s) /\
  Forall (fun jobId => 0 <= jobId < NTASKS) (sequence s).
Proof.
  unfold complete, job_ids. intros Hp.
  assert (Hall : Forall (fun jobId => 0 <= jobId < NTASKS) (sequence s)).
  { rewrite Hp. apply Forall_forall. intros x Hx. apply elem_of_seqZ in Hx. lia. }
  split; [split|exact Hall].
  - rewrite Hp, length_seqZ. reflexivity.
  - eapply Forall_impl; [exact Hall|]. intros x Hx. simpl in Hx. unfold NTASKS in Hx. lia.
Qed.

Lemma randomSequence_map permutation s :
  length permutation = Z.to_nat NTASKS ->
  randomSequence permutation s =
    Some {| MemberData := MemberData s; sequence := map wrap32 permutation |}.
Proof.
  intros Hlen. unfold randomSequence.
  assert (Hm : mapM (fun i => wrap32 <$> permutation !! i) (seq 0 (Z.to_nat NTASKS))
               = Some (map wrap32 permutation)).
  { apply mapM_Some. apply Forall2_same_length_lookup. split.
    - rewrite length_seq, length_map. symmetry. exact Hlen.
    - intros i x y Hx Hy. apply lookup_seq in Hx as [-> _]. simpl.
      rewrite list_lookup_fmap in Hy. exact Hy. }
  rewrite Hm. reflexivity.
Qed.

(** The schedules of the example stay complete: [Crossover] hands the
    child the sequence of one of its parents, [Mutate] installs the
    permutation that [rand.Perm] returned, and on a complete sequence
    [computeTardiness] does not panic. *)
Lemma schedules_stay_complete :
  (forall s, complete s -> is_Some (ComputeAndSetFitnessScore s)) /\
  (forall s s', ComputeAndSetFitnessScore s = Some s' -> sequence s' = sequence s) /\
  (forall s other, complete s -> complete other -> complete (Crossover s other)) /\
  (forall permutation s,
      permutation ≡ₚ seqZ 0 NTASKS ->
      exists s', Mutate permutation s = Some s' /\ complete s' /\
                 sequence s' = permutation).
Proof.
  split; [|split; [|split]].
  - intros s Hs. destruct (complete_job_ids s Hs) as [_ Hall].
    unfold ComputeAndSetFitnessScore, computeTardiness.
    destruct (visits_run (sequence s) (0, 0) Hall) as [st' ->]. simpl. eauto.
  - intros s s'. unfold ComputeAndSetFitnessScore.
    destruct (computeTardiness (sequence s)); [|discriminate]. intros [= <-]. reflexivity.
  - intros s other Hs Ho. unfold complete, Crossover. simpl.
    destruct (_ <=? _); assumption.
  - intros permutation s Hp. unfold Mutate.
    assert (Hlen : length permutation = Z.to_nat NTASKS)
      by (rewrite Hp, length_seqZ; reflexivity).
    assert (Hw : map wrap32 permutation = permutation).
    { rewrite <- (map_id permutation) at 2. apply map_ext_Forall.
      rewrite Hp. apply Forall_forall. intros x Hx. apply elem_of_seqZ in Hx.
      unfold wrap32. apply Z.mod_small. unfold NTASKS in Hx. lia. }
    rewrite (randomSequence_map _ _ Hlen), Hw. eexists. split; [reflexivity|].
    split; [exact Hp|reflexivity].
Qed.

Lemma schedules_stay_complete_witness :
  complete in_order /\ complete reversed /\
  is_Some (ComputeAndSetFitnessScore reversed) /\
  complete (Crossover in_order reversed) /\
  exists s', Mutate (sequence reversed) in_order = Some s' /\ complete s' /\
             sequence s' = sequence reversed.
Proof.
  assert (H1 : complete in_order) by (unfold complete; reflexivity).
  assert (H2 : complete reversed) by (unfold complete; apply reverse_Permutation).
  split; [exact H1|]. split; [exact H2|].
  destruct schedules_stay_complete as (Ha & _ & Hc & Hm).
  split; [exact (Ha reversed H2)|]. split; [exact (Hc in_order reversed H1 H2)|].
  exact (Hm (sequence reversed) in_order H2).
Defined.

(** [Crossover_keeps_fitter] on the two schedules above, once their
    scores are computed: tardiness 279 and 309. *)
Lemma Crossover_keeps_fitter_witness :
  let s := default reversed (ComputeAndSetFitnessScore reversed) in
  let other := default in_order (ComputeAndSetFitnessScore in_order) in
  ComputeAndSetFitnessScore s = Some s /\
  ComputeAndSetFitnessScore other = Some other /\
  GetFitnessScore s = 1000000 - 309 * 309 /\
  GetFitnessScore other = 1000000 - 279 * 279 /\
  GetFitnessScore (Crossover s other) = 0 /\
  exists child1,
    ComputeAndSetFitnessScore (Crossover s other) = Some child1 /\
    GetFitnessScore child1 = Z.max (GetFitnessScore s) (GetFitnessScore other) /\
    sequence child1 =
      (if GetFitnessScore other <=? GetFitnessScore s then sequence s else sequence other).
Proof.
  intros s other.
  assert (H1 : ComputeAndSetFitnessScore s = Some s) by (vm_compute; reflexivity).
  assert (H2 : ComputeAndSetFitnessScore other = Some other) by (vm_compute; reflexivity).
  split; [exact H1|]. split; [exact H2|].
  split; [vm_compute; reflexivity|]. split; [vm_compute; reflexivity|].
  exact (Crossover_keeps_fitter s other s other H1 H2 eq_refl eq_refl).
Defined.

End scheduling_facts.
